(** * Download / retry orchestration of the YouTube downloader bot

    A shallow embedding of [src/bot.py] (class [YouTubeDownloader]) and the
    properties of its retry loops, failed-download ledger and message
    dispatch, followed by one of [src/user_manager.py] (class
    [UserContactManager], module [UserManager] below) and the properties of
    its table of users.

    Conventions of the embedding.
    - [self.failed_downloads] is a Python dict keyed by [str(chat_id)]; [str]
      is injective on integers, so the map is keyed by the integer itself.
      The same holds for the file name
      [failed_lists/{chat_id}_failed_downloads.json].
    - Python strings are kept as their UTF-8 bytes.  Every substring test of
      the program has an ASCII needle, and UTF-8 is self-synchronising, so
      the byte-level test agrees with the code-point-level one.
    - Everything outside the repository (pytubefix, moviepy, the Telegram
      transport, the file system, the builtin [int]) is an oracle [Env]
      whose answers may depend on a logical clock, so that the same call can
      fail now and succeed later.  A call that writes a file and raises may
      have begun its file: the oracle says whether it is left behind.  Paths
      are POSIX paths.
    - Python exceptions are the [Raise] result of a state-and-exception
      monad; [try_except] is [try: ... except Exception: ...]. *)

From Stdlib Require Import Ascii.
From stdpp Require Import gmap strings list fin_maps pretty.

#[local] Set Warnings "-register-all".

Open Scope string_scope.
Open Scope list_scope.

(** ** Strings *)

(** [needle in hay] on Python strings. *)
Fixpoint contains (needle hay : string) : bool :=
  String.prefix needle hay
  || match hay with
     | EmptyString => false
     | String _ hay' => contains needle hay'
     end.

Definition upper_ascii (c : ascii) : ascii :=
  let n := nat_of_ascii c in
  if (97 <=? n)%nat && (n <=? 122)%nat then ascii_of_nat (n - 32) else c.

(** [str.upper()]; only its effect on ASCII letters matters, the result is
    compared with ['MP3'] and ['MP4']. *)
Fixpoint upper (s : string) : string :=
  match s with
  | EmptyString => EmptyString
  | String c s' => String (upper_ascii c) (upper s')
  end.

(** [s.split(',')]: the pieces between the commas, at least one piece. *)
Fixpoint split_comma_aux (cur : string) (s : string) : list string :=
  match s with
  | EmptyString => [String.rev cur]
  | String c s' =>
      if Ascii.eqb c ","%char
      then String.rev cur :: split_comma_aux EmptyString s'
      else split_comma_aux (String c cur) s'
  end.

Definition split_comma (s : string) : list string :=
  split_comma_aux EmptyString s.

(** [os.path.basename(p)] on a POSIX path: what follows the last slash. *)
Fixpoint basename_aux (cur : string) (p : string) : string :=
  match p with
  | EmptyString => String.rev cur
  | String c p' =>
      if Ascii.eqb c "/"%char then basename_aux EmptyString p'
      else basename_aux (String c cur) p'
  end.

Definition basename (p : string) : string := basename_aux EmptyString p.

Fixpoint after_dot (s : string) : option string :=
  match s with
  | EmptyString => None
  | String c s' => if Ascii.eqb c "."%char then Some s' else after_dot s'
  end.

Fixpoint only_dots (s : string) : bool :=
  match s with
  | EmptyString => true
  | String c s' => Ascii.eqb c "."%char && only_dots s'
  end.

(** [os.path.splitext(name)[0]] for a name without slash: the name up to its
    last dot; the whole name when it has no dot, or nothing but dots before
    the last one. *)
Definition splitext_root (name : string) : string :=
  match after_dot (String.rev name) with
  | Some before =>
      if only_dots before then name else String.rev before
  | None => name
  end.

(** Lines 401-402:
    [os.path.join('downloads',
                  os.path.splitext(os.path.basename(file_path))[0] + '.mp3')]. *)
Definition mp3_path (file_path : string) : string :=
  "downloads/" +:+ splitext_root (basename file_path) +:+ ".mp3".

(** ** Data *)

(** A failed item is the tuple [(url, format_choice)]. *)
Abbreviation FailedItem := (string * string)%type.

(** What [json.dump] writes for a list of such tuples: an array of
    two-element arrays of strings.  [JCut] is the text of a file whose
    writing broke off: opened, hence emptied, and not written to the end. *)
Inductive Json : Type :=
| JStr (s : string)
| JArr (items : list Json)
| JCut.

Definition failed_item_to_json (it : FailedItem) : Json :=
  JArr [JStr it.1; JStr it.2].

Definition failed_list_to_json (l : list FailedItem) : Json :=
  JArr (failed_item_to_json <$> l).

(** [enumerate(failed_list, 1)] *)
Definition enumerate1 {A} (l : list A) : list (nat * A) :=
  zip (seq 1 (length l)) l.

(** The handlers the program registers with
    [register_next_step_handler(_by_chat_id)]. *)
Inductive Handler : Type :=
| HFormatSelection        (* self.process_format_selection *)
| HRetrySelection         (* self.process_retry_selection *)
| HSpecificRetry.         (* self.process_specific_retry *)

(** Outbound texts, by the place that sends them. *)
Inductive Text : Type :=
| TWelcome
| TNoFailedDownloads
| TRetryOptions (shown : list (nat * FailedItem))
| TChooseFormat
| TErrProcessUrl
| TRetryCancelled
| TSelectPrompt (shown : list (nat * FailedItem))
| TErrRetryProcess
| TRetryDone
| TErrSpecificRetry
| TUrlNotFound
| TInvalidFormat
| TErrDownload
| TFailedAfter (max_retries : nat)
| TSomeFailed (urls : list string)
| TErrPlaylist.

Inductive LogEntry : Type :=
| LogProcessUrl
| LogRetryProcess
| LogSpecificRetry
| LogDownload
| LogVideoAttempt (attempt : nat)
| LogPlaylistAttempt (video_url : string) (attempt : nat)
| LogPlaylist
| LogSaveFailedList
| LogConvert.

(** Calls that leave the process, in the order they are made. *)
Inductive Event : Type :=
| EvYouTube (url : string)
| EvConvert (file_path : string)
| EvPlaylist (url : string)
| EvZip (zip_path : string) (members : list string)
| EvSendDocument (chat : Z) (file_path : string) (delivered : bool)
| EvSendMessage (chat : Z) (text : Text) (delivered : bool)
| EvRemove (file_path : string)
| EvSaveContact (user : Z)
| EvLog (entry : LogEntry).

Record Message : Type := {
  chat_id : Z;
  from_user : Z;
  text : string
}.

Record State : Type := {
  failed_downloads : gmap Z (list FailedItem);   (* self.failed_downloads *)
  user_data : gmap Z string;                     (* user_data[chat]['url'] *)
  next_step : gmap Z (list Handler);             (* telebot's pending next-step handlers *)
  failed_lists : gmap Z Json;                    (* failed_lists/<chat>_failed_downloads.json *)
  files : gset string;                           (* downloads/ and playlist_zip/ *)
  trace : list Event;
  clock : nat
}.

(** The world outside the repository.  The [nat] argument is the logical
    clock at the time of the call. *)
Record Env : Type := {
  (* YouTube(url).streams.get_highest_resolution().download('downloads'):
     the path written, or an exception *)
  youtube_download : nat → string → option string;
  (* the file a download that raises has begun to write, if any *)
  download_left : nat → string → option string;
  (* VideoFileClip(path), its audio.write_audiofile(mp3_path) and its close
     succeed, for a file that is there *)
  write_audiofile : nat → string → bool;
  (* when they do not: the audio file has been begun and is left behind *)
  audiofile_left : nat → string → bool;
  (* os.path.join('downloads', splitext(basename(path))[0] + '.mp3') *)
  mp3_path_of : string → string;
  (* Playlist(url).video_urls, or an exception *)
  playlist_video_urls : nat → string → option (list string);
  (* zipfile.ZipFile(zip_path, 'w'), the writes of members that are there
     and the close succeed *)
  zip_write_ok : nat → string → bool;
  (* when they do not: the archive has been created and is left behind *)
  zip_left : nat → string → bool;
  send_document_ok : nat → Z → string → bool;
  send_message_ok : nat → Z → bool;
  (* open(failed_list_path, 'w') and json.dump succeed *)
  json_dump_ok : nat → Z → bool;
  (* what a write of the ledger file that raises leaves in the file: [None]
     when open itself raises and the file stays as it was, otherwise the
     text of the file that was opened, usually cut short *)
  json_dump_left : nat → Z → option Json;
  (* os.remove(path) of a file that is there succeeds *)
  remove_ok : nat → string → bool;
  (* int(x.strip()), None for ValueError *)
  py_int : string → option Z;
  (* telebot.util.extract_command, None when the text is not a command *)
  extract_command : string → option string
}.

(** ** The monad *)

Inductive Res (A : Type) : Type :=
| Ok (a : A) (s : State)
| Raise (s : State).
Arguments Ok {A} a s.
Arguments Raise {A} s.

Definition state_of {A} (r : Res A) : State :=
  match r with
  | Ok _ s => s
  | Raise s => s
  end.

Definition raised {A} (r : Res A) : bool :=
  match r with
  | Ok _ _ => false
  | Raise _ => true
  end.

Definition M (A : Type) : Type := State → Res A.

Definition ret {A} (a : A) : M A := fun s => Ok a s.

Definition bind {A B} (m : M A) (k : A → M B) : M B :=
  fun s =>
    match m s with
    | Ok a s' => k a s'
    | Raise s' => Raise s'
    end.

Definition raise {A} : M A := fun s => Raise s.

Definition try_except {A} (body handler : M A) : M A :=
  fun s =>
    match body s with
    | Ok a s' => Ok a s'
    | Raise s' => handler s'
    end.

Declare Scope prog_scope.
Delimit Scope prog_scope with prog.
Notation "x <- c1 ;; c2" := (bind c1 (fun x => c2))
  (at level 100, c1 at next level, right associativity) : prog_scope.
Notation "c1 ;; c2" := (bind c1 (fun _ => c2))
  (at level 100, c2 at level 200, right associativity) : prog_scope.
Bind Scope prog_scope with M.
Open Scope prog_scope.

Definition get : M State := fun s => Ok s s.
Definition modify (f : State → State) : M unit := fun s => Ok tt (f s).

Definition set_failed_downloads (v : gmap Z (list FailedItem)) (s : State) : State :=
  {| failed_downloads := v; user_data := user_data s; next_step := next_step s;
     failed_lists := failed_lists s; files := files s; trace := trace s;
     clock := clock s |}.

Definition set_user_data (v : gmap Z string) (s : State) : State :=
  {| failed_downloads := failed_downloads s; user_data := v; next_step := next_step s;
     failed_lists := failed_lists s; files := files s; trace := trace s;
     clock := clock s |}.

Definition set_next_step (v : gmap Z (list Handler)) (s : State) : State :=
  {| failed_downloads := failed_downloads s; user_data := user_data s; next_step := v;
     failed_lists := failed_lists s; files := files s; trace := trace s;
     clock := clock s |}.

Definition set_failed_lists (v : gmap Z Json) (s : State) : State :=
  {| failed_downloads := failed_downloads s; user_data := user_data s;
     next_step := next_step s; failed_lists := v; files := files s;
     trace := trace s; clock := clock s |}.

Definition set_files (v : gset string) (s : State) : State :=
  {| failed_downloads := failed_downloads s; user_data := user_data s;
     next_step := next_step s; failed_lists := failed_lists s; files := v;
     trace := trace s; clock := clock s |}.

Definition set_trace (v : list Event) (s : State) : State :=
  {| failed_downloads := failed_downloads s; user_data := user_data s;
     next_step := next_step s; failed_lists := failed_lists s; files := files s;
     trace := v; clock := clock s |}.

Definition set_clock (v : nat) (s : State) : State :=
  {| failed_downloads := failed_downloads s; user_data := user_data s;
     next_step := next_step s; failed_lists := failed_lists s; files := files s;
     trace := trace s; clock := v |}.

(** [self.failed_downloads.get(str(chat_id), [])] *)
Definition ledger (s : State) (chat : Z) : list FailedItem :=
  default [] (failed_downloads s !! chat).

(** ** The program *)

Section Bot.

Context (env : Env).

Definition emit (e : Event) : M unit :=
  modify (fun s => set_trace (trace s ++ [e]) s).

(** One question to the outside world: the answer is read at the current
    clock, which then advances. *)
Definition tick : M nat :=
  fun s => Ok (clock s) (set_clock (S (clock s)) s).

Definition logging_error (entry : LogEntry) : M unit := emit (EvLog entry).

(** [self.bot.send_message(chat_id, text)]; [reply_to] is the same call
    addressed to [message.chat.id]. *)
Definition send_message (chat : Z) (t : Text) : M unit :=
  now <- tick ;;
  let ok := send_message_ok env now chat in
  emit (EvSendMessage chat t ok) ;;
  if ok then ret tt else raise.

(** [with open(file_path, 'rb') as file: self.bot.send_document(chat_id, file)] *)
Definition send_document (chat : Z) (file_path : string) : M unit :=
  s <- get ;;
  if bool_decide (file_path ∈ files s) then
    now <- tick ;;
    let ok := send_document_ok env now chat file_path in
    emit (EvSendDocument chat file_path ok) ;;
    if ok then ret tt else raise
  else raise.

(** [os.remove(path)]: FileNotFoundError when the file is not there, and
    whatever else the file system raises (a file in use, a permission
    missing) when it is. *)
Definition os_remove (path : string) : M unit :=
  s <- get ;;
  if bool_decide (path ∈ files s) then
    now <- tick ;;
    if remove_ok env now path then
      emit (EvRemove path) ;;
      modify (fun s => set_files (files s ∖ {[path]}) s)
    else raise
  else raise.

Definition create_file (path : string) : M unit :=
  modify (fun s => set_files ({[path]} ∪ files s) s).

(** [yt = YouTube(url); stream = yt.streams.get_highest_resolution();
    file_path = stream.download('downloads')].  Both format branches of the
    source make the same three calls. *)
Definition youtube_fetch (url : string) : M string :=
  now <- tick ;;
  emit (EvYouTube url) ;;
  match youtube_download env now url with
  | Some file_path => create_file file_path ;; ret file_path
  | None =>
      match download_left env now url with
      | Some file_path => create_file file_path ;; raise
      | None => raise
      end
  end.

(** [convert_to_mp3] (lines 386-418): any failure is logged and the
    original path is returned.  [VideoFileClip(file_path)] needs the file to
    be there. *)
Definition convert_to_mp3 (file_path : string) : M string :=
  try_except
    (now <- tick ;;
     emit (EvConvert file_path) ;;
     s <- get ;;
     let mp3_path := mp3_path_of env file_path in
     if bool_decide (file_path ∈ files s) then
       if write_audiofile env now file_path then
         create_file mp3_path ;;
         os_remove file_path ;;
         ret mp3_path
       else if audiofile_left env now file_path then
         create_file mp3_path ;; raise
       else raise
     else raise)
    (logging_error LogConvert ;; ret file_path).

(** Lines 256-262 and 318-324: fetch, then extract for anything but MP4. *)
Definition fetch_artifact (url format_choice : string) : M string :=
  file_path <- youtube_fetch url ;;
  if String.eqb format_choice "MP4" then ret file_path
  else convert_to_mp3 file_path.

(** [save_failed_list] (lines 373-384).  [open(path, 'w')] empties the file
    before [json.dump] writes: a write that raises after the file was opened
    has lost what the file held. *)
Definition save_failed_list (chat : Z) : M unit :=
  try_except
    (now <- tick ;;
     if json_dump_ok env now chat then
       modify (fun s =>
         set_failed_lists
           (<[chat := failed_list_to_json (ledger s chat)]> (failed_lists s)) s)
     else
       match json_dump_left env now chat with
       | Some text =>
           modify (fun s =>
             set_failed_lists (<[chat := text]> (failed_lists s)) s) ;;
           raise
       | None => raise
       end)
    (logging_error LogSaveFailedList).

(** [if str(chat_id) not in self.failed_downloads:
       self.failed_downloads[str(chat_id)] = []] *)
Definition ensure_ledger (chat : Z) : M unit :=
  modify (fun s =>
    match failed_downloads s !! chat with
    | Some _ => s
    | None => set_failed_downloads (<[chat := []]> (failed_downloads s)) s
    end).

(** [self.failed_downloads[str(chat_id)].extend(items)]; [append] is the
    one-item case.  The list object is mutated in place: whoever holds it
    sees the new items. *)
Definition ledger_extend (chat : Z) (items : list FailedItem) : M unit :=
  modify (fun s =>
    set_failed_downloads
      (<[chat := ledger s chat ++ items]> (failed_downloads s)) s).

(** *** download_video (lines 240-289) *)

(** The body of the [try] (lines 251-270), up to the [return]. *)
Definition video_attempt (chat : Z) (url format_choice : string) : M unit :=
  file_path <- fetch_artifact url format_choice ;;
  send_document chat file_path ;;
  os_remove file_path.

(** Lines 277-289, run when the last attempt failed. *)
Definition track_failed_video (chat : Z) (url format_choice : string)
    (max_retries : nat) : M unit :=
  send_message chat (TFailedAfter max_retries) ;;
  ensure_ledger chat ;;
  ledger_extend chat [(url, format_choice)] ;;
  save_failed_list chat.

(** [for attempt in range(max_retries)], with [remaining] iterations to go;
    [attempt = max_retries - remaining]. *)
Fixpoint video_attempts (chat : Z) (url format_choice : string)
    (max_retries remaining : nat) : M unit :=
  match remaining with
  | 0 => ret tt
  | S remaining' =>
      let attempt := max_retries - remaining in
      returned <-
        try_except
          (video_attempt chat url format_choice ;; ret true)
          (logging_error (LogVideoAttempt (attempt + 1)) ;;
           (if (attempt =? max_retries - 1)%nat
            then track_failed_video chat url format_choice max_retries
            else ret tt) ;;
           ret false) ;;
      if returned : bool then ret tt
      else video_attempts chat url format_choice max_retries remaining'
  end.

Definition download_video (chat : Z) (url format_choice : string)
    (max_retries : nat) : M unit :=
  video_attempts chat url format_choice max_retries max_retries.

(** *** download_playlist (lines 291-371) *)

(** The inner [for attempt in range(max_retries)] (lines 314-334) for one
    [video_url]; the two accumulators are threaded through. *)
Fixpoint playlist_attempts (video_url format_choice : string)
    (max_retries remaining : nat)
    (downloaded_files : list string) (failed_videos : list FailedItem)
    : M (list string * list FailedItem) :=
  match remaining with
  | 0 => ret (downloaded_files, failed_videos)
  | S remaining' =>
      let attempt := max_retries - remaining in
      got <-
        try_except
          (file_path <- fetch_artifact video_url format_choice ;;
           ret (Some file_path))
          (logging_error (LogPlaylistAttempt video_url (attempt + 1)) ;;
           ret None) ;;
      match got with
      | Some file_path =>                                    (* break *)
          ret (downloaded_files ++ [file_path], failed_videos)
      | None =>
          playlist_attempts video_url format_choice max_retries remaining'
            downloaded_files
            (if (attempt =? max_retries - 1)%nat
             then failed_videos ++ [(video_url, format_choice)]
             else failed_videos)
      end
  end.

(** [for video_url in playlist.video_urls] (lines 311-334) *)
Fixpoint playlist_loop (video_urls : list string) (format_choice : string)
    (max_retries : nat)
    (downloaded_files : list string) (failed_videos : list FailedItem)
    : M (list string * list FailedItem) :=
  match video_urls with
  | [] => ret (downloaded_files, failed_videos)
  | video_url :: rest =>
      acc <- playlist_attempts video_url format_choice max_retries max_retries
               downloaded_files failed_videos ;;
      playlist_loop rest format_choice max_retries acc.1 acc.2
  end.

Fixpoint for_each {A} (f : A → M unit) (l : list A) : M unit :=
  match l with
  | [] => ret tt
  | x :: rest => f x ;; for_each f rest
  end.

(** [f'playlist_{format_choice}_{chat_id}.zip'] under [playlist_zip] *)
Definition zip_path_of (chat : Z) (format_choice : string) : string :=
  "playlist_zip/playlist_" +:+ format_choice +:+ "_" +:+ pretty chat +:+ ".zip".

(** Lines 341-343: [ZipFile(zip_path, 'w')] creates the archive, then the
    member files, which must all be there, are written into it. *)
Definition write_zip (zip_path : string) (members : list string) : M unit :=
  now <- tick ;;
  emit (EvZip zip_path members) ;;
  if zip_write_ok env now zip_path then
    create_file zip_path ;;
    s <- get ;;
    if forallb (fun f => bool_decide (f ∈ files s)) members
    then ret tt
    else raise
  else if zip_left env now zip_path then
    create_file zip_path ;; raise
  else raise.

(** [playlist.video_urls]: the items of the playlist, resolved once. *)
Definition resolve_playlist (url : string) : M (list string) :=
  now <- tick ;;
  emit (EvPlaylist url) ;;
  match playlist_video_urls env now url with
  | Some video_urls => ret video_urls
  | None => raise
  end.

(** Lines 356-367, run when some items failed. *)
Definition track_failed_videos (chat : Z) (failed_videos : list FailedItem)
    : M unit :=
  send_message chat (TSomeFailed (fst <$> failed_videos)) ;;
  ensure_ledger chat ;;
  ledger_extend chat failed_videos ;;
  save_failed_list chat.

Definition download_playlist (chat : Z) (url format_choice : string)
    (max_retries : nat) : M unit :=
  try_except
    (video_urls <- resolve_playlist url ;;
     acc <- playlist_loop video_urls format_choice max_retries [] [] ;;
     let downloaded_files := acc.1 in
     let failed_videos := acc.2 in
     (match downloaded_files with
      | [] => ret tt
      | _ :: _ =>
          let zip_path := zip_path_of chat format_choice in
          write_zip zip_path downloaded_files ;;
          send_document chat zip_path ;;
          for_each os_remove downloaded_files ;;
          os_remove zip_path
      end) ;;
     match failed_videos with
     | [] => ret tt
     | _ :: _ => track_failed_videos chat failed_videos
     end)
    (logging_error LogPlaylist ;;
     send_message chat TErrPlaylist).

(** *** The retry handlers (lines 136-208) *)

(** [self.bot.register_next_step_handler(_by_chat_id)] *)
Definition register_next_step_handler (chat : Z) (h : Handler) : M unit :=
  modify (fun s =>
    set_next_step
      (<[chat := default [] (next_step s !! chat) ++ [h]]> (next_step s)) s).

(** The three places that choose between the playlist and the single-video
    download, as written at each of them. *)
Definition is_playlist_format_selection (url : string) : bool :=
  contains "list=" url.                                   (* line 231 *)
Definition is_playlist_retry_all (url : string) : bool :=
  contains "list=" url.                                   (* line 153 *)
Definition is_playlist_specific_retry (url : string) : bool :=
  contains "playlist" url.                                (* line 193 *)

Definition download (as_playlist : bool) (chat : Z) (url format_choice : string)
    : M unit :=
  if as_playlist then download_playlist chat url format_choice 3
  else download_video chat url format_choice 3.

(** [for url, format_choice in failed_list] (lines 152-156).  [failed_list]
    is the list object stored in [self.failed_downloads]: the downloads it
    starts append to that same object, and Python's list iterator compares
    its index with the current length at every step.  The loop therefore
    reads position [i] of the ledger as it is now; nothing bounds the number
    of iterations, hence the fuel ([None] when it runs out).  When the key is
    absent, [failed_list] is a fresh empty list and the ledger reads as
    empty too. *)
Fixpoint retry_all_loop (fuel : nat) (chat : Z) (i : nat) (s : State)
    : option (Res unit) :=
  match fuel with
  | 0 => None
  | S fuel' =>
      match ledger s chat !! i with
      | None => Some (Ok tt s)
      | Some (url, format_choice) =>
          match download (is_playlist_retry_all url) chat url format_choice s with
          | Ok _ s' => retry_all_loop fuel' chat (S i) s'
          | Raise s' => Some (Raise s')
          end
      end
  end.

Definition retry_except (chat : Z) : M unit :=
  logging_error LogRetryProcess ;;
  send_message chat TErrRetryProcess.

Definition process_retry_selection (fuel : nat) (message : Message) (s : State)
    : option (Res unit) :=
  let chat := chat_id message in
  let selection := text message in
  if String.eqb selection "Cancelar" then
    Some (try_except (send_message chat TRetryCancelled) (retry_except chat) s)
  else if String.eqb selection "Tentar Todos" then
    match retry_all_loop fuel chat 0 s with
    | None => None
    | Some (Ok _ s') =>
        (* self.failed_downloads[str(chat_id)] = [] *)
        Some (Ok tt (set_failed_downloads (<[chat := []]> (failed_downloads s')) s'))
    | Some (Raise s') => Some (retry_except chat s')
    end
  else if String.eqb selection "Selecionar Específicos" then
    Some (try_except
            (send_message chat (TSelectPrompt (enumerate1 (ledger s chat))) ;;
             register_next_step_handler chat HSpecificRetry)
            (retry_except chat) s)
  else Some (Ok tt s).

(** [[int(x.strip()) - 1 for x in selection.split(',')]], [None] when one
    piece is not a number. *)
Definition parse_selection (selection : string) : option (list Z) :=
  mapM (fun x => (fun n => n - 1)%Z <$> py_int env x) (split_comma selection).

(** The body of [for idx in selected_indices] (lines 191-196).
    [failed_list] is the list object stored in [self.failed_downloads], as in
    the retry-all loop, so [len(failed_list)] and [failed_list[idx]] are read
    from the ledger as it is now. *)
Definition retry_index (chat : Z) (idx : Z) : M unit :=
  s <- get ;;
  if bool_decide (0 ≤ idx < Z.of_nat (length (ledger s chat)))%Z then
    match ledger s chat !! Z.to_nat idx with
    | Some (url, format_choice) =>
        download (is_playlist_specific_retry url) chat url format_choice
    | None => ret tt
    end
  else ret tt.

Fixpoint specific_retry_loop (chat : Z) (selected_indices : list Z) : M unit :=
  match selected_indices with
  | [] => ret tt
  | idx :: rest => retry_index chat idx ;; specific_retry_loop chat rest
  end.

(** [[item for idx, item in enumerate(failed_list)
      if idx not in selected_indices]] *)
Definition drop_selected (selected_indices : list Z) (failed_list : list FailedItem)
    : list FailedItem :=
  snd <$> filter (fun p => Z.of_nat p.1 ∉ selected_indices)
            (zip (seq 0 (length failed_list)) failed_list).

(** Lines 187-204, once the selection is parsed. *)
Definition retry_selected (chat : Z) (selected_indices : list Z) : M unit :=
  specific_retry_loop chat selected_indices ;;
  modify (fun s =>
    set_failed_downloads
      (<[chat := drop_selected selected_indices (ledger s chat)]>
         (failed_downloads s)) s) ;;
  send_message chat TRetryDone.

(** The [try] / [except] of [process_specific_retry] (lines 184-208), given
    what the parse of the reply produced. *)
Definition retry_parsed (chat : Z) (parsed : option (list Z)) : M unit :=
  try_except
    (match parsed with
     | None => raise                                   (* ValueError *)
     | Some selected_indices => retry_selected chat selected_indices
     end)
    (logging_error LogSpecificRetry ;;
     send_message chat TErrSpecificRetry).

Definition process_specific_retry (message : Message) : M unit :=
  retry_parsed (chat_id message) (parse_selection (text message)).

(** *** process_format_selection (lines 210-238) *)

Definition process_format_selection (message : Message) : M unit :=
  let chat := chat_id message in
  try_except
    (s <- get ;;
     match user_data s !! chat with
     | None | Some EmptyString => send_message chat TUrlNotFound
     | Some url =>
         let format_choice := upper (text message) in
         if negb (String.eqb format_choice "MP3" || String.eqb format_choice "MP4")
         then send_message chat TInvalidFormat
         else download (is_playlist_format_selection url) chat url format_choice
     end)
    (logging_error LogDownload ;;
     send_message chat TErrDownload).

(** *** The message handlers (lines 41-108) *)

Definition send_welcome (message : Message) : M unit :=
  emit (EvSaveContact (from_user message)) ;;
  send_message (chat_id message) TWelcome.

Definition handle_retry (message : Message) : M unit :=
  let chat := chat_id message in
  s <- get ;;
  match failed_downloads s !! chat with
  | None | Some [] => send_message chat TNoFailedDownloads
  | Some failed_list =>
      send_message chat (TRetryOptions (enumerate1 failed_list)) ;;
      register_next_step_handler chat HRetrySelection
  end.

Definition handle_url (message : Message) : M unit :=
  let chat := chat_id message in
  try_except
    (if contains "youtube.com" (text message) || contains "youtu.be" (text message)
     then
       modify (fun s => set_user_data (<[chat := text message]> (user_data s)) s) ;;
       send_message chat TChooseFormat ;;
       register_next_step_handler chat HFormatSelection
     else ret tt)
    (logging_error LogProcessUrl ;;
     send_message chat TErrProcessUrl).

(** *** Dispatch of one inbound text message

    What telebot does with a new message, for the handlers this program
    registers: the next-step handlers pending for the chat, if any, take
    the message (and are forgotten); otherwise the first message handler
    whose filter matches, in registration order: [commands=['start']],
    [commands=['retry']], then the catch-all [handle_url]. *)

Definition run_handler (fuel : nat) (h : Handler) (message : Message) (s : State)
    : option (Res unit) :=
  match h with
  | HFormatSelection => Some (process_format_selection message s)
  | HRetrySelection => process_retry_selection fuel message s
  | HSpecificRetry => Some (process_specific_retry message s)
  end.

Fixpoint run_handlers (fuel : nat) (hs : list Handler) (message : Message)
    (s : State) : option (Res unit) :=
  match hs with
  | [] => Some (Ok tt s)
  | h :: rest =>
      match run_handler fuel h message s with
      | None => None
      | Some (Ok _ s') => run_handlers fuel rest message s'
      | Some (Raise s') => Some (Raise s')
      end
  end.

Definition process_new_message (fuel : nat) (message : Message) (s : State)
    : option (Res unit) :=
  let chat := chat_id message in
  match next_step s !! chat with
  | Some (h :: hs) =>
      run_handlers fuel (h :: hs) message
        (set_next_step (delete chat (next_step s)) s)
  | _ =>
      match extract_command env (text message) with
      | Some cmd =>
          if String.eqb cmd "start" then Some (send_welcome message s)
          else if String.eqb cmd "retry" then Some (handle_retry message s)
          else Some (handle_url message s)
      | None => Some (handle_url message s)
      end
  end.

End Bot.

(** [YouTubeDownloader.__init__] (lines 28-35) in a fresh process: the
    ledger starts as the empty dict, the module-level [user_data] too, no
    handler is pending; [os.makedirs(dir, exist_ok=True)] leaves the files
    on disk as they are.  Nothing under [failed_lists] is read. *)
Definition init (disk : State) : State :=
  {| failed_downloads := ∅; user_data := ∅; next_step := ∅;
     failed_lists := failed_lists disk; files := files disk;
     trace := []; clock := clock disk |}.

(** ** Observations on states and traces *)

(** The number of fetches ([YouTube(url)] ... [download]) in a trace. *)
Definition is_fetch (e : Event) : bool :=
  match e with
  | EvYouTube _ => true
  | _ => false
  end.

Definition fetches (tr : list Event) : nat := length (filter is_fetch tr).

(** The URLs fetched in a trace, in the order of the fetches. *)
Definition fetched (tr : list Event) : list string :=
  omap (fun e => match e with
                 | EvYouTube url => Some url
                 | _ => None
                 end) tr.

Definition is_document (e : Event) : bool :=
  match e with
  | EvSendDocument _ _ _ => true
  | _ => false
  end.

(** Some document reached the chat. *)
Definition is_delivery (chat : Z) (e : Event) : bool :=
  match e with
  | EvSendDocument c _ true => bool_decide (c = chat)
  | _ => false
  end.

Definition delivered (chat : Z) (tr : list Event) : bool :=
  existsb (is_delivery chat) tr.

(** The number of documents that reached [chat]. *)
Definition deliveries (chat : Z) (tr : list Event) : nat :=
  length (filter (is_delivery chat) tr).

(** The events a run added to the trace it started from. *)
Definition new_events (s s' : State) : list Event :=
  drop (length (trace s)) (trace s').

(** The text transport works for [chat]. *)
Definition reliable_text (env : Env) (chat : Z) : Prop :=
  ∀ now, send_message_ok env now chat = true.

(** ** A small logic of runs

    [steps R m]: every run of [m], finished or raised, takes a state to an
    [R]-related one. *)
Definition steps (R : State → State → Prop) {A} (m : M A) : Prop :=
  ∀ s, R s (state_of (m s)).

(** [m] never lets an exception out. *)
Definition never_raises {A} (m : M A) : Prop := ∀ s, raised (m s) = false.

(** Each requester's ledger only grows at its end. *)
Definition ledger_grows (s s' : State) : Prop :=
  ∀ chat, ledger s chat `prefix_of` ledger s' chat.

(** The trace only grows at its end. *)
Definition trace_grows (s s' : State) : Prop :=
  trace s `prefix_of` trace s'.

(** No fetch was made. *)
Definition same_fetches (s s' : State) : Prop :=
  fetches (trace s') = fetches (trace s).

(** No document reached [chat]. *)
Definition no_delivery (chat : Z) (s s' : State) : Prop :=
  ∃ ev, trace s' = trace s ++ ev ∧ delivered chat ev = false.

(** As many documents have reached [chat] as before. *)
Definition same_deliveries (chat : Z) (s s' : State) : Prop :=
  deliveries chat (trace s') = deliveries chat (trace s).

(** Each requester's ledger reads the same. *)
Definition same_ledgers (s s' : State) : Prop :=
  ∀ chat, ledger s' chat = ledger s chat.

(** A relation on states that the steps around the ledger respect: the
    clock, the files, the durable ledger files, events other than fetches
    and document deliveries, and the creation of an empty ledger. *)
Class Tolerant (R : State → State → Prop) : Prop := {
  #[global] tol_refl :: Reflexive R;
  #[global] tol_trans :: Transitive R;
  tol_clock s n : R s (set_clock n s);
  tol_files s v : R s (set_files v s);
  tol_failed_lists s v : R s (set_failed_lists v s);
  tol_emit s e :
    is_fetch e = false → is_document e = false →
    R s (set_trace (trace s ++ [e]) s);
  tol_ensure s chat :
    failed_downloads s !! chat = None →
    R s (set_failed_downloads (<[chat := []]> (failed_downloads s)) s)
}.

(** ... and fetches as well *)
Class ToleratesFetch (R : State → State → Prop) : Prop :=
  tol_fetch s url : R s (set_trace (trace s ++ [EvYouTube url]) s).

(** ... and document deliveries, made or failed *)
Class ToleratesDocument (R : State → State → Prop) : Prop :=
  tol_document s chat path ok :
    R s (set_trace (trace s ++ [EvSendDocument chat path ok]) s).

(** ... and growth of a ledger at its end. *)
Class ToleratesExtend (R : State → State → Prop) : Prop :=
  tol_extend s chat items :
    R s (set_failed_downloads
           (<[chat := ledger s chat ++ items]> (failed_downloads s)) s).

(** ** Sample worlds and states, for the concrete runs *)

Definition digit_of (c : ascii) : option Z :=
  let n := nat_of_ascii c in
  if (48 <=? n)%nat && (n <=? 57)%nat then Some (Z.of_nat (n - 48)) else None.

(** The digits that follow a digit: more digits, each of which may have one
    underscore before it. *)
Fixpoint dec_digits (acc : Z) (s : string) : option Z :=
  match s with
  | EmptyString => Some acc
  | String "_" (String c s') =>
      match digit_of c with
      | Some d => dec_digits (10 * acc + d) s'
      | None => None
      end
  | String c s' =>
      match digit_of c with
      | Some d => dec_digits (10 * acc + d) s'
      | None => None
      end
  end.

Definition dec_unsigned (s : string) : option Z :=
  match s with
  | EmptyString => None
  | String c s' =>
      match digit_of c with
      | Some d => dec_digits d s'
      | None => None
      end
  end.

(** The white space of ASCII, as [str.isspace] has it. *)
Definition is_space (c : ascii) : bool :=
  let n := nat_of_ascii c in
  ((9 <=? n)%nat && (n <=? 13)%nat) || ((28 <=? n)%nat && (n <=? 32)%nat).

Fixpoint lstrip (s : string) : string :=
  match s with
  | String c s' => if is_space c then lstrip s' else s
  | EmptyString => s
  end.

(** A decimal reader standing for [int(x.strip())]: white space around, an
    optional sign, then digits, single underscores between them allowed.
    Digits and white space outside ASCII, which [int] reads too, are not
    read. *)
Definition dec_int (s : string) : option Z :=
  match String.rev (lstrip (String.rev (lstrip s))) with
  | String "-" body => Z.opp <$> dec_unsigned body
  | String "+" body => dec_unsigned body
  | body => dec_unsigned body
  end.

Fixpoint command_name (s : string) : string :=
  match s with
  | EmptyString => EmptyString
  | String c s' =>
      if is_space c || Ascii.eqb c "@" then EmptyString
      else String c (command_name s')
  end.

(** [telebot.util.extract_command]: [text.split()[0].split('@')[0][1:]] for
    a text that starts with a slash, so that [/name], [/name args] and
    [/name@bot] are commands; white space outside ASCII does not end the
    name here. *)
Definition slash_command (s : string) : option string :=
  match s with
  | String "/" rest => Some (command_name rest)
  | _ => None
  end.

(** A world in which texts are always delivered, the ledger files can be
    written, extraction works, files can be removed, no call leaves a file
    it has only begun, and fetches and document deliveries go as the two
    arguments say. *)
Definition world (fetch : nat → string → option string)
    (document_ok : nat → Z → string → bool) : Env :=
  {| youtube_download := fetch;
     download_left := fun _ _ => None;
     write_audiofile := fun _ _ => true;
     audiofile_left := fun _ _ => false;
     mp3_path_of := mp3_path;
     playlist_video_urls := fun _ _ => None;
     zip_write_ok := fun _ _ => true;
     zip_left := fun _ _ => false;
     send_document_ok := document_ok;
     send_message_ok := fun _ _ => true;
     json_dump_ok := fun _ _ => true;
     json_dump_left := fun _ _ => None;
     remove_ok := fun _ _ => true;
     py_int := dec_int;
     extract_command := slash_command |}.

Definition url_ok : string := "https://youtu.be/ok".
Definition url_gone : string := "https://youtu.be/gone".

(** [url_gone] can never be fetched, everything else can. *)
Definition fetch_unless_gone (now : nat) (url : string) : option string :=
  if String.eqb url url_gone then None else Some ("downloads/" +:+ url).

Definition world_gone : Env := world fetch_unless_gone (fun _ _ _ => true).

(** A process holding [failed_list] for [chat], mirrored on disk. *)
Definition state_with_ledger (chat : Z) (failed_list : list FailedItem) : State :=
  {| failed_downloads := {[chat := failed_list]};
     user_data := ∅; next_step := ∅;
     failed_lists := {[chat := failed_list_to_json failed_list]};
     files := ∅; trace := []; clock := 0 |}.

Definition message_from (chat : Z) (t : string) : Message :=
  {| chat_id := chat; from_user := chat; text := t |}.

(** Everything can be fetched and delivered. *)
Definition fetch_always (now : nat) (url : string) : option string :=
  Some ("downloads/" +:+ url).

Definition world_fine : Env := world fetch_always (fun _ _ _ => true).

(** Fetches work, no document gets through. *)
Definition world_no_delivery : Env := world fetch_always (fun _ _ _ => false).

(** A video that belongs to a playlist: the URL carries [list=] but not the
    word [playlist]. *)
Definition url_in_playlist : string :=
  "https://www.youtube.com/watch?v=abc&list=PL123".

Definition empty_state : State :=
  {| failed_downloads := ∅; user_data := ∅; next_step := ∅; failed_lists := ∅;
     files := ∅; trace := []; clock := 0 |}.

(** ** Runs of failed attempts

    The state in which attempt number [first + k] of a single-video download
    starts when the [k] attempts before it, numbers [first] to
    [first + k - 1], all failed and none of them was the last one: each left
    its log line and nothing else.  [None] when one of them returned. *)
Fixpoint after_failed_video_attempts (env : Env) (chat : Z)
    (url format_choice : string) (first k : nat) (s : State) : option State :=
  match k with
  | 0 => Some s
  | S k' =>
      match video_attempt env chat url format_choice s with
      | Ok _ _ => None
      | Raise s1 =>
          after_failed_video_attempts env chat url format_choice (S first) k'
            (state_of (logging_error (LogVideoAttempt (first + 1)) s1))
      end
  end.

(** The same for the attempts on one item of a playlist. *)
Fixpoint after_failed_fetches (env : Env) (video_url format_choice : string)
    (first k : nat) (s : State) : option State :=
  match k with
  | 0 => Some s
  | S k' =>
      match fetch_artifact env video_url format_choice s with
      | Ok _ _ => None
      | Raise s1 =>
          after_failed_fetches env video_url format_choice (S first) k'
            (state_of (logging_error (LogPlaylistAttempt video_url (first + 1)) s1))
      end
  end.

(** [url_gone] cannot be fetched before the clock reaches [limit]. *)
Definition fetch_gone_until (limit : nat) (now : nat) (url : string)
    : option string :=
  if String.eqb url url_gone && (now <? limit)%nat then None
  else Some ("downloads/" +:+ url).

Definition world_recovering (limit : nat) : Env :=
  world (fetch_gone_until limit) (fun _ _ _ => true).

(** ** What the run for one chat may touch *)

(** Nothing that belongs to chat [c] has changed: its ledger, its ledger
    file, its stored URL, its pending handlers. *)
Definition untouched (c : Z) (s s' : State) : Prop :=
  failed_downloads s' !! c = failed_downloads s !! c
  ∧ failed_lists s' !! c = failed_lists s !! c
  ∧ user_data s' !! c = user_data s !! c
  ∧ next_step s' !! c = next_step s !! c.

(** The calls a run for [chat] may make: texts and documents go to [chat],
    an archive has at least one member. *)
Definition event_of_chat (chat : Z) (e : Event) : bool :=
  match e with
  | EvSendDocument c _ _ => bool_decide (c = chat)
  | EvSendMessage c _ _ => bool_decide (c = chat)
  | EvZip _ [] => false
  | _ => true
  end.

(** Only events that satisfy [P] were added to the trace. *)
Definition only_events (P : Event → bool) (s s' : State) : Prop :=
  ∃ ev, trace s' = trace s ++ ev ∧ forallb P ev = true.

(** A relation on states that respects everything the program does on
    behalf of [chat]. *)
Class LocalTo (chat : Z) (R : State → State → Prop) : Prop := {
  #[global] loc_refl :: Reflexive R;
  #[global] loc_trans :: Transitive R;
  loc_clock s n : R s (set_clock n s);
  loc_files s v : R s (set_files v s);
  loc_emit s e :
    event_of_chat chat e = true → R s (set_trace (trace s ++ [e]) s);
  loc_ledger s l :
    R s (set_failed_downloads (<[chat := l]> (failed_downloads s)) s);
  loc_disk s j : R s (set_failed_lists (<[chat := j]> (failed_lists s)) s);
  loc_user_data s u : R s (set_user_data (<[chat := u]> (user_data s)) s);
  loc_next_step s hs : R s (set_next_step (<[chat := hs]> (next_step s)) s);
  loc_next_step_delete s : R s (set_next_step (delete chat (next_step s)) s)
}.

(** A world like [world] in which every playlist URL resolves to
    [video_urls]. *)
Definition world_with_playlist (video_urls : list string)
    (fetch : nat → string → option string)
    (document_ok : nat → Z → string → bool) : Env :=
  {| youtube_download := fetch;
     download_left := fun _ _ => None;
     write_audiofile := fun _ _ => true;
     audiofile_left := fun _ _ => false;
     mp3_path_of := mp3_path;
     playlist_video_urls := fun _ _ => Some video_urls;
     zip_write_ok := fun _ _ => true;
     zip_left := fun _ _ => false;
     send_document_ok := document_ok;
     send_message_ok := fun _ _ => true;
     json_dump_ok := fun _ _ => true;
     json_dump_left := fun _ _ => None;
     remove_ok := fun _ _ => true;
     py_int := dec_int;
     extract_command := slash_command |}.

Definition url_playlist : string := "https://www.youtube.com/playlist?list=PL123".

(** The world works for [chat]: every fetch yields a file, every document
    gets through, every file that is there can be removed, and the audio
    file of a fetched video never takes the name of that video.  Nothing is
    said about the extraction itself. *)
Definition world_works (env : Env) (chat : Z) : Prop :=
  (∀ now url, is_Some (youtube_download env now url))
  ∧ (∀ now path, send_document_ok env now chat path = true)
  ∧ (∀ now path, remove_ok env now path = true)
  ∧ (∀ now url path,
       youtube_download env now url = Some path → mp3_path_of env path ≠ path).

(** A world in which no fetch works and no ledger file can be written to
    its end: every write of such a file breaks off after the file was
    opened. *)
Definition world_disk_full : Env :=
  {| youtube_download := fun _ _ => None;
     download_left := fun _ _ => None;
     write_audiofile := fun _ _ => true;
     audiofile_left := fun _ _ => false;
     mp3_path_of := mp3_path;
     playlist_video_urls := fun _ _ => None;
     zip_write_ok := fun _ _ => true;
     zip_left := fun _ _ => false;
     send_document_ok := fun _ _ _ => true;
     send_message_ok := fun _ _ => true;
     json_dump_ok := fun _ _ => false;
     json_dump_left := fun _ _ => Some JCut;
     remove_ok := fun _ _ => true;
     py_int := dec_int;
     extract_command := slash_command |}.

(** Everything can be fetched and delivered, and no file can be removed. *)
Definition world_locked : Env :=
  {| youtube_download := fetch_always;
     download_left := fun _ _ => None;
     write_audiofile := fun _ _ => true;
     audiofile_left := fun _ _ => false;
     mp3_path_of := mp3_path;
     playlist_video_urls := fun _ _ => None;
     zip_write_ok := fun _ _ => true;
     zip_left := fun _ _ => false;
     send_document_ok := fun _ _ _ => true;
     send_message_ok := fun _ _ => true;
     json_dump_ok := fun _ _ => true;
     json_dump_left := fun _ _ => None;
     remove_ok := fun _ _ => false;
     py_int := dec_int;
     extract_command := slash_command |}.

(** Every fetch yields a video file named after the URL. *)
Definition fetch_mp4 (now : nat) (url : string) : option string :=
  Some ("downloads/" +:+ url +:+ ".mp4").

Definition world_videos : Env := world fetch_mp4 (fun _ _ _ => true).

(** The state once a write that broke off has left its file, if it has. *)
Definition with_left_file (left : option string) (s : State) : State :=
  match left with
  | Some path => set_files ({[path]} ∪ files s) s
  | None => s
  end.

Fixpoint last_char (s : string) : option ascii :=
  match s with
  | EmptyString => None
  | String c EmptyString => Some c
  | String _ s' => last_char s'
  end.

(** ** The register of users ([src/user_manager.py])

    Class [UserContactManager], which the bot builds in its constructor and
    calls from [send_welcome].

    Conventions of the embedding.
    - The table [users] of [users.db] is the list of its rows in the order
      of their row ids; [None] is the database without the table.  The row
      id itself (column [user_id]) is left out: no statement of the program
      names it.
    - [INSERT OR REPLACE] first deletes the row that holds the same
      [telegram_id] (the column is [UNIQUE]) and then adds the new row, which
      gets the largest row id; the columns the statement does not name take
      their defaults ([NULL], and [0] for [consent_marketing] and
      [total_downloads]).
    - A method opens one connection and runs its statements in one
      transaction ([with sqlite3.connect(...) as conn]): either all of them
      are committed, or an exception leaves the table as it was.  One answer
      of the oracle [sqlite_ok] per method call says which.
    - The values of [extra_data] have the type of their column (a text or
      [None] for the text columns, a boolean for [consent_marketing]), as
      they have at the two calls in [handle_contact]; [True] is stored as
      [1].
    - [total_downloads] is the number the column holds: a 64-bit integer
      counted up by one from zero, and the float [2 ^ 63] once the count has
      left that range. *)

Module UserManager.

(** [telebot.types.User], as far as [save_user_contact] reads it. *)
Module User.
Record t : Type := {
  id : Z;
  username : option string;
  first_name : option string;
  last_name : option string;
  language_code : option string
}.
End User.

(** [telebot.types.Contact] *)
Module Contact.
Record t : Type := {
  phone_number : string
}.
End Contact.

Record Message : Type := {
  chat_id : Z;
  from_user : option User.t;
  contact : option Contact.t;
  text : option string
}.

(** One row of the table [users]. *)
Record Row : Type := {
  telegram_id : Z;
  username : option string;
  first_name : option string;
  last_name : option string;
  language_code : option string;
  phone_number : option string;
  email : option string;
  registration_date : string;
  last_interaction_date : string;
  consent_marketing : bool;
  total_downloads : Z;
  preferred_format : option string
}.

(** One item of the dict [extra_data]. *)
Inductive Item : Type :=
| PhoneNumber (value : option string)
| Email (value : option string)
| ConsentMarketing (value : bool)
| PreferredFormat (value : option string)
| OtherKey (key : string).         (* a key that is none of the four *)

Inductive Text : Type :=
| TConsentRequest                  (* with the two-button keyboard *)
| TThanks
| TNoProblem
| TMarketing (message : string).

Inductive LogEntry : Type :=
| LogSetupDatabase
| LogSaveUserContact
| LogIncrementDownloads
| LogHandleContact
| LogGetMarketingUsers
| LogSendMarketingMessage (user_id : Z).

Inductive Event : Type :=
| EvSendMessage (chat : Z) (text : Text) (delivered : bool)
| EvLog (entry : LogEntry).

Record State : Type := {
  users : option (list Row);       (* the table of users.db *)
  trace : list Event;
  clock : nat
}.

(** The world outside the repository, asked at the logical clock. *)
Record Env : Type := {
  (* datetime.now().isoformat() *)
  isoformat_now : nat → string;
  (* connect, execute, fetchall and commit raise nothing of their own *)
  sqlite_ok : nat → bool;
  send_message_ok : nat → Z → bool
}.

Definition set_users (v : option (list Row)) (s : State) : State :=
  {| users := v; trace := trace s; clock := clock s |}.

Definition emit (e : Event) (s : State) : State :=
  {| users := users s; trace := trace s ++ [e]; clock := clock s |}.

Definition tick (s : State) : nat * State :=
  (clock s, {| users := users s; trace := trace s; clock := S (clock s) |}).

Definition logging_error (entry : LogEntry) (s : State) : State :=
  emit (EvLog entry) s.

(** *** The statements *)

(** The row of [INSERT ... (telegram_id, username, first_name, last_name,
    language_code, registration_date, last_interaction_date)
    VALUES (user.id, ..., now, now)]. *)
Definition inserted_row (user : User.t) (now : string) : Row :=
  {| telegram_id := User.id user;
     username := User.username user;
     first_name := User.first_name user;
     last_name := User.last_name user;
     language_code := User.language_code user;
     phone_number := None;
     email := None;
     registration_date := now;
     last_interaction_date := now;
     consent_marketing := false;
     total_downloads := 0;
     preferred_format := None |}.

Definition insert_or_replace (user : User.t) (now : string) (rows : list Row) :
    list Row :=
  filter (λ r, telegram_id r ≠ User.id user) rows ++ [inserted_row user now].

(** [UPDATE users SET ... WHERE telegram_id = ?] *)
Definition update_where (id : Z) (set : Row → Row) (rows : list Row) : list Row :=
  (λ r, if bool_decide (telegram_id r = id) then set r else r) <$> rows.

(** [key in ['phone_number', 'email', 'consent_marketing', 'preferred_format']] *)
Definition is_update_field (item : Item) : bool :=
  match item with
  | OtherKey _ => false
  | _ => true
  end.

(** One [key = ?] of the [SET] clause, with its value. *)
Definition assign (r : Row) (item : Item) : Row :=
  match item with
  | PhoneNumber v =>
      {| telegram_id := telegram_id r; username := username r;
         first_name := first_name r; last_name := last_name r;
         language_code := language_code r; phone_number := v; email := email r;
         registration_date := registration_date r;
         last_interaction_date := last_interaction_date r;
         consent_marketing := consent_marketing r;
         total_downloads := total_downloads r;
         preferred_format := preferred_format r |}
  | Email v =>
      {| telegram_id := telegram_id r; username := username r;
         first_name := first_name r; last_name := last_name r;
         language_code := language_code r; phone_number := phone_number r;
         email := v; registration_date := registration_date r;
         last_interaction_date := last_interaction_date r;
         consent_marketing := consent_marketing r;
         total_downloads := total_downloads r;
         preferred_format := preferred_format r |}
  | ConsentMarketing v =>
      {| telegram_id := telegram_id r; username := username r;
         first_name := first_name r; last_name := last_name r;
         language_code := language_code r; phone_number := phone_number r;
         email := email r; registration_date := registration_date r;
         last_interaction_date := last_interaction_date r;
         consent_marketing := v;
         total_downloads := total_downloads r;
         preferred_format := preferred_format r |}
  | PreferredFormat v =>
      {| telegram_id := telegram_id r; username := username r;
         first_name := first_name r; last_name := last_name r;
         language_code := language_code r; phone_number := phone_number r;
         email := email r; registration_date := registration_date r;
         last_interaction_date := last_interaction_date r;
         consent_marketing := consent_marketing r;
         total_downloads := total_downloads r;
         preferred_format := v |}
  | OtherKey _ => r
  end.

(** [total_downloads + 1]: the sum of 64-bit integers, and past the largest
    one the float SQLite goes on with, [2 ^ 63], which no longer moves when 1
    is added to it. *)
Definition plus_one (n : Z) : Z :=
  if bool_decide (n < 2 ^ 63)%Z then (n + 1)%Z else n.

(** [SET total_downloads = total_downloads + 1, last_interaction_date = ?] *)
Definition count_download (now : string) (r : Row) : Row :=
  {| telegram_id := telegram_id r; username := username r;
     first_name := first_name r; last_name := last_name r;
     language_code := language_code r; phone_number := phone_number r;
     email := email r; registration_date := registration_date r;
     last_interaction_date := now;
     consent_marketing := consent_marketing r;
     total_downloads := plus_one (total_downloads r);
     preferred_format := preferred_format r |}.

(** [SELECT telegram_id FROM users
     WHERE consent_marketing = 1 AND total_downloads >= ?] *)
Definition select_marketing (min_downloads : Z) (rows : list Row) : list Z :=
  telegram_id
    <$> filter (λ r, consent_marketing r = true ∧ (min_downloads ≤ total_downloads r)%Z)
          rows.

(** *** The methods *)

Section Manager.

Context (env : Env).

(** [bot.send_message(chat_id, text, ...)]; [false] is the exception of a
    call that fails. *)
Definition send_message (chat : Z) (t : Text) (s : State) : bool * State :=
  let '(now, s) := tick s in
  let ok := send_message_ok env now chat in
  (ok, emit (EvSendMessage chat t ok) s).

(** [setup_database] (lines 18-44): [CREATE TABLE IF NOT EXISTS users]. *)
Definition setup_database (s : State) : State :=
  let '(now, s) := tick s in
  if sqlite_ok env now then
    match users s with
    | Some _ => s
    | None => set_users (Some []) s
    end
  else logging_error LogSetupDatabase s.

(** [__init__] (lines 9-16) *)
Definition init (s : State) : State := setup_database s.

(** [save_user_contact] (lines 46-99).  [user] is [None] for a message
    without sender: [user.id] then raises inside the [try]. *)
Definition save_user_contact (user : option User.t)
    (extra_data : option (list Item)) (s : State) : bool * State :=
  let '(now, s) := tick s in
  match users s, user with
  | Some rows, Some user =>
      if sqlite_ok env now then
        let rows := insert_or_replace user (isoformat_now env now) rows in
        let rows :=
          match extra_data with
          | Some ((_ :: _) as items) =>
              let update_fields := filter is_update_field items in
              match update_fields with
              | _ :: _ =>
                  update_where (User.id user)
                    (λ r, foldl assign r update_fields) rows
              | [] => rows
              end
          | _ => rows
          end in
        (true, set_users (Some rows) s)
      else (false, logging_error LogSaveUserContact s)
  | _, _ => (false, logging_error LogSaveUserContact s)
  end.

(** [increment_downloads] (lines 101-118) *)
Definition increment_downloads (user_id : Z) (s : State) : State :=
  let '(now, s) := tick s in
  match users s with
  | Some rows =>
      if sqlite_ok env now then
        set_users
          (Some (update_where user_id (count_download (isoformat_now env now)) rows))
          s
      else logging_error LogIncrementDownloads s
  | None => logging_error LogIncrementDownloads s
  end.

(** [request_contact] (lines 120-145); [false] is the exception of the
    send, which nothing catches here. *)
Definition request_contact (message : Message) (s : State) : bool * State :=
  send_message (chat_id message) TConsentRequest s.

(** [handle_contact] (lines 147-185) *)
Definition handle_contact (message : Message) (s : State) : State :=
  match contact message with
  | Some c =>
      let extra_data :=
        [PhoneNumber (Some (Contact.phone_number c)); ConsentMarketing true] in
      let '(_, s) := save_user_contact (from_user message) (Some extra_data) s in
      let '(ok, s) := send_message (chat_id message) TThanks s in
      if ok then s else logging_error LogHandleContact s
  | None =>
      if bool_decide (text message = Some "Não, obrigado") then
        let '(_, s) :=
          save_user_contact (from_user message) (Some [ConsentMarketing false]) s in
        let '(ok, s) := send_message (chat_id message) TNoProblem s in
        if ok then s else logging_error LogHandleContact s
      else s
  end.

(** [get_marketing_users] (lines 187-206) *)
Definition get_marketing_users (min_downloads : Z) (s : State) : list Z * State :=
  let '(now, s) := tick s in
  match users s with
  | Some rows =>
      if sqlite_ok env now then (select_marketing min_downloads rows, s)
      else ([], logging_error LogGetMarketingUsers s)
  | None => ([], logging_error LogGetMarketingUsers s)
  end.

(** The loop of [send_marketing_message]: one guarded send per user. *)
Definition send_to_each (message : string) (target_users : list Z) (s : State) :
    State :=
  foldl
    (λ s user_id,
       let '(ok, s) := send_message user_id (TMarketing message) s in
       if ok then s else logging_error (LogSendMarketingMessage user_id) s)
    s target_users.

(** [send_marketing_message] (lines 208-223); [None] and the empty list are
    the two values [not target_users] holds for. *)
Definition send_marketing_message (message : string)
    (target_users : option (list Z)) (s : State) : State :=
  match target_users with
  | Some ((_ :: _) as target_users) => send_to_each message target_users s
  | _ =>
      let '(target_users, s) := get_marketing_users 1 s in
      send_to_each message target_users s
  end.

End Manager.

(** *** Observations *)

Definition table (s : State) : list Row := default [] (users s).

(** The rows of one user, and those of everybody else. *)
Definition rows_of (id : Z) (s : State) : list Row :=
  filter (λ r, telegram_id r = id) (table s).

Definition rows_of_others (id : Z) (s : State) : list Row :=
  filter (λ r, telegram_id r ≠ id) (table s).

(** The chats a run has tried to write to, in order. *)
Definition recipients (events : list Event) : list Z :=
  omap (λ e, match e with
             | EvSendMessage chat _ _ => Some chat
             | EvLog _ => None
             end) events.

Definition events_since (s s' : State) : list Event :=
  drop (length (trace s)) (trace s').

(** [increment_downloads] called [k] times for the same user. *)
Fixpoint downloads (env : Env) (k : nat) (user_id : Z) (s : State) : State :=
  match k with
  | 0 => s
  | S k => downloads env k user_id (increment_downloads env user_id s)
  end.

(** Sample worlds and values, for the concrete runs. *)
Definition database_works : Env :=
  {| isoformat_now := λ now, "2024-05-01T12:00:0" +:+ pretty now;
     sqlite_ok := λ _, true;
     send_message_ok := λ _ _, true |}.

Definition ana : User.t :=
  {| User.id := 7; User.username := Some "ana"; User.first_name := Some "Ana";
     User.last_name := None; User.language_code := Some "pt" |}.

Definition ana_known : Row :=
  {| telegram_id := 7; username := Some "ana"; first_name := Some "Ana";
     last_name := None; language_code := Some "pt";
     phone_number := Some "+5511999990000"; email := None;
     registration_date := "2023-01-01T00:00:00";
     last_interaction_date := "2024-04-30T00:00:00";
     consent_marketing := true; total_downloads := 12;
     preferred_format := None |}.

Definition rui_known : Row :=
  {| telegram_id := 8; username := None; first_name := Some "Rui";
     last_name := None; language_code := None;
     phone_number := Some "+5511888880000"; email := None;
     registration_date := "2023-02-01T00:00:00";
     last_interaction_date := "2024-04-29T00:00:00";
     consent_marketing := true; total_downloads := 3;
     preferred_format := None |}.

Definition two_users : State :=
  {| users := Some [ana_known; rui_known]; trace := []; clock := 0 |}.

Definition shares_contact : Message :=
  {| chat_id := 7; from_user := Some ana;
     contact := Some {| Contact.phone_number := "+5511999990000" |};
     text := None |}.

Definition declines : Message :=
  {| chat_id := 7; from_user := Some ana; contact := None;
     text := Some "Não, obrigado" |}.

Definition database_down : Env :=
  {| isoformat_now := λ _, "2024-05-01T12:00:00";
     sqlite_ok := λ _, false;
     send_message_ok := λ _ _, true |}.

End UserManager.

(* ================================================================== *)
(** * Properties *)

Section Steps.

Context (R : State → State → Prop) `{!Reflexive R} `{!Transitive R}.

Lemma steps_ret {A} (a : A) : steps R (ret a).
Proof. intros s. simpl. reflexivity. Qed.

Lemma steps_raise {A} : steps R (@raise A).
Proof. intros s. simpl. reflexivity. Qed.

Lemma steps_get : steps R get.
Proof. intros s. simpl. reflexivity. Qed.

Lemma steps_modify f : (∀ s, R s (f s)) → steps R (modify f).
Proof. intros H s. apply H. Qed.

Lemma steps_bind {A B} (m : M A) (k : A → M B) :
  steps R m → (∀ a, steps R (k a)) → steps R (bind m k).
Proof.
  intros Hm Hk s. unfold bind. specialize (Hm s).
  destruct (m s) as [a s'|s']; simpl in *; [|done].
  etrans; [exact Hm|apply Hk].
Qed.

Lemma steps_try_except {A} (body handler : M A) :
  steps R body → steps R handler → steps R (try_except body handler).
Proof.
  intros Hb Hh s. unfold try_except. specialize (Hb s).
  destruct (body s) as [a s'|s']; simpl in *; [done|].
  etrans; [exact Hb|apply Hh].
Qed.

Lemma steps_for_each {A} (f : A → M unit) (l : list A) :
  (∀ x, steps R (f x)) → steps R (for_each f l).
Proof.
  intros Hf. induction l as [|x l IH]; simpl.
  - apply steps_ret.
  - apply steps_bind; [apply Hf|intros _; exact IH].
Qed.

End Steps.

(** Decomposes a goal [steps R m] along the structure of [m]; what is left
    are the state updates at the leaves. *)
Ltac steps_split :=
  repeat lazymatch goal with
    | |- steps _ (ret _) => apply steps_ret; apply _
    | |- steps _ raise => apply steps_raise; apply _
    | |- steps _ get => apply steps_get; apply _
    | |- steps _ (try_except _ _) => apply steps_try_except; [apply _| |]
    | |- steps _ (bind _ _) => apply steps_bind; [apply _| |intros ?]
    | |- steps _ (for_each _ _) => apply steps_for_each; [apply _|apply _|intros ?]
    | |- steps _ (modify _) => apply steps_modify; intros ?; cbv beta
    | |- steps _ (if ?b then _ else _) => destruct b
    | |- steps _ (match ?x with _ => _ end) => destruct x
    end.

Section TolerantSteps.

Context (R : State → State → Prop) `{!Tolerant R}.
Context (env : Env).

Lemma steps_tick : steps R tick.
Proof. intros s. apply tol_clock. Qed.

Lemma steps_emit e :
  is_fetch e = false → is_document e = false → steps R (emit e).
Proof. intros He Hd s. by apply tol_emit. Qed.

Lemma steps_logging_error entry : steps R (logging_error entry).
Proof. by apply steps_emit. Qed.

Lemma steps_create_file path : steps R (create_file path).
Proof. intros s. apply tol_files. Qed.

Lemma steps_send_message chat t : steps R (send_message env chat t).
Proof.
  unfold send_message. steps_split; [apply steps_tick|by apply steps_emit].
Qed.

Lemma steps_os_remove path : steps R (os_remove env path).
Proof.
  unfold os_remove. steps_split;
    [apply steps_tick|by apply steps_emit|apply tol_files].
Qed.

Lemma steps_convert_to_mp3 path : steps R (convert_to_mp3 env path).
Proof.
  unfold convert_to_mp3. steps_split;
    auto using steps_tick, steps_emit, steps_create_file, steps_os_remove,
      steps_logging_error.
Qed.

Lemma steps_save_failed_list chat : steps R (save_failed_list env chat).
Proof.
  unfold save_failed_list. steps_split;
    auto using steps_tick, steps_logging_error.
  all: apply tol_failed_lists.
Qed.

Lemma steps_ensure_ledger chat : steps R (ensure_ledger chat).
Proof.
  unfold ensure_ledger. steps_split.
  destruct (failed_downloads s !! chat) eqn:E; [reflexivity|].
  by apply tol_ensure.
Qed.

Section Fetch.

Context `{!ToleratesFetch R}.

Lemma steps_youtube_fetch url : steps R (youtube_fetch env url).
Proof.
  unfold youtube_fetch. steps_split; auto using steps_tick, steps_create_file.
  all: intros s; apply tol_fetch.
Qed.

Lemma steps_fetch_artifact url format_choice :
  steps R (fetch_artifact env url format_choice).
Proof.
  unfold fetch_artifact. steps_split;
    auto using steps_youtube_fetch, steps_convert_to_mp3.
Qed.

Lemma steps_playlist_attempts video_url format_choice n remaining dl failed :
  steps R (playlist_attempts env video_url format_choice n remaining dl failed).
Proof.
  revert failed.
  induction remaining as [|remaining IH]; intros failed; simpl; steps_split;
    auto using steps_fetch_artifact, steps_logging_error.
Qed.

Lemma steps_playlist_loop video_urls format_choice n dl failed :
  steps R (playlist_loop env video_urls format_choice n dl failed).
Proof.
  revert dl failed.
  induction video_urls as [|u rest IH]; intros dl failed; simpl; steps_split;
    auto using steps_playlist_attempts.
Qed.

End Fetch.

Section Document.

Context `{!ToleratesDocument R}.

Lemma steps_send_document chat path : steps R (send_document env chat path).
Proof.
  unfold send_document. steps_split; [apply steps_tick|].
  intros s. apply tol_document.
Qed.

Lemma steps_video_attempt `{!ToleratesFetch R} chat url format_choice :
  steps R (video_attempt env chat url format_choice).
Proof.
  unfold video_attempt. steps_split;
    auto using steps_fetch_artifact, steps_send_document, steps_os_remove.
Qed.

End Document.

Section Extend.

Context `{!ToleratesExtend R}.

Lemma steps_ledger_extend chat items : steps R (ledger_extend chat items).
Proof. unfold ledger_extend. steps_split. apply tol_extend. Qed.

Lemma steps_track_failed_video chat url format_choice n :
  steps R (track_failed_video env chat url format_choice n).
Proof.
  unfold track_failed_video. steps_split;
    auto using steps_send_message, steps_ensure_ledger, steps_ledger_extend,
      steps_save_failed_list.
Qed.

Lemma steps_track_failed_videos chat failed_videos :
  steps R (track_failed_videos env chat failed_videos).
Proof.
  unfold track_failed_videos. steps_split;
    auto using steps_send_message, steps_ensure_ledger, steps_ledger_extend,
      steps_save_failed_list.
Qed.

End Extend.

Context `{!ToleratesFetch R, !ToleratesDocument R, !ToleratesExtend R}.

Lemma steps_video_attempts chat url format_choice n remaining :
  steps R (video_attempts env chat url format_choice n remaining).
Proof.
  induction remaining as [|remaining IH]; simpl; steps_split;
    auto using steps_video_attempt, steps_logging_error,
      steps_track_failed_video.
Qed.

Lemma steps_download_video chat url format_choice n :
  steps R (download_video env chat url format_choice n).
Proof. apply steps_video_attempts. Qed.

Lemma steps_download_playlist chat url format_choice n :
  steps R (download_playlist env chat url format_choice n).
Proof.
  unfold download_playlist, write_zip, resolve_playlist. steps_split;
    auto using steps_tick, steps_emit, steps_create_file, steps_playlist_loop,
      steps_send_document, steps_os_remove, steps_send_message,
      steps_track_failed_videos, steps_logging_error.
Qed.

Lemma steps_download as_playlist chat url format_choice :
  steps R (download env as_playlist chat url format_choice).
Proof.
  unfold download. steps_split;
    auto using steps_download_playlist, steps_download_video.
Qed.

End TolerantSteps.

(** *** The three relations used below *)

Global Instance ledger_grows_tolerant : Tolerant ledger_grows.
Proof.
  split.
  - intros s chat. reflexivity.
  - intros s1 s2 s3 H1 H2 chat. etrans; [apply H1|apply H2].
  - intros s n chat. reflexivity.
  - intros s v chat. reflexivity.
  - intros s v chat. reflexivity.
  - intros s e _ _ chat. reflexivity.
  - intros s chat E c. unfold ledger at 2. simpl.
    destruct (decide (chat = c)) as [->|Hne].
    + rewrite lookup_insert_eq. unfold ledger. by rewrite E.
    + by rewrite lookup_insert_ne.
Qed.

Global Instance ledger_grows_fetch : ToleratesFetch ledger_grows.
Proof. intros s url chat. reflexivity. Qed.

Global Instance ledger_grows_document : ToleratesDocument ledger_grows.
Proof. intros s chat path ok c. reflexivity. Qed.

Global Instance ledger_grows_extend : ToleratesExtend ledger_grows.
Proof.
  intros s chat items c. unfold ledger at 2. simpl.
  destruct (decide (chat = c)) as [->|Hne].
  - rewrite lookup_insert_eq. simpl. by apply prefix_app_r.
  - by rewrite lookup_insert_ne.
Qed.

Global Instance same_ledgers_tolerant : Tolerant same_ledgers.
Proof.
  split.
  - intros s chat. reflexivity.
  - intros s1 s2 s3 H1 H2 chat. by rewrite H2, H1.
  - intros s n chat. reflexivity.
  - intros s v chat. reflexivity.
  - intros s v chat. reflexivity.
  - intros s e _ _ chat. reflexivity.
  - intros s chat E c. unfold ledger. simpl.
    destruct (decide (chat = c)) as [->|Hne].
    + by rewrite lookup_insert_eq, E.
    + by rewrite lookup_insert_ne.
Qed.

Global Instance same_ledgers_fetch : ToleratesFetch same_ledgers.
Proof. intros s url chat. reflexivity. Qed.

Global Instance same_ledgers_document : ToleratesDocument same_ledgers.
Proof. intros s chat path ok c. reflexivity. Qed.

Global Instance trace_grows_tolerant : Tolerant trace_grows.
Proof.
  split; unfold trace_grows.
  - intros s. reflexivity.
  - intros s1 s2 s3 H1 H2. by etrans.
  - intros s n. reflexivity.
  - intros s v. reflexivity.
  - intros s v. reflexivity.
  - intros s e _ _. simpl. by apply prefix_app_r.
  - intros s chat _. reflexivity.
Qed.

Global Instance trace_grows_fetch : ToleratesFetch trace_grows.
Proof. intros s url. unfold trace_grows. simpl. by apply prefix_app_r. Qed.

Global Instance trace_grows_document : ToleratesDocument trace_grows.
Proof. intros s chat path ok. unfold trace_grows. simpl. by apply prefix_app_r. Qed.

Global Instance trace_grows_extend : ToleratesExtend trace_grows.
Proof. intros s chat items. unfold trace_grows. reflexivity. Qed.

Lemma fetches_app tr1 tr2 : fetches (tr1 ++ tr2) = fetches tr1 + fetches tr2.
Proof. unfold fetches. by rewrite filter_app, length_app. Qed.

Global Instance same_fetches_tolerant : Tolerant same_fetches.
Proof.
  split; unfold same_fetches.
  - intros s. reflexivity.
  - intros s1 s2 s3 H1 H2. congruence.
  - intros s n. reflexivity.
  - intros s v. reflexivity.
  - intros s v. reflexivity.
  - intros s e He _. simpl. rewrite fetches_app. unfold fetches at 2.
    rewrite filter_cons. destruct (decide (is_fetch e)) as [Hf|_]; [|simpl; lia].
    rewrite He in Hf. done.
  - intros s chat _. reflexivity.
Qed.

Global Instance same_fetches_document : ToleratesDocument same_fetches.
Proof.
  intros s chat path ok. unfold same_fetches. simpl. rewrite fetches_app.
  change (fetches [EvSendDocument chat path ok]) with 0. lia.
Qed.

Global Instance same_fetches_extend : ToleratesExtend same_fetches.
Proof. intros s chat items. unfold same_fetches. reflexivity. Qed.

Lemma delivered_app chat tr1 tr2 :
  delivered chat (tr1 ++ tr2) = delivered chat tr1 || delivered chat tr2.
Proof. unfold delivered. apply existsb_app. Qed.

Global Instance no_delivery_tolerant chat : Tolerant (no_delivery chat).
Proof.
  assert (∀ s s', trace s' = trace s → no_delivery chat s s') as Hsame.
  { intros s s' E. exists []. by rewrite E, app_nil_r. }
  split.
  - intros s. by apply Hsame.
  - intros s1 s2 s3 (ev1 & E1 & H1) (ev2 & E2 & H2). exists (ev1 ++ ev2).
    split; [by rewrite E2, E1, app_assoc|].
    by rewrite delivered_app, H1, H2.
  - intros s n. by apply Hsame.
  - intros s v. by apply Hsame.
  - intros s v. by apply Hsame.
  - intros s e _ Hd. exists [e]. split; [done|]. by destruct e.
  - intros s c _. by apply Hsame.
Qed.

Global Instance no_delivery_fetch chat : ToleratesFetch (no_delivery chat).
Proof. intros s url. by exists [EvYouTube url]. Qed.

Global Instance no_delivery_extend chat : ToleratesExtend (no_delivery chat).
Proof. intros s c items. exists []. by rewrite app_nil_r. Qed.

(** *** Runs that let no exception out *)

Lemma never_raises_ret {A} (a : A) : never_raises (ret a).
Proof. done. Qed.

Lemma never_raises_get : never_raises get.
Proof. done. Qed.

Lemma never_raises_modify f : never_raises (modify f).
Proof. done. Qed.

Lemma never_raises_tick : never_raises tick.
Proof. done. Qed.

Lemma never_raises_emit e : never_raises (emit e).
Proof. done. Qed.

Lemma never_raises_bind {A B} (m : M A) (k : A → M B) :
  never_raises m → (∀ a, never_raises (k a)) → never_raises (bind m k).
Proof.
  intros Hm Hk s. unfold bind. specialize (Hm s).
  destruct (m s) as [a s'|s']; [apply Hk|done].
Qed.

Lemma never_raises_try_except {A} (body handler : M A) :
  never_raises handler → never_raises (try_except body handler).
Proof.
  intros Hh s. unfold try_except. destruct (body s); [done|apply Hh].
Qed.

Lemma never_raises_Ok {A} (m : M A) s :
  never_raises m → ∃ a s', m s = Ok a s'.
Proof. intros H. specialize (H s). destruct (m s); [eauto|done]. Qed.

Ltac nr_split :=
  repeat lazymatch goal with
    | |- never_raises (ret _) => apply never_raises_ret
    | |- never_raises (bind _ _) => apply never_raises_bind; [|intros ?]
    | |- never_raises (try_except _ _) => apply never_raises_try_except
    | |- never_raises (if ?b then _ else _) => destruct b
    end.

Section NeverRaises.

Context (env : Env) (chat : Z) (Htext : reliable_text env chat).

Lemma never_raises_send_message t : never_raises (send_message env chat t).
Proof.
  intros s. unfold send_message, bind, tick, emit, modify. simpl.
  rewrite Htext. reflexivity.
Qed.

Lemma never_raises_save_failed_list : never_raises (save_failed_list env chat).
Proof. apply never_raises_try_except. intros s. reflexivity. Qed.

Lemma never_raises_track_failed_video url format_choice n :
  never_raises (track_failed_video env chat url format_choice n).
Proof.
  unfold track_failed_video. nr_split.
  - apply never_raises_send_message.
  - intros s. reflexivity.
  - intros s. reflexivity.
  - apply never_raises_save_failed_list.
Qed.

Lemma never_raises_video_attempts url format_choice n remaining :
  never_raises (video_attempts env chat url format_choice n remaining).
Proof.
  induction remaining as [|remaining IH]; simpl; nr_split; try exact IH.
  - intros s. reflexivity.
  - apply never_raises_track_failed_video.
Qed.

Lemma never_raises_download_video url format_choice n :
  never_raises (download_video env chat url format_choice n).
Proof. apply never_raises_video_attempts. Qed.

Lemma never_raises_download_playlist url format_choice n :
  never_raises (download_playlist env chat url format_choice n).
Proof.
  unfold download_playlist. nr_split.
  - intros s. reflexivity.
  - apply never_raises_send_message.
Qed.

Lemma never_raises_download as_playlist url format_choice :
  never_raises (download env as_playlist chat url format_choice).
Proof.
  destruct as_playlist; simpl;
    [apply never_raises_download_playlist|apply never_raises_download_video].
Qed.

End NeverRaises.

(** *** Failed single-video downloads *)

Lemma run_quiet {A} (m : M A) s :
  never_raises m → steps same_ledgers m → steps same_fetches m →
  ∃ a s', m s = Ok a s' ∧ same_ledgers s s' ∧ same_fetches s s'.
Proof.
  intros Hn Hl Hf. destruct (never_raises_Ok m s Hn) as (a & s' & E).
  exists a, s'. specialize (Hl s). specialize (Hf s). rewrite E in Hl, Hf. done.
Qed.

Lemma ledger_extend_spec chat items s :
  ledger (state_of (ledger_extend chat items s)) chat = ledger s chat ++ items.
Proof. unfold ledger at 1. simpl. by rewrite lookup_insert_eq. Qed.

Lemma with_left_file_same left s :
  failed_downloads (with_left_file left s) = failed_downloads s
  ∧ failed_lists (with_left_file left s) = failed_lists s
  ∧ user_data (with_left_file left s) = user_data s
  ∧ next_step (with_left_file left s) = next_step s
  ∧ trace (with_left_file left s) = trace s
  ∧ clock (with_left_file left s) = clock s.
Proof. by destruct left. Qed.

Lemma ledger_with_left_file left s chat :
  ledger (with_left_file left s) chat = ledger s chat.
Proof. by destruct left. Qed.

Lemma trace_with_left_file left s : trace (with_left_file left s) = trace s.
Proof. by destruct left. Qed.

Lemma video_attempt_fetch_fails env chat url format_choice s :
  youtube_download env (clock s) url = None →
  video_attempt env chat url format_choice s
  = Raise (with_left_file (download_left env (clock s) url)
             (set_trace (trace s ++ [EvYouTube url]) (set_clock (S (clock s)) s))).
Proof.
  intros H. unfold video_attempt, fetch_artifact, youtube_fetch, bind, tick, emit,
    modify. simpl. rewrite H. by destruct (download_left env (clock s) url).
Qed.

Section Exhaust.

Context (env : Env) (chat : Z) (Htext : reliable_text env chat).

Lemma track_failed_video_spec url format_choice n s :
  ∃ s', track_failed_video env chat url format_choice n s = Ok tt s'
        ∧ ledger s' chat = ledger s chat ++ [(url, format_choice)]
        ∧ same_fetches s s'.
Proof.
  unfold track_failed_video, bind.
  destruct (run_quiet (send_message env chat (TFailedAfter n)) s)
    as ([] & s1 & -> & Hl1 & Hf1);
    [by apply never_raises_send_message|apply steps_send_message; apply _
    |apply steps_send_message; apply _|].
  destruct (run_quiet (ensure_ledger chat) s1) as ([] & s2 & -> & Hl2 & Hf2);
    [done|apply steps_ensure_ledger; apply _|apply steps_ensure_ledger; apply _|].
  pose proof (ledger_extend_spec chat [(url, format_choice)] s2) as Hl3.
  pose proof (steps_ledger_extend same_fetches chat [(url, format_choice)] s2) as Hf3.
  destruct (ledger_extend chat [(url, format_choice)] s2) as [[] s3|s3] eqn:E3;
    [|done].
  simpl in Hl3, Hf3.
  destruct (run_quiet (save_failed_list env chat) s3) as ([] & s4 & -> & Hl4 & Hf4);
    [by apply never_raises_save_failed_list|apply steps_save_failed_list; apply _
    |apply steps_save_failed_list; apply _|].
  exists s4. split; [done|]. split.
  - by rewrite Hl4, Hl3, Hl2, Hl1.
  - unfold same_fetches in *. congruence.
Qed.

(** When every fetch of [url] fails, the remaining attempts are all made and
    the item is appended once, after the last one. *)
Lemma video_attempts_exhaust url format_choice n remaining s :
  (∀ now, youtube_download env now url = None) →
  0 < remaining ≤ n →
  ∃ s', video_attempts env chat url format_choice n remaining s = Ok tt s'
        ∧ ledger s' chat = ledger s chat ++ [(url, format_choice)]
        ∧ fetches (trace s') = fetches (trace s) + remaining.
Proof.
  intros Hfail. revert s.
  induction remaining as [|remaining IH]; intros s [Hpos Hle]; [lia|].
  simpl. unfold bind at 1, try_except, bind at 1.
  rewrite video_attempt_fetch_fails by apply Hfail.
  set (s1 := with_left_file _ _).
  unfold bind at 1. simpl.
  set (s2 := set_trace _ s1).
  assert (Hs2 : ledger s2 chat = ledger s chat
                ∧ fetches (trace s2) = fetches (trace s) + 1).
  { split.
    - subst s2 s1. unfold ledger at 1. simpl.
      by destruct (with_left_file_same (download_left env (clock s) url)
                     (set_trace (trace s ++ [EvYouTube url])
                        (set_clock (S (clock s)) s))) as (-> & _).
    - subst s2 s1. simpl. rewrite trace_with_left_file. simpl.
      rewrite !fetches_app.
      change (fetches [EvYouTube url]) with 1.
      change (fetches [EvLog _]) with 0. lia. }
  destruct Hs2 as [Hl2 Hf2]. clearbody s2. clear s1.
  unfold bind at 1.
  destruct (decide (remaining = 0)) as [->|Hne].
  - replace (n - 1 =? n - 1)%nat with true by (symmetry; apply Nat.eqb_refl).
    destruct (track_failed_video_spec url format_choice n s2)
      as (s3 & -> & Hl3 & Hf3).
    simpl. exists s3. split; [done|]. split.
    + by rewrite Hl3, Hl2.
    + unfold same_fetches in Hf3. lia.
  - replace (n - S remaining =? n - 1)%nat with false
      by (symmetry; apply Nat.eqb_neq; lia).
    simpl. destruct (IH s2) as (s3 & -> & Hl3 & Hf3); [lia|].
    exists s3. split; [done|]. split.
    + by rewrite Hl3, Hl2.
    + lia.
Qed.

Lemma download_video_exhaust url format_choice n s :
  (∀ now, youtube_download env now url = None) →
  0 < n →
  ∃ s', download_video env chat url format_choice n s = Ok tt s'
        ∧ ledger s' chat = ledger s chat ++ [(url, format_choice)]
        ∧ fetches (trace s') = fetches (trace s) + n.
Proof. intros Hfail Hn. apply video_attempts_exhaust; [done|lia]. Qed.

End Exhaust.

(** *** Retry-all *)

Lemma process_retry_selection_retry_all env fuel message s :
  text message = "Tentar Todos" →
  process_retry_selection env fuel message s
  = match retry_all_loop env fuel (chat_id message) 0 s with
    | None => None
    | Some (Ok _ s') =>
        Some (Ok tt (set_failed_downloads
                       (<[chat_id message := []]> (failed_downloads s')) s'))
    | Some (Raise s') => Some (retry_except env (chat_id message) s')
    end.
Proof. intros H. unfold process_retry_selection. by rewrite H. Qed.

Lemma retry_all_loop_ledger_grows env fuel chat i s r :
  retry_all_loop env fuel chat i s = Some r → ledger_grows s (state_of r).
Proof.
  revert i s. induction fuel as [|fuel IH]; intros i s; [done|]. simpl.
  destruct (ledger s chat !! i) as [[u f]|]; [|by intros [= <-]].
  pose proof (steps_download ledger_grows env (is_playlist_retry_all u) chat u f s)
    as Hg.
  destruct (download _ _ _ _ _ _) as [[] s'|s']; simpl in Hg.
  - intros H. etrans; [exact Hg|by eapply IH].
  - by intros [= <-].
Qed.

(** However a retry-all pass ends, it leaves the requester's ledger either
    empty or with everything it held before, in place. *)
Lemma retry_all_ledger env fuel message s r :
  text message = "Tentar Todos" →
  process_retry_selection env fuel message s = Some r →
  ledger (state_of r) (chat_id message) = []
  ∨ ledger s (chat_id message) `prefix_of` ledger (state_of r) (chat_id message).
Proof.
  intros Ht. rewrite process_retry_selection_retry_all by done.
  destruct (retry_all_loop _ _ _ _ _) as [[[] s1|s1]|] eqn:E; [| |done].
  - intros [= <-]. left. unfold ledger. simpl. by rewrite lookup_insert_eq.
  - intros [= <-]. right.
    apply retry_all_loop_ledger_grows in E. simpl in E.
    etrans; [apply E|].
    assert (steps ledger_grows (retry_except env (chat_id message))) as Hs.
    { unfold retry_except. steps_split;
        [apply steps_logging_error; apply _|apply steps_send_message; apply _]. }
    apply Hs.
Qed.

(** While some entry at or after position [i] is a single video whose fetch
    always fails, the loop does not come to an end: the failure is appended
    to the list being iterated, and will be reached again. *)
Lemma retry_all_loop_diverges env chat url format_choice :
  reliable_text env chat →
  (∀ now, youtube_download env now url = None) →
  is_playlist_retry_all url = false →
  ∀ fuel (i : nat) s,
    (∃ j : nat, (i ≤ j)%nat ∧ ledger s chat !! j = Some (url, format_choice)) →
    retry_all_loop env fuel chat i s = None.
Proof.
  intros Htext Hfail Hsingle.
  induction fuel as [|fuel IH]; intros i s (j & Hij & Hj); [done|].
  simpl.
  destruct (ledger s chat !! i) as [[u f]|] eqn:Hi.
  2: { apply lookup_ge_None in Hi. apply lookup_lt_Some in Hj. lia. }
  destruct (decide (i = j)) as [->|Hne].
  - rewrite Hj in Hi. injection Hi as <- <-. rewrite Hsingle. simpl.
    destruct (download_video_exhaust env chat Htext url format_choice 3 s)
      as (s' & -> & Hl & _); [done|lia|].
    apply IH. exists (length (ledger s chat)). split.
    + apply lookup_lt_Some in Hj. lia.
    + rewrite Hl. rewrite lookup_app_r by lia. by rewrite Nat.sub_diag.
  - pose proof (steps_download ledger_grows env (is_playlist_retry_all u) chat u f s)
      as Hg.
    destruct (never_raises_Ok _ s
                (never_raises_download env chat Htext (is_playlist_retry_all u) u f))
      as ([] & s' & E).
    rewrite E in Hg |- *. simpl in Hg.
    apply IH. exists j. split; [lia|].
    by apply (prefix_lookup_Some _ _ _ _ Hj).
Qed.

(** C1.  A ledger of two items, the first of which can now be fetched while
    the second never can, and the user picks "Tentar Todos": the pass over
    the ledger does not come to an end, whatever the fuel.  The claim's
    outcome, a ledger reduced to the still-failing item, is never reached
    (see also [retry_all_ledger]). *)
Theorem retry_all_with_failing_item_never_returns :
  ∀ fuel,
    process_retry_selection world_gone fuel (message_from 7 "Tentar Todos")
      (state_with_ledger 7 [(url_ok, "MP4"); (url_gone, "MP4")])
    = None.
Proof.
  intros fuel. rewrite process_retry_selection_retry_all by done.
  rewrite (retry_all_loop_diverges world_gone 7 url_gone "MP4"); [done|..].
  - intros now. reflexivity.
  - intros now. reflexivity.
  - reflexivity.
  - exists 1. split; [lia|reflexivity].
Qed.

(** When the failing item recovers while the pass is still running, the pass
    ends, and the ledger is then empty in memory while the file on disk
    lists three items. *)
Lemma retry_all_that_ends_clears_the_ledger :
  ∃ s',
    process_retry_selection (world_recovering 6) 10
      (message_from 7 "Tentar Todos")
      (state_with_ledger 7 [(url_ok, "MP4"); (url_gone, "MP4")])
    = Some (Ok tt s')
    ∧ ledger s' 7 = []
    ∧ fetches (trace s') = 5
    ∧ failed_lists s' !! 7%Z
      = Some (failed_list_to_json
                [(url_ok, "MP4"); (url_gone, "MP4"); (url_gone, "MP4")]).
Proof. eexists. split; [vm_compute; reflexivity|]. vm_compute. done. Qed.

(** *** Persistence *)

(** What [save_failed_list] leaves on disk when the write goes through. *)
Lemma save_failed_list_written env chat s :
  json_dump_ok env (clock s) chat = true →
  save_failed_list env chat s
  = Ok tt (set_failed_lists
             (<[chat := failed_list_to_json (ledger s chat)]> (failed_lists s))
             (set_clock (S (clock s)) s)).
Proof.
  intros H. unfold save_failed_list, try_except, bind, tick, modify. simpl.
  by rewrite H.
Qed.

(** The two places that add to a ledger, lines 277-289 and 356-367, write
    the requester's file afterwards: when the notice can be sent and the file
    can be written, the file holds the ledger as it then is. *)
Lemma tracked_items_are_persisted env chat t items s :
  reliable_text env chat →
  (∀ now, json_dump_ok env now chat = true) →
  ∃ s',
    (send_message env chat t ;; ensure_ledger chat ;;
     ledger_extend chat items ;; save_failed_list env chat) s = Ok tt s'
    ∧ ledger s' chat = ledger s chat ++ items
    ∧ failed_lists s' !! chat = Some (failed_list_to_json (ledger s' chat)).
Proof.
  intros Htext Hdump. unfold bind.
  destruct (run_quiet (send_message env chat t) s) as ([] & s1 & -> & Hl1 & _);
    [by apply never_raises_send_message|apply steps_send_message; apply _
    |apply steps_send_message; apply _|].
  destruct (run_quiet (ensure_ledger chat) s1) as ([] & s2 & -> & Hl2 & _);
    [done|apply steps_ensure_ledger; apply _|apply steps_ensure_ledger; apply _|].
  pose proof (ledger_extend_spec chat items s2) as Hl3.
  destruct (ledger_extend chat items s2) as [[] s3|s3] eqn:E3; [|done].
  simpl in Hl3. rewrite save_failed_list_written by apply Hdump.
  eexists. split; [done|]. simpl. rewrite lookup_insert_eq.
  change (ledger (set_failed_lists _ _) chat) with (ledger s3 chat).
  split; [by rewrite Hl3, Hl2, Hl1|done].
Qed.

Lemma failed_video_is_persisted env chat url format_choice n s :
  reliable_text env chat →
  (∀ now, json_dump_ok env now chat = true) →
  ∃ s',
    track_failed_video env chat url format_choice n s = Ok tt s'
    ∧ ledger s' chat = ledger s chat ++ [(url, format_choice)]
    ∧ failed_lists s' !! chat = Some (failed_list_to_json (ledger s' chat)).
Proof. apply tracked_items_are_persisted. Qed.

Lemma failed_videos_are_persisted env chat failed_videos s :
  reliable_text env chat →
  (∀ now, json_dump_ok env now chat = true) →
  ∃ s',
    track_failed_videos env chat failed_videos s = Ok tt s'
    ∧ ledger s' chat = ledger s chat ++ failed_videos
    ∧ failed_lists s' !! chat = Some (failed_list_to_json (ledger s' chat)).
Proof. apply tracked_items_are_persisted. Qed.

(** C2.  One recorded item, which the user selects for retry and which now
    downloads fine: the item leaves the in-memory ledger, and the file on
    disk still lists it, since nothing on this path calls
    [save_failed_list]. *)
Theorem removal_by_index_is_not_persisted :
  let s := state_with_ledger 7 [(url_ok, "MP4")] in
  let r := process_specific_retry world_fine (message_from 7 "1") s in
  raised r = false
  ∧ failed_downloads (state_of r) !! 7%Z = Some []
  ∧ failed_lists (state_of r) !! 7%Z
    = Some (failed_list_to_json [(url_ok, "MP4")]).
Proof. vm_compute. done. Qed.

(** C3, as stated, fails: a ledger written to disk and a restart of the
    process give an empty ledger, not the one written. *)
Lemma restart_forgets_saved_ledger :
  let s := state_with_ledger 7 [(url_gone, "MP4")] in
  let saved := state_of (save_failed_list world_gone 7 s) in
  ledger saved 7 = [(url_gone, "MP4")]
  ∧ ledger (init saved) 7 ≠ ledger saved 7.
Proof. vm_compute. split; [done|]. discriminate. Qed.

(** C3, amended.  When the write goes through, the requester's file holds
    the ledger items in order, each as the array [[url, format]]; a restart
    leaves the files as they are and begins with an empty ledger for every
    requester. *)
Theorem save_then_restart env chat s :
  json_dump_ok env (clock s) chat = true →
  let saved := state_of (save_failed_list env chat s) in
  failed_lists saved !! chat
  = Some (JArr ((fun it => JArr [JStr it.1; JStr it.2]) <$> ledger s chat))
  ∧ ledger saved chat = ledger s chat
  ∧ failed_lists (init saved) = failed_lists saved
  ∧ ∀ c, ledger (init saved) c = [].
Proof.
  intros H saved. subst saved. rewrite save_failed_list_written by done. simpl.
  rewrite lookup_insert_eq. done.
Qed.

Lemma save_then_restart_witness :
  json_dump_ok world_gone (clock (state_with_ledger 7 [(url_gone, "MP4")])) 7 = true
  ∧ failed_lists
      (state_of (save_failed_list world_gone 7
                   (state_with_ledger 7 [(url_gone, "MP4")]))) !! 7%Z
    = Some (JArr [JArr [JStr url_gone; JStr "MP4"]]).
Proof.
  split; [reflexivity|].
  apply (save_then_restart world_gone 7 (state_with_ledger 7 [(url_gone, "MP4")])).
  reflexivity.
Defined.

(** *** Dispatch between playlist and single video *)

(** C8.  For a video URL that carries a [list=] parameter, format selection
    and retry-all take the playlist download, the retry of selected items
    takes the single-video download: the first call made for the same URL
    is [Playlist(url)] on one path and [YouTube(url)] on the other. *)
Theorem playlist_test_differs_between_sites :
  is_playlist_format_selection url_in_playlist = true
  ∧ is_playlist_retry_all url_in_playlist = true
  ∧ is_playlist_specific_retry url_in_playlist = false
  ∧ head (trace (state_of
        (process_format_selection world_fine (message_from 7 "mp4")
           (set_user_data {[7%Z := url_in_playlist]} empty_state))))
    = Some (EvPlaylist url_in_playlist)
  ∧ head (trace (state_of
        (process_specific_retry world_fine (message_from 7 "1")
           (state_with_ledger 7 [(url_in_playlist, "MP4")]))))
    = Some (EvYouTube url_in_playlist).
Proof. vm_compute. done. Qed.

(** *** Duplicates in the ledger *)

Lemma new_events_app s s' ev : trace s' = trace s ++ ev → new_events s s' = ev.
Proof. intros H. unfold new_events. rewrite H. by rewrite drop_app_length. Qed.

Lemma ledger_nonempty_lookup s chat :
  ledger s chat ≠ [] → failed_downloads s !! chat = Some (ledger s chat).
Proof. unfold ledger. by destruct (failed_downloads s !! chat). Qed.

(** What [/retry] shows for a non-empty ledger: every recorded item, in
    order, numbered from 1. *)
Lemma handle_retry_shows_ledger env message s :
  reliable_text env (chat_id message) →
  ledger s (chat_id message) ≠ [] →
  new_events s (state_of (handle_retry env message s))
  = [EvSendMessage (chat_id message)
       (TRetryOptions (enumerate1 (ledger s (chat_id message)))) true].
Proof.
  intros Htext Hne. apply new_events_app.
  unfold handle_retry, bind, get. simpl.
  rewrite (ledger_nonempty_lookup _ _ Hne).
  destruct (ledger s (chat_id message)) as [|it l] eqn:E; [done|].
  unfold send_message, bind, tick, emit, modify. simpl. rewrite Htext. done.
Qed.




(** *** Messages that are neither a URL nor a command *)

(** C10, as stated, fails: after a URL was sent, the reply "MP4" contains
    no YouTube host and is no command, and the bot answers it with the
    download. *)
Lemma format_reply_is_answered :
  let m := message_from 7 "MP4" in
  contains "youtube.com" (text m) = false
  ∧ contains "youtu.be" (text m) = false
  ∧ extract_command world_fine (text m) = None
  ∧ ∃ s1 s2,
      process_new_message world_fine 1 (message_from 7 url_ok) empty_state
      = Some (Ok tt s1)
      ∧ process_new_message world_fine 1 m s1 = Some (Ok tt s2)
      ∧ new_events s1 s2
        = [EvYouTube url_ok; EvSendDocument 7 ("downloads/" +:+ url_ok) true;
           EvRemove ("downloads/" +:+ url_ok)]
      ∧ user_data s1 !! 7%Z = Some url_ok.
Proof.
  intros m. do 3 (split; [reflexivity|]).
  eexists. eexists. split; [vm_compute; reflexivity|].
  split; [vm_compute; reflexivity|].
  split; vm_compute; reflexivity.
Qed.

(** C10, amended.  While no next-step handler is pending for its chat, a
    text that contains neither [youtube.com] nor [youtu.be] and is not a
    command gets no reply and changes nothing: the run ends in the state it
    started from, trace included. *)
Theorem other_text_is_ignored env fuel message s :
  contains "youtube.com" (text message) = false →
  contains "youtu.be" (text message) = false →
  extract_command env (text message) = None →
  default [] (next_step s !! chat_id message) = [] →
  process_new_message env fuel message s = Some (Ok tt s).
Proof.
  intros H1 H2 Hcmd Hnext. unfold process_new_message. rewrite Hcmd.
  assert (handle_url env message s = Ok tt s) as ->.
  { unfold handle_url, try_except. by rewrite H1, H2. }
  destruct (next_step s !! chat_id message) as [[|h hs]|]; done.
Qed.

Lemma other_text_is_ignored_witness :
  process_new_message world_fine 0 (message_from 7 "hello")
    (state_with_ledger 7 [(url_gone, "MP4")])
  = Some (Ok tt (state_with_ledger 7 [(url_gone, "MP4")])).
Proof.
  apply (other_text_is_ignored world_fine 0 (message_from 7 "hello")
           (state_with_ledger 7 [(url_gone, "MP4")])); reflexivity.
Defined.

(** *** Retry of selected items *)

Lemma filter_ext_elem {A} (P1 P2 : A → Prop)
    `{!∀ x, Decision (P1 x), !∀ x, Decision (P2 x)} (l : list A) :
  (∀ x, x ∈ l → P1 x ↔ P2 x) → filter P1 l = filter P2 l.
Proof.
  induction l as [|x l IH]; intros Hext; [done|].
  rewrite !filter_cons.
  rewrite IH by (intros y Hy; apply Hext; by right).
  destruct (decide (P1 x)) as [Hp|Hp], (decide (P2 x)) as [Hq|Hq]; try done.
  - destruct Hq. apply Hext; [left|done].
  - destruct Hp. apply Hext; [left|done].
Qed.

(** An index outside the range of the list removes nothing from it. *)
Lemma drop_selected_out_of_range sel1 j sel2 (l : list FailedItem) :
  ¬ (0 ≤ j < Z.of_nat (length l))%Z →
  drop_selected (sel1 ++ j :: sel2) l = drop_selected (sel1 ++ sel2) l.
Proof.
  intros Hout. unfold drop_selected. f_equal.
  apply filter_ext_elem. intros [i it] Hin. simpl.
  apply elem_of_zip_l, elem_of_seq in Hin.
  rewrite !elem_of_app, elem_of_cons.
  split; intros Hn H; apply Hn; [tauto|].
  destruct H as [H|[H|H]]; [tauto| |tauto]. lia.
Qed.

Lemma steps_specific_retry_loop env chat sel :
  steps ledger_grows (specific_retry_loop env chat sel).
Proof.
  induction sel as [|idx rest IH]; simpl; unfold retry_index; steps_split;
    try exact IH.
  all: apply steps_download; apply _.
Qed.

Lemma specific_retry_loop_app env chat sel1 sel2 s :
  specific_retry_loop env chat (sel1 ++ sel2) s
  = match specific_retry_loop env chat sel1 s with
    | Ok _ s' => specific_retry_loop env chat sel2 s'
    | Raise s' => Raise s'
    end.
Proof.
  revert s. induction sel1 as [|idx rest IH]; intros s; [done|].
  simpl. unfold bind.
  destruct (retry_index env chat idx s) as [[] s'|s']; [apply IH|done].
Qed.

(** An index outside the current range of the ledger is passed over. *)
Lemma specific_retry_loop_skip env chat j rest s :
  ¬ (0 ≤ j < Z.of_nat (length (ledger s chat)))%Z →
  specific_retry_loop env chat (j :: rest) s = specific_retry_loop env chat rest s.
Proof.
  intros Hout. simpl. unfold bind, retry_index, bind, get.
  by rewrite bool_decide_false.
Qed.

Lemma ledger_grows_length s s' chat :
  ledger_grows s s' → (length (ledger s chat) ≤ length (ledger s' chat))%nat.
Proof. intros H. by apply prefix_length. Qed.

Lemma specific_retry_loop_out_of_range env chat sel1 j sel2 s :
  ¬ (0 ≤ j < Z.of_nat (length (ledger
        (state_of (specific_retry_loop env chat (sel1 ++ sel2) s)) chat)))%Z →
  specific_retry_loop env chat (sel1 ++ j :: sel2) s
  = specific_retry_loop env chat (sel1 ++ sel2) s.
Proof.
  rewrite !specific_retry_loop_app.
  destruct (specific_retry_loop env chat sel1 s) as [[] s1|s1]; [|done].
  intros Hout. apply specific_retry_loop_skip.
  pose proof (steps_specific_retry_loop env chat sel2 s1) as Hg.
  apply (ledger_grows_length _ _ chat) in Hg. lia.
Qed.

Lemma bind_run_eq {A B} (m1 m2 : M A) (k1 k2 : A → M B) s :
  m1 s = m2 s →
  (∀ a s', m1 s = Ok a s' → k1 a s' = k2 a s') →
  bind m1 k1 s = bind m2 k2 s.
Proof.
  intros Hm Hk. unfold bind. rewrite <- Hm.
  destruct (m1 s) as [a s'|s']; [by apply Hk|done].
Qed.

(** A selected index that lies outside the range of the ledger as it stands
    after the retries of the reply is ignored: the reply is handled exactly
    as the same reply without that index.  Until then the ledger can only
    grow (failed retries append to it), so such an index is outside the
    range whenever the program looks at it.  Indices below the first
    position are always outside. *)
Lemma index_beyond_the_grown_ledger_is_ignored env message sel1 j sel2 s :
  parse_selection env (text message) = Some (sel1 ++ j :: sel2) →
  ¬ (0 ≤ j < Z.of_nat (length (ledger
        (state_of (specific_retry_loop env (chat_id message) (sel1 ++ sel2) s))
        (chat_id message))))%Z →
  process_specific_retry env message s
  = retry_parsed env (chat_id message) (Some (sel1 ++ sel2)) s.
Proof.
  intros Hparse Hout. unfold process_specific_retry. rewrite Hparse.
  unfold retry_parsed, try_except.
  replace (retry_selected env (chat_id message) (sel1 ++ j :: sel2) s)
    with (retry_selected env (chat_id message) (sel1 ++ sel2) s); [done|].
  unfold retry_selected. apply bind_run_eq.
  - by rewrite specific_retry_loop_out_of_range.
  - intros [] s1 E. rewrite E in Hout. simpl in Hout.
    unfold bind, modify. by rewrite drop_selected_out_of_range.
Qed.

(** C9.  The ledger shows one item, which cannot be fetched.  The reply [1]
    retries it and keeps it in the ledger, as it failed again.  The reply
    [2,1] names a position the list does not have; the loop skips it (line
    191), the retry of position 1 fails and appends the item again, at
    position 2, and the removal (lines 199-202) then drops positions 1 and
    2: the ledger is empty and the item that still fails is lost.  No error
    is raised. *)
Theorem out_of_range_index_removes_the_item_that_failed_again :
  let s := state_with_ledger 7 [(url_gone, "MP4")] in
  let one := process_specific_retry world_gone (message_from 7 "1") s in
  let both := process_specific_retry world_gone (message_from 7 "2,1") s in
  parse_selection world_gone "2,1" = Some [1; 0]%Z
  ∧ raised one = false
  ∧ ledger (state_of one) 7 = [(url_gone, "MP4")]
  ∧ raised both = false
  ∧ ledger (state_of both) 7 = [].
Proof. vm_compute. done. Qed.

(** *** One attempt of a single-video download *)

(** One iteration of the loop of [download_video]. *)
Lemma video_attempts_step env chat url format_choice n remaining s :
  video_attempts env chat url format_choice n (S remaining) s
  = match video_attempt env chat url format_choice s with
    | Ok _ s1 => Ok tt s1
    | Raise s1 =>
        match (if (n - S remaining =? n - 1)%nat
               then track_failed_video env chat url format_choice n
               else ret tt)
                (set_trace
                   (trace s1 ++ [EvLog (LogVideoAttempt (n - S remaining + 1))]) s1)
        with
        | Ok _ s2 => video_attempts env chat url format_choice n remaining s2
        | Raise s2 => Raise s2
        end
    end.
Proof.
  simpl. unfold bind at 1, try_except, bind at 1.
  destruct (video_attempt env chat url format_choice s) as [[] s1|s1]; [done|].
  unfold bind at 1, logging_error, emit, modify. unfold bind at 1.
  destruct (if (_ =? _)%nat then _ else _) as [[] s2|s2]; done.
Qed.

Lemma youtube_fetch_fetches env url s :
  fetches (trace (state_of (youtube_fetch env url s))) = fetches (trace s) + 1.
Proof.
  unfold youtube_fetch, bind, tick, emit, modify, create_file, modify. simpl.
  destruct (youtube_download env (clock s) url); simpl;
    [|destruct (download_left env (clock s) url); simpl];
    rewrite fetches_app; reflexivity.
Qed.

Lemma steps_after R `{!Reflexive R} {A B} (m : M A) (k : A → M B) s :
  (∀ a, steps R (k a)) → R (state_of (m s)) (state_of (bind m k s)).
Proof.
  intros Hk. unfold bind. destruct (m s) as [a s'|s']; simpl; [apply Hk|done].
Qed.

(** Every attempt, of either download, makes exactly one fetch. *)
Lemma fetch_artifact_fetches env url format_choice s :
  fetches (trace (state_of (fetch_artifact env url format_choice s)))
  = fetches (trace s) + 1.
Proof.
  rewrite <- (youtube_fetch_fetches env url s). unfold fetch_artifact.
  apply (steps_after same_fetches). intros p.
  destruct (_ =? _); [apply steps_ret; apply _|apply steps_convert_to_mp3; apply _].
Qed.

Lemma video_attempt_fetches env chat url format_choice s :
  fetches (trace (state_of (video_attempt env chat url format_choice s)))
  = fetches (trace s) + 1.
Proof.
  rewrite <- (fetch_artifact_fetches env url format_choice s).
  unfold video_attempt. apply (steps_after same_fetches). intros p.
  steps_split; [apply steps_send_document; apply _|apply steps_os_remove; apply _].
Qed.

Lemma send_then_remove_outcome env chat p s :
  match (send_document env chat p ;; os_remove env p) s with
  | Ok _ s' =>
      trace s' = trace s ++ [EvSendDocument chat p true; EvRemove p]
      ∧ p ∉ files s'
  | Raise s' =>
      (∀ now path, remove_ok env now path = true) → no_delivery chat s s'
  end.
Proof.
  unfold send_document, os_remove, bind, get, tick, emit, modify. simpl.
  destruct (bool_decide (p ∈ files s)) eqn:Hin; simpl; [|reflexivity].
  destruct (send_document_ok env (clock s) chat p); simpl.
  - rewrite Hin. simpl.
    destruct (remove_ok env (S (clock s)) p) eqn:Hrm; simpl.
    + split; [by rewrite <- app_assoc|].
      rewrite elem_of_difference, elem_of_singleton. tauto.
    + intros Hrm'. by rewrite Hrm' in Hrm.
  - intros _. by exists [EvSendDocument chat p false].
Qed.

(** An attempt that returns has delivered the artifact and then deleted it;
    an attempt that fails, where deletions cannot fail, has delivered
    nothing. *)
Lemma video_attempt_outcome env chat url format_choice s :
  match video_attempt env chat url format_choice s with
  | Ok _ s' =>
      ∃ pre p,
        trace s' = trace s ++ pre ++ [EvSendDocument chat p true; EvRemove p]
        ∧ p ∉ files s'
  | Raise s' =>
      (∀ now path, remove_ok env now path = true) → no_delivery chat s s'
  end.
Proof.
  unfold video_attempt. unfold bind at 1.
  pose proof (steps_fetch_artifact (no_delivery chat) env url format_choice s)
    as Hf.
  destruct (fetch_artifact env url format_choice s) as [p s1|s1]; simpl in Hf;
    [|done].
  pose proof (send_then_remove_outcome env chat p s1) as Hs.
  destruct ((send_document env chat p;; os_remove env p) s1) as [[] s2|s2].
  - destruct Hs as [Ht Hp], Hf as (ev & E & _). exists ev, p.
    split; [|done]. by rewrite Ht, E, <- app_assoc.
  - intros Hrm. etrans; [exact Hf|by apply Hs].
Qed.

(** *** The whole single-video download *)

Section DownloadVideo.

Context (env : Env) (chat : Z) (Htext : reliable_text env chat).

Lemma video_attempts_outcome url format_choice n remaining s :
  0 < remaining ≤ n →
  ∀ s', s' = state_of (video_attempts env chat url format_choice n remaining s) →
  (∃ pre p,
     trace s' = trace s ++ pre ++ [EvSendDocument chat p true; EvRemove p]
     ∧ (p ∉ files s')
     ∧ ledger s' chat = ledger s chat)
  ∨ (trace_grows s s'
     ∧ ((∀ now path, remove_ok env now path = true) → no_delivery chat s s')
     ∧ ledger s' chat = ledger s chat ++ [(url, format_choice)]
     ∧ fetches (trace s') = fetches (trace s) + remaining).
Proof.
  revert s. induction remaining as [|remaining IH]; intros s [Hpos Hle]; [lia|].
  intros s' ->. rewrite video_attempts_step.
  pose proof (video_attempt_outcome env chat url format_choice s) as Ho.
  pose proof (video_attempt_fetches env chat url format_choice s) as Hf.
  pose proof (steps_video_attempt same_ledgers env chat url format_choice s chat)
    as Hl.
  pose proof (steps_video_attempt trace_grows env chat url format_choice s)
    as Hg.
  destruct (video_attempt env chat url format_choice s) as [[] s1|s1];
    simpl in Hf, Hl, Hg.
  { left. destruct Ho as (pre & p & Ht & Hp). by exists pre, p. }
  set (s2 := set_trace _ s1).
  assert (trace_grows s s2) as Hg2.
  { etrans; [exact Hg|]. by eexists [_]. }
  assert ((∀ now path, remove_ok env now path = true) → no_delivery chat s s2)
    as Ho2.
  { intros Hrm. etrans; [by apply Ho|]. by eexists [_]. }
  assert (fetches (trace s2) = fetches (trace s) + 1) as Hf2.
  { subst s2. simpl. rewrite fetches_app. change (fetches [EvLog _]) with 0. lia. }
  assert (ledger s2 chat = ledger s chat) as Hl2 by done.
  clearbody s2. clear s1 Ho Hf Hl Hg.
  destruct (decide (remaining = 0)) as [->|Hne].
  - replace (n - 1 =? n - 1)%nat with true by (symmetry; apply Nat.eqb_refl).
    pose proof (steps_track_failed_video (no_delivery chat) env chat url
                  format_choice n s2) as Ho3.
    pose proof (steps_track_failed_video trace_grows env chat url
                  format_choice n s2) as Hg3.
    destruct (track_failed_video_spec env chat Htext url format_choice n s2)
      as (s3 & E & Hl3 & Hf3).
    rewrite E in Ho3, Hg3 |- *. simpl in Ho3, Hg3 |- *. right.
    split; [by etrans|]. split; [intros Hrm; etrans; [by apply Ho2|done]|].
    split; [by rewrite Hl3, Hl2|]. unfold same_fetches in Hf3. lia.
  - replace (n - S remaining =? n - 1)%nat with false
      by (symmetry; apply Nat.eqb_neq; lia).
    simpl. destruct (IH s2 ltac:(lia) _ eq_refl)
      as [(pre & p & Ht & Hp & Hl3)|(Hg3 & Ho3 & Hl3 & Hf3)].
    + left. destruct Hg2 as (ev & E). exists (ev ++ pre), p.
      split; [by rewrite Ht, E, <- !app_assoc|].
      split; [done|by rewrite Hl3].
    + right. split; [by etrans|].
      split; [intros Hrm; etrans; [by apply Ho2|by apply Ho3]|].
      split; [by rewrite Hl3, Hl2|lia].
Qed.

End DownloadVideo.

(** C4, as stated, fails: the video is fetched all right and no document
    gets through.  The download is fetched three times, the item is recorded
    as failed, and the fetched file is still on disk. *)
Lemma failed_delivery_is_recorded_and_file_kept :
  let s := state_of (download_video world_no_delivery 7 url_ok "MP4" 3 empty_state) in
  ledger s 7 = [(url_ok, "MP4")]
  ∧ fetches (trace s) = 3
  ∧ "downloads/" +:+ url_ok ∈ files s
  ∧ trace s
    = [EvYouTube url_ok; EvSendDocument 7 ("downloads/" +:+ url_ok) false;
       EvLog (LogVideoAttempt 1);
       EvYouTube url_ok; EvSendDocument 7 ("downloads/" +:+ url_ok) false;
       EvLog (LogVideoAttempt 2);
       EvYouTube url_ok; EvSendDocument 7 ("downloads/" +:+ url_ok) false;
       EvLog (LogVideoAttempt 3);
       EvSendMessage 7 (TFailedAfter 3) true].
Proof.
  intros s. split; [vm_compute; reflexivity|].
  split; [vm_compute; reflexivity|].
  split; [|vm_compute; reflexivity].
  apply (bool_decide_unpack _). vm_compute. exact I.
Qed.

(** C4, amended.  A single-video download ends in one of two ways.  Either
    some attempt ran to its end: it delivered the artifact and at once
    deleted the delivered file, which is gone, and the ledger is as before.
    Or no attempt did, be it that the fetch failed, the delivery or the
    deletion of the delivered file: then every attempt was made, each with
    its own fetch, and the item is appended to the ledger; where deletions
    cannot fail, no attempt delivered anything. *)
Theorem download_video_delivers_or_records env chat url format_choice n s :
  reliable_text env chat →
  0 < n →
  ∀ s', s' = state_of (download_video env chat url format_choice n s) →
  (∃ pre p,
     new_events s s' = pre ++ [EvSendDocument chat p true; EvRemove p]
     ∧ (p ∉ files s')
     ∧ ledger s' chat = ledger s chat)
  ∨ (ledger s' chat = ledger s chat ++ [(url, format_choice)]
     ∧ fetches (new_events s s') = n
     ∧ ((∀ now path, remove_ok env now path = true) →
        delivered chat (new_events s s') = false)).
Proof.
  intros Htext Hn s' ->. unfold download_video.
  destruct (video_attempts_outcome env chat Htext url format_choice n n s
              ltac:(lia) _ eq_refl)
    as [(pre & p & Ht & Hp & Hl)|((ev & E) & Hd & Hl & Hf)].
  - left. exists pre, p. by rewrite (new_events_app _ _ _ Ht).
  - right. rewrite (new_events_app _ _ _ E). split; [done|]. split.
    + rewrite E, fetches_app in Hf. lia.
    + intros Hrm. destruct (Hd Hrm) as (ev' & E' & Hd').
      rewrite E in E'. by apply app_inv_head in E' as ->.
Qed.

Lemma download_video_delivers_or_records_witness :
  reliable_text world_no_delivery 7
  ∧ 0 < 3
  ∧ ledger (state_of (download_video world_no_delivery 7 url_ok "MP4" 3 empty_state)) 7
    = [(url_ok, "MP4")].
Proof.
  split; [intros now; reflexivity|]. split; [lia|].
  destruct (download_video_delivers_or_records world_no_delivery 7 url_ok "MP4" 3
              empty_state (fun now => eq_refl) ltac:(lia) _ eq_refl)
    as [(pre & p & Hev & _ & _)|(Hl & _ & _)].
  - vm_compute in Hev. by destruct pre as [|? [|? [|? [|? [|? [|? [|? [|? [|? [|? [|? [|? [|]]]]]]]]]]]]].
  - exact Hl.
Defined.

(** *** The retry loops *)

Lemma new_events_trans s s1 s2 :
  trace_grows s s1 → trace_grows s1 s2 →
  new_events s s2 = new_events s s1 ++ new_events s1 s2.
Proof.
  intros [ev1 E1] [ev2 E2].
  rewrite (new_events_app s s1 ev1 E1), (new_events_app s1 s2 ev2 E2).
  apply new_events_app. by rewrite E2, E1, app_assoc.
Qed.

Lemma new_events_fetches s s' :
  trace_grows s s' →
  fetches (trace s') = fetches (trace s) + fetches (new_events s s').
Proof.
  intros [ev E]. rewrite (new_events_app s s' ev E), E. apply fetches_app.
Qed.

Lemma video_attempts_fetches_le env chat url format_choice n remaining s :
  (fetches (trace (state_of
     (video_attempts env chat url format_choice n remaining s)))
   ≤ fetches (trace s) + remaining)%nat.
Proof.
  revert s. induction remaining as [|remaining IH]; intros s; [simpl; lia|].
  rewrite video_attempts_step.
  pose proof (video_attempt_fetches env chat url format_choice s) as Hf.
  destruct (video_attempt env chat url format_choice s) as [[] s1|s1];
    simpl in Hf |- *; [lia|].
  set (s2 := set_trace _ s1).
  assert (fetches (trace s2) = fetches (trace s) + 1) as Hf2.
  { subst s2. simpl. rewrite fetches_app. change (fetches [EvLog _]) with 0. lia. }
  clearbody s2.
  assert (steps same_fetches
            (if (n - S remaining =? n - 1)%nat
             then track_failed_video env chat url format_choice n
             else ret tt)) as Hh.
  { destruct (_ =? _)%nat;
      [apply steps_track_failed_video; apply _|apply steps_ret; apply _]. }
  specialize (Hh s2). unfold same_fetches in Hh.
  destruct (if (_ =? _)%nat then _ else _) as [[] s3|s3]; simpl in Hh |- *.
  - specialize (IH s3). lia.
  - lia.
Qed.

Lemma video_attempts_first_success env chat url format_choice n :
  ∀ k first s sk s',
    first + k < n →
    after_failed_video_attempts env chat url format_choice first k s = Some sk →
    video_attempt env chat url format_choice sk = Ok tt s' →
    video_attempts env chat url format_choice n (n - first) s = Ok tt s'
    ∧ fetches (trace s') = fetches (trace s) + S k.
Proof.
  induction k as [|k IH]; intros first s sk s' Hlt Hk Hok;
    replace (n - first) with (S (n - first - 1)) by lia;
    rewrite video_attempts_step; simpl in Hk.
  - injection Hk as ->. rewrite Hok. split; [done|].
    pose proof (video_attempt_fetches env chat url format_choice sk) as Hf.
    rewrite Hok in Hf. simpl in Hf. lia.
  - pose proof (video_attempt_fetches env chat url format_choice s) as Hf.
    destruct (video_attempt env chat url format_choice s) as [[] s1|s1];
      [done|]. simpl in Hf.
    replace (n - S (n - first - 1)) with first by lia.
    replace (first =? n - 1)%nat with false by (symmetry; apply Nat.eqb_neq; lia).
    simpl. replace (n - first - 1) with (n - S first) by lia.
    destruct (IH (S first) _ sk s' ltac:(lia) Hk Hok) as [-> Hf'].
    split; [done|]. rewrite Hf'. simpl. rewrite fetches_app.
    change (fetches [EvLog _]) with 0. lia.
Qed.

(** One iteration of the attempts on a playlist item. *)
Lemma playlist_attempts_step env video_url format_choice n remaining dl failed s :
  playlist_attempts env video_url format_choice n (S remaining) dl failed s
  = match fetch_artifact env video_url format_choice s with
    | Ok file_path s1 => Ok (dl ++ [file_path], failed) s1
    | Raise s1 =>
        playlist_attempts env video_url format_choice n remaining dl
          (if (n - S remaining =? n - 1)%nat
           then failed ++ [(video_url, format_choice)] else failed)
          (set_trace
             (trace s1
              ++ [EvLog (LogPlaylistAttempt video_url (n - S remaining + 1))]) s1)
    end.
Proof.
  simpl. unfold bind at 1, try_except, bind at 1.
  destruct (fetch_artifact env video_url format_choice s) as [p s1|s1]; done.
Qed.

Lemma playlist_attempts_fetches_le env video_url format_choice n remaining dl failed s :
  (fetches (trace (state_of
     (playlist_attempts env video_url format_choice n remaining dl failed s)))
   ≤ fetches (trace s) + remaining)%nat.
Proof.
  revert failed s.
  induction remaining as [|remaining IH]; intros failed s; [simpl; lia|].
  rewrite playlist_attempts_step.
  pose proof (fetch_artifact_fetches env video_url format_choice s) as Hf.
  destruct (fetch_artifact env video_url format_choice s) as [p s1|s1];
    simpl in Hf |- *; [lia|].
  etrans; [apply IH|]. simpl. rewrite fetches_app.
  change (fetches [EvLog _]) with 0. lia.
Qed.

Lemma playlist_attempts_first_success env video_url format_choice n dl failed :
  ∀ k first s sk p s',
    first + k < n →
    after_failed_fetches env video_url format_choice first k s = Some sk →
    fetch_artifact env video_url format_choice sk = Ok p s' →
    playlist_attempts env video_url format_choice n (n - first) dl failed s
    = Ok (dl ++ [p], failed) s'
    ∧ fetches (trace s') = fetches (trace s) + S k.
Proof.
  induction k as [|k IH]; intros first s sk p s' Hlt Hk Hok;
    replace (n - first) with (S (n - first - 1)) by lia;
    rewrite playlist_attempts_step; simpl in Hk.
  - injection Hk as ->. rewrite Hok. split; [done|].
    pose proof (fetch_artifact_fetches env video_url format_choice sk) as Hf.
    rewrite Hok in Hf. simpl in Hf. lia.
  - pose proof (fetch_artifact_fetches env video_url format_choice s) as Hf.
    destruct (fetch_artifact env video_url format_choice s) as [q s1|s1];
      [done|]. simpl in Hf.
    replace (n - S (n - first - 1)) with first by lia.
    replace (first =? n - 1)%nat with false by (symmetry; apply Nat.eqb_neq; lia).
    replace (n - first - 1) with (n - S first) by lia.
    destruct (IH (S first) _ sk p s' ltac:(lia) Hk Hok) as [-> Hf'].
    split; [done|]. rewrite Hf'. simpl. rewrite fetches_app.
    change (fetches [EvLog _]) with 0. lia.
Qed.



(** *** The items of a playlist *)

Lemma fetch_artifact_trace env url format_choice s :
  ∃ ev,
    trace (state_of (fetch_artifact env url format_choice s))
    = trace s ++ EvYouTube url :: ev.
Proof.
  unfold fetch_artifact.
  pose proof (steps_after trace_grows (youtube_fetch env url)
    (fun file_path =>
       if String.eqb format_choice "MP4" then ret file_path
       else convert_to_mp3 env file_path) s) as [ev E].
  { intros p. destruct (_ =? _);
      [apply steps_ret; apply _|apply steps_convert_to_mp3; apply _]. }
  exists ev. rewrite E.
  assert (trace (state_of (youtube_fetch env url s)) = trace s ++ [EvYouTube url])
    as ->.
  { unfold youtube_fetch, bind, tick, emit, modify, create_file, modify. simpl.
    destruct (youtube_download env (clock s) url); [done|].
    by destruct (download_left env (clock s) url). }
  by rewrite <- app_assoc.
Qed.

(** With at least one attempt allowed, the attempts on one item never
    raise, fetch the item, and add either one file or one failed item. *)
Lemma playlist_attempts_outcome env video_url format_choice n remaining dl failed s :
  0 < remaining ≤ n →
  ∃ dl' failed' s' ev,
    playlist_attempts env video_url format_choice n remaining dl failed s
    = Ok (dl', failed') s'
    ∧ ((∃ p, dl' = dl ++ [p] ∧ failed' = failed)
       ∨ (dl' = dl ∧ failed' = failed ++ [(video_url, format_choice)]))
    ∧ trace s' = trace s ++ EvYouTube video_url :: ev.
Proof.
  revert failed s.
  induction remaining as [|remaining IH]; intros failed s [Hpos Hle]; [lia|].
  rewrite playlist_attempts_step.
  destruct (fetch_artifact_trace env video_url format_choice s) as [ev E].
  destruct (fetch_artifact env video_url format_choice s) as [p s1|s1];
    simpl in E.
  { exists (dl ++ [p]), failed, s1, ev. split; [done|]. split; [|done].
    left. by exists p. }
  destruct (decide (remaining = 0)) as [->|Hne].
  - replace (n - 1 =? n - 1)%nat with true by (symmetry; apply Nat.eqb_refl).
    simpl. eexists dl, _, _, _. split; [done|]. split; [by right|].
    simpl. rewrite E, <- app_assoc. done.
  - replace (n - S remaining =? n - 1)%nat with false
      by (symmetry; apply Nat.eqb_neq; lia).
    set (s2 := set_trace _ s1).
    destruct (IH failed s2) as (dl' & failed' & s' & ev' & -> & Hacc & Ht); [lia|].
    exists dl', failed', s', (ev ++ [EvLog (LogPlaylistAttempt video_url
                                                (n - S remaining + 1))]
                                ++ EvYouTube video_url :: ev').
    split; [done|]. split; [done|].
    rewrite Ht. subst s2. simpl. rewrite E, <- !app_assoc. done.
Qed.

Lemma playlist_loop_outcome env video_urls format_choice n dl failed s :
  0 < n →
  ∃ dl' failed' s' ev,
    playlist_loop env video_urls format_choice n dl failed s = Ok (dl', failed') s'
    ∧ length dl' + length failed'
      = length dl + length failed + length video_urls
    ∧ trace s' = trace s ++ ev
    ∧ (∀ u, u ∈ video_urls → EvYouTube u ∈ ev)
    ∧ (∀ it, it ∈ failed' →
         it ∈ failed ∨ (it.1 ∈ video_urls ∧ it.2 = format_choice)).
Proof.
  intros Hn. revert dl failed s.
  induction video_urls as [|u rest IH]; intros dl failed s; simpl.
  { exists dl, failed, s, []. split; [done|]. split; [lia|].
    split; [by rewrite app_nil_r|]. split; [by intros u Hu; inversion Hu|auto]. }
  unfold bind.
  destruct (playlist_attempts_outcome env u format_choice n n dl failed s)
    as (dl1 & failed1 & s1 & ev1 & -> & Hacc & Ht1); [lia|].
  simpl.
  destruct (IH dl1 failed1 s1)
    as (dl' & failed' & s' & ev' & -> & Hlen & Ht & Hall & Hfailed).
  exists dl', failed', s', (EvYouTube u :: ev1 ++ ev').
  split; [done|]. split.
  { destruct Hacc as [(p & -> & ->)|[-> ->]]; rewrite length_app in Hlen;
      simpl in Hlen; lia. }
  split; [by rewrite Ht, Ht1, <- app_assoc|]. split.
  - intros v [->|Hv]%elem_of_cons; [left|].
    right. apply elem_of_app. right. by apply Hall.
  - intros it Hit. destruct (Hfailed it Hit) as [Hin|[Hin ->]].
    + destruct Hacc as [(p & -> & ->)|[-> ->]]; [by left|].
      apply elem_of_app in Hin as [Hin|Hin]; [by left|].
      apply list_elem_of_singleton in Hin as ->. right. split; [left|done].
    + right. split; [by right|done].
Qed.

(** C6.  With at least one attempt per item, the loop over the items of a
    playlist runs to its end without raising, whatever fails on the way;
    every item ends up either as one file to be archived or as one failed
    item, so the two counts add up to the number of items; every item was
    fetched; and the failed items are items of the playlist. *)
Theorem every_playlist_item_succeeds_or_fails env video_urls format_choice n s :
  0 < n →
  ∃ downloaded_files failed_videos s',
    playlist_loop env video_urls format_choice n [] [] s
    = Ok (downloaded_files, failed_videos) s'
    ∧ length downloaded_files + length failed_videos = length video_urls
    ∧ (∀ u, u ∈ video_urls → EvYouTube u ∈ new_events s s')
    ∧ (∀ it, it ∈ failed_videos → it.1 ∈ video_urls ∧ it.2 = format_choice).
Proof.
  intros Hn.
  destruct (playlist_loop_outcome env video_urls format_choice n [] [] s Hn)
    as (dl & failed & s' & ev & E & Hlen & Ht & Hall & Hfailed).
  exists dl, failed, s'. split; [done|]. split; [simpl in Hlen; lia|].
  rewrite (new_events_app _ _ _ Ht). split; [done|].
  intros it Hit. destruct (Hfailed it Hit) as [Hin|H]; [|done].
  by apply elem_of_nil in Hin.
Qed.

Lemma every_playlist_item_succeeds_or_fails_witness :
  0 < 3
  ∧ ∃ downloaded_files failed_videos s',
      playlist_loop world_gone [url_ok; url_gone; url_ok] "MP3" 3 [] [] empty_state
      = Ok (downloaded_files, failed_videos) s'
      ∧ length downloaded_files + length failed_videos = 3.
Proof.
  split; [lia|].
  destruct (every_playlist_item_succeeds_or_fails world_gone
              [url_ok; url_gone; url_ok] "MP3" 3 empty_state)
    as (dl & failed & s' & E & Hlen & _); [lia|].
  by exists dl, failed, s'.
Defined.

(* ================================================================== *)
(** * Further properties of the program *)

(** ** Everything done for a chat stays with that chat *)

Lemma event_of_chat_message chat t ok :
  event_of_chat chat (EvSendMessage chat t ok) = true.
Proof. simpl. by apply bool_decide_eq_true_2. Qed.

Lemma event_of_chat_document chat p ok :
  event_of_chat chat (EvSendDocument chat p ok) = true.
Proof. simpl. by apply bool_decide_eq_true_2. Qed.

Section LocalSteps.

Context (env : Env) (chat : Z) (R : State → State → Prop) `{!LocalTo chat R}.

Lemma local_tick : steps R tick.
Proof. intros s. apply loc_clock. Qed.

Lemma local_emit e : event_of_chat chat e = true → steps R (emit e).
Proof. intros He s. by apply loc_emit. Qed.

Lemma local_logging_error entry : steps R (logging_error entry).
Proof. by apply local_emit. Qed.

Lemma local_create_file path : steps R (create_file path).
Proof. intros s. apply loc_files. Qed.

Lemma local_send_message t : steps R (send_message env chat t).
Proof.
  unfold send_message. steps_split; [apply local_tick|].
  apply local_emit, event_of_chat_message.
Qed.

Lemma local_send_document path : steps R (send_document env chat path).
Proof.
  unfold send_document. steps_split; [apply local_tick|].
  apply local_emit, event_of_chat_document.
Qed.

Lemma local_os_remove path : steps R (os_remove env path).
Proof.
  unfold os_remove. steps_split;
    [apply local_tick|by apply local_emit|apply loc_files].
Qed.

Lemma local_youtube_fetch url : steps R (youtube_fetch env url).
Proof.
  unfold youtube_fetch. steps_split;
    auto using local_tick, local_create_file; by apply local_emit.
Qed.

Lemma local_convert_to_mp3 path : steps R (convert_to_mp3 env path).
Proof.
  unfold convert_to_mp3. steps_split;
    auto using local_tick, local_create_file, local_os_remove,
      local_logging_error; by apply local_emit.
Qed.

Lemma local_fetch_artifact url format_choice :
  steps R (fetch_artifact env url format_choice).
Proof.
  unfold fetch_artifact. steps_split;
    auto using local_youtube_fetch, local_convert_to_mp3.
Qed.

Lemma local_save_failed_list : steps R (save_failed_list env chat).
Proof.
  unfold save_failed_list. steps_split;
    auto using local_tick, local_logging_error.
  all: apply loc_disk.
Qed.

Lemma local_ensure_ledger : steps R (ensure_ledger chat).
Proof.
  unfold ensure_ledger. steps_split.
  destruct (failed_downloads s !! chat); [reflexivity|apply loc_ledger].
Qed.

Lemma local_ledger_extend items : steps R (ledger_extend chat items).
Proof. unfold ledger_extend. steps_split. apply loc_ledger. Qed.

Lemma local_video_attempt url format_choice :
  steps R (video_attempt env chat url format_choice).
Proof.
  unfold video_attempt. steps_split;
    auto using local_fetch_artifact, local_send_document, local_os_remove.
Qed.

Lemma local_track_failed_video url format_choice n :
  steps R (track_failed_video env chat url format_choice n).
Proof.
  unfold track_failed_video. steps_split;
    auto using local_send_message, local_ensure_ledger, local_ledger_extend,
      local_save_failed_list.
Qed.

Lemma local_track_failed_videos failed_videos :
  steps R (track_failed_videos env chat failed_videos).
Proof.
  unfold track_failed_videos. steps_split;
    auto using local_send_message, local_ensure_ledger, local_ledger_extend,
      local_save_failed_list.
Qed.

Lemma local_video_attempts url format_choice n remaining :
  steps R (video_attempts env chat url format_choice n remaining).
Proof.
  induction remaining as [|remaining IH]; simpl; steps_split;
    auto using local_video_attempt, local_logging_error,
      local_track_failed_video.
Qed.

Lemma local_download_video url format_choice n :
  steps R (download_video env chat url format_choice n).
Proof. apply local_video_attempts. Qed.

Lemma local_playlist_attempts video_url format_choice n remaining dl failed :
  steps R (playlist_attempts env video_url format_choice n remaining dl failed).
Proof.
  revert failed.
  induction remaining as [|remaining IH]; intros failed; simpl; steps_split;
    auto using local_fetch_artifact, local_logging_error.
Qed.

Lemma local_playlist_loop video_urls format_choice n dl failed :
  steps R (playlist_loop env video_urls format_choice n dl failed).
Proof.
  revert dl failed.
  induction video_urls as [|u rest IH]; intros dl failed; simpl; steps_split;
    auto using local_playlist_attempts.
Qed.

Lemma local_download_playlist url format_choice n :
  steps R (download_playlist env chat url format_choice n).
Proof.
  unfold download_playlist, write_zip, resolve_playlist. steps_split;
    auto using local_tick, local_create_file, local_playlist_loop,
      local_send_document, local_os_remove, local_send_message,
      local_track_failed_videos, local_logging_error;
    by apply local_emit.
Qed.

Lemma local_download as_playlist url format_choice :
  steps R (download env as_playlist chat url format_choice).
Proof.
  unfold download. steps_split;
    auto using local_download_playlist, local_download_video.
Qed.

Lemma local_register_next_step_handler h :
  steps R (register_next_step_handler chat h).
Proof. unfold register_next_step_handler. steps_split. apply loc_next_step. Qed.

Lemma local_retry_index idx : steps R (retry_index env chat idx).
Proof. unfold retry_index. steps_split; apply local_download. Qed.

Lemma local_specific_retry_loop sel : steps R (specific_retry_loop env chat sel).
Proof.
  induction sel as [|idx rest IH]; simpl; steps_split;
    auto using local_retry_index.
Qed.

Lemma local_retry_parsed parsed : steps R (retry_parsed env chat parsed).
Proof.
  unfold retry_parsed, retry_selected. steps_split;
    auto using local_specific_retry_loop, local_send_message,
      local_logging_error.
  apply loc_ledger.
Qed.

Lemma local_process_format_selection message :
  chat_id message = chat → steps R (process_format_selection env message).
Proof.
  intros Hc. unfold process_format_selection. rewrite Hc. steps_split;
    auto using local_send_message, local_download, local_logging_error.
Qed.

Lemma local_send_welcome message :
  chat_id message = chat → steps R (send_welcome env message).
Proof.
  intros Hc. unfold send_welcome. rewrite Hc. steps_split;
    [by apply local_emit|apply local_send_message].
Qed.

Lemma local_handle_retry message :
  chat_id message = chat → steps R (handle_retry env message).
Proof.
  intros Hc. unfold handle_retry. rewrite Hc. steps_split;
    auto using local_send_message, local_register_next_step_handler.
Qed.

Lemma local_handle_url message :
  chat_id message = chat → steps R (handle_url env message).
Proof.
  intros Hc. unfold handle_url. rewrite Hc. steps_split;
    auto using local_send_message, local_register_next_step_handler,
      local_logging_error.
  apply loc_user_data.
Qed.

Lemma local_retry_except : steps R (retry_except env chat).
Proof.
  unfold retry_except. steps_split;
    [apply local_logging_error|apply local_send_message].
Qed.

Lemma local_retry_all_loop fuel i s r :
  retry_all_loop env fuel chat i s = Some r → R s (state_of r).
Proof.
  revert i s. induction fuel as [|fuel IH]; intros i s; [done|]. simpl.
  destruct (ledger s chat !! i) as [[u f]|];
    [|intros [= <-]; simpl; reflexivity].
  pose proof (local_download (is_playlist_retry_all u) u f s) as Hd.
  destruct (download _ _ _ _ _ _) as [[] s'|s']; simpl in Hd.
  - intros H. etrans; [exact Hd|by eapply IH].
  - by intros [= <-].
Qed.

Lemma local_process_retry_selection fuel message s r :
  chat_id message = chat →
  process_retry_selection env fuel message s = Some r → R s (state_of r).
Proof.
  intros Hc. unfold process_retry_selection. rewrite Hc.
  repeat case_match.
  - intros [= <-]. apply steps_try_except;
      [apply _|apply local_send_message|apply local_retry_except].
  - intros [= <-]. simpl. etrans; [by eapply local_retry_all_loop|].
    apply loc_ledger.
  - intros [= <-]. etrans; [by eapply (local_retry_all_loop _ _ _ (Raise _))|].
    apply local_retry_except.
  - done.
  - intros [= <-].
    assert (steps R
      (try_except
         (send_message env chat (TSelectPrompt (enumerate1 (ledger s chat)));;
          register_next_step_handler chat HSpecificRetry)
         (retry_except env chat))) as Hs.
    { steps_split; auto using local_send_message,
        local_register_next_step_handler, local_retry_except. }
    apply Hs.
  - intros [= <-]. simpl. reflexivity.
Qed.

Lemma local_run_handlers fuel hs message s r :
  chat_id message = chat →
  run_handlers env fuel hs message s = Some r → R s (state_of r).
Proof.
  intros Hc. revert s. induction hs as [|h rest IH]; intros s; simpl.
  { intros [= <-]. simpl. reflexivity. }
  assert (∀ r1, run_handler env fuel h message s = Some r1 → R s (state_of r1))
    as Hh.
  { destruct h; simpl.
    - intros r1 [= <-]. by apply local_process_format_selection.
    - intros r1. by apply local_process_retry_selection.
    - intros r1 [= <-]. unfold process_specific_retry. rewrite Hc.
      apply local_retry_parsed. }
  destruct (run_handler env fuel h message s) as [[[] s1|s1]|]; [| |done].
  - intros H. etrans; [by apply (Hh (Ok tt s1))|by apply IH].
  - intros [= <-]. by apply (Hh (Raise s1)).
Qed.

(** Whatever the program does with a message from [chat] is related by
    [R]. *)
Lemma local_process_new_message fuel message s r :
  chat_id message = chat →
  process_new_message env fuel message s = Some r → R s (state_of r).
Proof.
  intros Hc. unfold process_new_message. rewrite Hc.
  assert (∀ hs, run_handlers env fuel hs message
                  (set_next_step (delete chat (next_step s)) s) = Some r →
                R s (state_of r)) as Hrun.
  { intros hs H. etrans; [apply loc_next_step_delete|].
    by eapply local_run_handlers. }
  destruct (next_step s !! chat) as [[|h hs]|]; [|apply Hrun|].
  all: destruct (extract_command env (text message)) as [cmd|];
    repeat case_match; intros [= <-];
    first [by apply local_send_welcome|by apply local_handle_retry
          |by apply local_handle_url].
Qed.

End LocalSteps.

Lemma untouched_local c chat : c ≠ chat → LocalTo chat (untouched c).
Proof.
  intros Hne. split.
  - by intros s.
  - intros s1 s2 s3 (H1 & H2 & H3 & H4) (K1 & K2 & K3 & K4).
    unfold untouched. by rewrite K1, K2, K3, K4.
  - by intros s n.
  - by intros s v.
  - by intros s e _.
  - intros s l. unfold untouched. simpl. by rewrite lookup_insert_ne.
  - intros s j. unfold untouched. simpl. by rewrite lookup_insert_ne.
  - intros s u. unfold untouched. simpl. by rewrite lookup_insert_ne.
  - intros s hs. unfold untouched. simpl. by rewrite lookup_insert_ne.
  - intros s. unfold untouched. simpl. by rewrite lookup_delete_ne.
Qed.

Global Instance only_events_local chat :
  LocalTo chat (only_events (event_of_chat chat)).
Proof.
  assert (∀ s s', trace s' = trace s → only_events (event_of_chat chat) s s')
    as Hsame.
  { intros s s' E. exists []. by rewrite E, app_nil_r. }
  split; try (intros; by apply Hsame).
  - intros s. by apply Hsame.
  - intros s1 s2 s3 (ev1 & E1 & H1) (ev2 & E2 & H2). exists (ev1 ++ ev2).
    split; [by rewrite E2, E1, app_assoc|].
    by rewrite forallb_app, H1, H2.
  - intros s e He. exists [e]. split; [done|]. simpl. by rewrite He.
Qed.

(** X1.  Handling a message from one chat leaves every other chat's ledger,
    ledger file, stored URL and pending handlers exactly as they were. *)
Theorem other_chats_are_untouched env fuel message s r c :
  c ≠ chat_id message →
  process_new_message env fuel message s = Some r →
  failed_downloads (state_of r) !! c = failed_downloads s !! c
  ∧ failed_lists (state_of r) !! c = failed_lists s !! c
  ∧ user_data (state_of r) !! c = user_data s !! c
  ∧ next_step (state_of r) !! c = next_step s !! c.
Proof.
  intros Hne Hrun.
  by apply (local_process_new_message env (chat_id message) (untouched c)
              (LocalTo0 := untouched_local c (chat_id message) Hne)
              fuel message s r).
Qed.

Lemma other_chats_are_untouched_witness :
  ∃ r,
    process_new_message world_gone 1 (message_from 7 url_gone)
      (state_with_ledger 8 [(url_ok, "MP4")]) = Some r
    ∧ failed_downloads (state_of r) !! 8%Z = Some [(url_ok, "MP4")].
Proof.
  eexists. split; [vm_compute; reflexivity|].
  apply (other_chats_are_untouched world_gone 1 (message_from 7 url_gone)
           (state_with_ledger 8 [(url_ok, "MP4")]) _ 8%Z).
  - discriminate.
  - vm_compute. reflexivity.
Defined.

(** X2.  Every text and every document the program sends while it handles
    a message goes to the chat the message came from. *)
Theorem replies_go_to_the_sender env fuel message s r :
  process_new_message env fuel message s = Some r →
  ∃ ev,
    trace (state_of r) = trace s ++ ev
    ∧ ∀ c, (∃ t ok, EvSendMessage c t ok ∈ ev)
           ∨ (∃ p ok, EvSendDocument c p ok ∈ ev) →
           c = chat_id message.
Proof.
  intros Hrun.
  destruct (local_process_new_message env (chat_id message)
              (only_events (event_of_chat (chat_id message)))
              fuel message s r eq_refl Hrun) as (ev & E & Hall).
  exists ev. split; [done|].
  rewrite forallb_forall in Hall.
  intros c [(t & ok & Hin)|(p & ok & Hin)];
    apply list_elem_of_In, Hall in Hin; simpl in Hin;
    by apply bool_decide_eq_true in Hin.
Qed.

Lemma replies_go_to_the_sender_witness :
  ∃ r ev,
    process_new_message world_gone 1 (message_from 7 url_gone) empty_state
    = Some r
    ∧ trace (state_of r) = trace empty_state ++ ev
    ∧ EvSendMessage 7 TChooseFormat true ∈ ev.
Proof.
  eexists.
  destruct (replies_go_to_the_sender world_gone 1 (message_from 7 url_gone)
              empty_state (Ok tt _) ltac:(vm_compute; reflexivity))
    as (ev & E & _).
  exists ev. split; [vm_compute; reflexivity|]. split; [exact E|].
  vm_compute in E. subst ev. left.
Defined.

(** X3.  A playlist download never writes an empty archive: whenever it
    calls the archiver, there is at least one member file. *)
Theorem archive_is_never_empty env chat url format_choice n s zip_path members :
  EvZip zip_path members
    ∈ new_events s (state_of (download_playlist env chat url format_choice n s)) →
  members ≠ [].
Proof.
  destruct (local_download_playlist env chat
              (only_events (event_of_chat chat)) url format_choice n s)
    as (ev & E & Hall).
  rewrite (new_events_app _ _ _ E). intros Hin.
  rewrite forallb_forall in Hall.
  apply list_elem_of_In, Hall in Hin. simpl in Hin. by destruct members.
Qed.

Lemma archive_is_never_empty_witness :
  EvZip "playlist_zip/playlist_MP4_7.zip" ["downloads/" +:+ url_ok]
    ∈ new_events empty_state
        (state_of (download_playlist
                     (world_with_playlist [url_ok; url_gone] fetch_unless_gone
                        (fun _ _ _ => true))
                     7 url_playlist "MP4" 3 empty_state))
  ∧ ["downloads/" +:+ url_ok] ≠ [].
Proof.
  assert (EvZip "playlist_zip/playlist_MP4_7.zip" ["downloads/" +:+ url_ok]
    ∈ new_events empty_state
        (state_of (download_playlist
                     (world_with_playlist [url_ok; url_gone] fetch_unless_gone
                        (fun _ _ _ => true))
                     7 url_playlist "MP4" 3 empty_state))) as Hin.
  { vm_compute.
    repeat first [apply list_elem_of_here|apply list_elem_of_further]. }
  split; [exact Hin|].
  exact (archive_is_never_empty _ _ _ _ _ _ _ _ Hin).
Defined.

(** ** No exception leaves a handler while texts can be sent *)

Section NeverRaisesHandlers.

Context (env : Env) (chat : Z) (Htext : reliable_text env chat).

Lemma never_raises_register_next_step_handler h :
  never_raises (register_next_step_handler chat h).
Proof. intros s. reflexivity. Qed.

Lemma never_raises_logged_notice entry t :
  never_raises (logging_error entry ;; send_message env chat t).
Proof.
  nr_split; [intros s; reflexivity|by apply never_raises_send_message].
Qed.

Lemma never_raises_retry_parsed parsed :
  never_raises (retry_parsed env chat parsed).
Proof. apply never_raises_try_except, never_raises_logged_notice. Qed.

Lemma never_raises_process_format_selection message :
  chat_id message = chat →
  never_raises (process_format_selection env message).
Proof.
  intros Hc. unfold process_format_selection. rewrite Hc.
  apply never_raises_try_except, never_raises_logged_notice.
Qed.

Lemma never_raises_send_welcome message :
  chat_id message = chat → never_raises (send_welcome env message).
Proof.
  intros Hc. unfold send_welcome. rewrite Hc.
  nr_split; [intros s; reflexivity|by apply never_raises_send_message].
Qed.

Lemma never_raises_handle_retry message :
  chat_id message = chat → never_raises (handle_retry env message).
Proof.
  intros Hc. unfold handle_retry. rewrite Hc.
  apply never_raises_bind; [intros s; reflexivity|]. intros s.
  destruct (failed_downloads s !! chat) as [[|it l]|];
    try by apply never_raises_send_message.
  nr_split; [by apply never_raises_send_message
            |apply never_raises_register_next_step_handler].
Qed.

Lemma never_raises_handle_url message :
  chat_id message = chat → never_raises (handle_url env message).
Proof.
  intros Hc. unfold handle_url. rewrite Hc.
  apply never_raises_try_except, never_raises_logged_notice.
Qed.

Lemma never_raises_retry_except : never_raises (retry_except env chat).
Proof. apply never_raises_logged_notice. Qed.

Lemma never_raises_process_retry_selection fuel message s r :
  chat_id message = chat →
  process_retry_selection env fuel message s = Some r → raised r = false.
Proof.
  intros Hc. unfold process_retry_selection. rewrite Hc.
  repeat case_match; intros [= <-]; try done.
  - apply never_raises_try_except, never_raises_retry_except.
  - apply never_raises_retry_except.
  - apply never_raises_try_except, never_raises_retry_except.
Qed.

Lemma never_raises_run_handlers fuel hs message s r :
  chat_id message = chat →
  run_handlers env fuel hs message s = Some r → raised r = false.
Proof.
  intros Hc. revert s. induction hs as [|h rest IH]; intros s; simpl.
  { by intros [= <-]. }
  assert (∀ r1, run_handler env fuel h message s = Some r1 → raised r1 = false)
    as Hh.
  { destruct h; simpl.
    - intros r1 [= <-]. by apply never_raises_process_format_selection.
    - intros r1. by apply never_raises_process_retry_selection.
    - intros r1 [= <-]. unfold process_specific_retry. rewrite Hc.
      apply never_raises_retry_parsed. }
  destruct (run_handler env fuel h message s) as [[[] s1|s1]|]; [| |done].
  - apply IH.
  - by specialize (Hh _ eq_refl).
Qed.

End NeverRaisesHandlers.

(** X4.  While texts can be sent to the chat of a message, handling the
    message never ends in an exception: every failure of a fetch, an
    extraction, a delivery, a clean-up, a file write or a parse is caught on
    the way. *)
Theorem no_exception_leaves_a_handler env fuel message s r :
  reliable_text env (chat_id message) →
  process_new_message env fuel message s = Some r →
  raised r = false.
Proof.
  intros Htext. unfold process_new_message.
  destruct (next_step s !! chat_id message) as [[|h hs]|];
    [|by apply (never_raises_run_handlers env (chat_id message))|].
  all: destruct (extract_command env (text message)) as [cmd|];
    repeat case_match; intros [= <-];
    first [by apply (never_raises_send_welcome env (chat_id message))
          |by apply (never_raises_handle_retry env (chat_id message))
          |by apply (never_raises_handle_url env (chat_id message))].
Qed.

Lemma no_exception_leaves_a_handler_witness :
  ∃ r,
    process_new_message world_no_delivery 1 (message_from 7 "mp4")
      (set_next_step {[7%Z := [HFormatSelection]]}
         (set_user_data {[7%Z := url_ok]} empty_state)) = Some r
    ∧ raised r = false
    ∧ ledger (state_of r) 7 = [(url_ok, "MP4")].
Proof.
  eexists. split; [vm_compute; reflexivity|]. split; [|vm_compute; reflexivity].
  apply (no_exception_leaves_a_handler world_no_delivery 1
           (message_from 7 "mp4")
           (set_next_step {[7%Z := [HFormatSelection]]}
              (set_user_data {[7%Z := url_ok]} empty_state))).
  - intros now. reflexivity.
  - vm_compute. reflexivity.
Defined.

(** ** Extraction and first-attempt success *)

Lemma convert_to_mp3_outcome env file_path s :
  file_path ∈ files s →
  mp3_path_of env file_path ≠ file_path →
  ∃ path s',
    convert_to_mp3 env file_path s = Ok path s'
    ∧ path ∈ files s'
    ∧ ((path = mp3_path_of env file_path
        ∧ (file_path ∉ files s')
        ∧ write_audiofile env (clock s) file_path = true
        ∧ remove_ok env (S (clock s)) file_path = true)
       ∨ (path = file_path
          ∧ (write_audiofile env (clock s) file_path = false
             ∨ remove_ok env (S (clock s)) file_path = false))).
Proof.
  intros Hin Hne.
  unfold convert_to_mp3, try_except, bind, tick, emit, modify, create_file,
    os_remove, bind, get, tick, emit, modify, logging_error, emit, modify. simpl.
  rewrite (bool_decide_eq_true_2 (file_path ∈ files s)) by done.
  destruct (write_audiofile env (clock s) file_path) eqn:Hw; simpl.
  - rewrite bool_decide_eq_true_2 by (by apply elem_of_union_r). simpl.
    destruct (remove_ok env (S (clock s)) file_path) eqn:Hrm; simpl.
    + eexists _, _. split; [done|]. simpl.
      rewrite !elem_of_difference, elem_of_union, !elem_of_singleton.
      split; [by split; [left|]|]. left. split; [done|]. split; [tauto|done].
    + eexists _, _. split; [done|]. simpl.
      split; [by apply elem_of_union_r|]. right. split; [done|by right].
  - destruct (audiofile_left env (clock s) file_path); simpl;
      eexists _, _; (split; [done|]); simpl.
    + split; [by apply elem_of_union_r|]. right. split; [done|by left].
    + split; [done|]. right. split; [done|by left].
Qed.

(** X5.  [convert_to_mp3] never raises and always returns the path of a
    file that exists: the new audio file, the video file being gone, when
    the transcoding and the removal of the video both work, and the video
    file, which is still there, when one of the two fails. *)
Theorem convert_to_mp3_returns_an_existing_file env file_path s :
  file_path ∈ files s →
  mp3_path_of env file_path ≠ file_path →
  ∃ path s',
    convert_to_mp3 env file_path s = Ok path s'
    ∧ path ∈ files s'
    ∧ ((path = mp3_path_of env file_path
        ∧ (file_path ∉ files s')
        ∧ write_audiofile env (clock s) file_path = true
        ∧ remove_ok env (S (clock s)) file_path = true)
       ∨ (path = file_path
          ∧ (write_audiofile env (clock s) file_path = false
             ∨ remove_ok env (S (clock s)) file_path = false))).
Proof. apply convert_to_mp3_outcome. Qed.

Lemma convert_to_mp3_returns_an_existing_file_witness :
  ∃ s',
    convert_to_mp3 world_fine "downloads/a.mp4"
      (set_files {["downloads/a.mp4"]} empty_state)
    = Ok "downloads/a.mp3" s'
    ∧ "downloads/a.mp3" ∈ files s'.
Proof.
  destruct (convert_to_mp3_returns_an_existing_file world_fine "downloads/a.mp4"
              (set_files {["downloads/a.mp4"]} empty_state))
    as (path & s' & E & Hin & _).
  - apply (bool_decide_unpack _). vm_compute. exact I.
  - vm_compute. discriminate.
  - exists s'. vm_compute in E. injection E as <- <-.
    split; [vm_compute; reflexivity|].
    apply (bool_decide_unpack _). vm_compute. exact I.
Defined.

Lemma last_char_app a b : b ≠ "" → last_char (a +:+ b) = last_char b.
Proof.
  intros Hb. induction a as [|c a IH]; [done|].
  change (String c a +:+ b) with (String c (a +:+ b)).
  destruct (a +:+ b) as [|c' rest] eqn:E; [|exact IH].
  destruct a; [|discriminate]. exfalso. by apply Hb.
Qed.

Lemma mp3_path_neq_mp4 name : mp3_path (name +:+ ".mp4") ≠ name +:+ ".mp4".
Proof.
  intros E. apply (f_equal last_char) in E. unfold mp3_path in E.
  rewrite (last_char_app name ".mp4") in E by discriminate.
  rewrite (last_char_app "downloads/") in E.
  - rewrite last_char_app in E by discriminate. discriminate.
  - by destruct (splitext_root _).
Qed.

Lemma world_videos_works chat : world_works world_videos chat.
Proof.
  split; [|split; [|split]].
  - intros now url. by eexists.
  - done.
  - done.
  - intros now url path [= <-]. apply (mp3_path_neq_mp4 ("downloads/" +:+ url)).
Qed.

Lemma fetched_app tr1 tr2 : fetched (tr1 ++ tr2) = fetched tr1 ++ fetched tr2.
Proof. apply omap_app. Qed.

Lemma fetches_fetched tr : fetches tr = length (fetched tr).
Proof.
  unfold fetches, fetched. induction tr as [|e tr IH]; [done|].
  destruct e; simpl; try exact IH. by rewrite IH.
Qed.

(** An attempt begins with the fetch of its URL. *)
Lemma video_attempt_trace env chat url format_choice s :
  ∃ ev,
    trace (state_of (video_attempt env chat url format_choice s))
    = trace s ++ EvYouTube url :: ev.
Proof.
  destruct (fetch_artifact_trace env url format_choice s) as [ev E].
  unfold video_attempt.
  pose proof (steps_after trace_grows (fetch_artifact env url format_choice)
    (fun file_path =>
       send_document env chat file_path ;; os_remove env file_path) s)
    as [ev' E'].
  { intros p. steps_split;
      [apply steps_send_document; apply _|apply steps_os_remove; apply _]. }
  exists (ev ++ ev'). rewrite E', E. by rewrite <- app_assoc.
Qed.

Section WorldWorks.

Context (env : Env) (chat : Z) (Hworks : world_works env chat).

Lemma fetch_artifact_succeeds url format_choice s :
  ∃ path s',
    fetch_artifact env url format_choice s = Ok path s' ∧ path ∈ files s'.
Proof.
  destruct Hworks as (Hfetch & _ & _ & Hmp3).
  unfold fetch_artifact, bind at 1.
  unfold youtube_fetch, bind, tick, emit, modify, create_file, modify. simpl.
  destruct (Hfetch (clock s) url) as [p Hp]. rewrite Hp. simpl.
  destruct (format_choice =? "MP4").
  - eexists _, _. split; [done|]. simpl. by apply elem_of_union_l, elem_of_singleton.
  - match goal with |- context [convert_to_mp3 env p ?s1] =>
      destruct (convert_to_mp3_outcome env p s1)
        as (q & s2 & -> & Hin & _)
    end; [by apply elem_of_union_l, elem_of_singleton|by eapply Hmp3|].
    by exists q, s2.
Qed.

Lemma video_attempt_succeeds url format_choice s :
  ∃ s', video_attempt env chat url format_choice s = Ok tt s'.
Proof.
  unfold video_attempt, bind at 1.
  destruct (fetch_artifact_succeeds url format_choice s) as (p & s1 & -> & Hin).
  destruct Hworks as (_ & Hdoc & Hrm & _).
  unfold send_document, os_remove, bind, get, tick, emit, modify. simpl.
  rewrite bool_decide_eq_true_2 by done. simpl. rewrite Hdoc. simpl.
  rewrite bool_decide_eq_true_2 by done. simpl. rewrite Hrm. by eexists.
Qed.

Lemma download_video_succeeds url format_choice n s :
  0 < n →
  ∃ s',
    download_video env chat url format_choice n s = Ok tt s'
    ∧ (∀ c, ledger s' c = ledger s c)
    ∧ fetched (new_events s s') = [url]
    ∧ delivered chat (new_events s s') = true.
Proof.
  intros Hn. unfold download_video.
  destruct n as [|n]; [lia|]. rewrite video_attempts_step.
  pose proof (video_attempt_outcome env chat url format_choice s) as Ho.
  pose proof (video_attempt_fetches env chat url format_choice s) as Hf.
  pose proof (video_attempt_trace env chat url format_choice s) as [ev Hev].
  pose proof (steps_video_attempt same_ledgers env chat url format_choice s)
    as Hl.
  destruct (video_attempt_succeeds url format_choice s) as [s' E].
  rewrite E in Ho, Hf, Hl, Hev |- *. simpl in Hf, Hl, Hev.
  exists s'. split; [done|]. split; [exact Hl|]. split.
  - rewrite (new_events_app _ _ _ Hev).
    rewrite Hev, fetches_app in Hf. simpl in Hf.
    change (fetches (EvYouTube url :: ev)) with (S (fetches ev)) in Hf.
    assert (fetched ev = []) as Hnone.
    { apply length_zero_iff_nil. rewrite <- fetches_fetched. lia. }
    simpl. by rewrite Hnone.
  - destruct Ho as (pre & p & Ht & _).
    rewrite (new_events_app _ _ _ Ht), !delivered_app. simpl.
    rewrite bool_decide_eq_true_2 by done. by rewrite orb_true_r.
Qed.

End WorldWorks.

(** X6.  When fetches, deliveries and removals work, a single-video
    download returns after one fetch, that of its URL, having delivered a
    document and left every ledger as it was, and this whether the audio
    extraction works or fails. *)
Theorem download_succeeds_whatever_the_extraction
    env chat url format_choice n s :
  world_works env chat →
  0 < n →
  ∃ s',
    download_video env chat url format_choice n s = Ok tt s'
    ∧ (∀ c, ledger s' c = ledger s c)
    ∧ fetched (new_events s s') = [url]
    ∧ delivered chat (new_events s s') = true.
Proof. intros Hworks. by apply download_video_succeeds. Qed.

Lemma download_succeeds_whatever_the_extraction_witness :
  ∃ s',
    download_video world_videos 7 url_ok "MP3" 3 empty_state = Ok tt s'
    ∧ fetched (new_events empty_state s') = [url_ok].
Proof.
  destruct (download_succeeds_whatever_the_extraction world_videos 7
              url_ok "MP3" 3 empty_state (world_videos_works 7))
    as (s' & E & _ & Hf & _); [lia|].
  exists s'. split; [exact E|]. exact Hf.
Defined.

(** ** Retries that succeed *)

Section RetriesSucceed.

Context (env : Env) (chat : Z).
Context (Hworks : world_works env chat) (Htext : reliable_text env chat).

(** The retry of one index leaves the ledger alone when the item it finds is
    a single video. *)
Lemma retry_index_succeeds idx s :
  (∀ it, it ∈ ledger s chat → is_playlist_specific_retry it.1 = false) →
  ∃ s',
    retry_index env chat idx s = Ok tt s' ∧ (∀ c, ledger s' c = ledger s c).
Proof.
  intros Hsingle. unfold retry_index, bind, get.
  destruct (bool_decide _); [|by exists s].
  destruct (ledger s chat !! Z.to_nat idx) as [[url f]|] eqn:E; [|by exists s].
  pose proof (Hsingle (url, f) (list_elem_of_lookup_2 _ _ _ E)) as Hs.
  simpl in Hs. rewrite Hs. simpl.
  destruct (download_video_succeeds env chat Hworks url f 3 s)
    as (s' & -> & Hl & _); [lia|].
  by exists s'.
Qed.

Lemma specific_retry_loop_succeeds sel s :
  (∀ it, it ∈ ledger s chat → is_playlist_specific_retry it.1 = false) →
  ∃ s',
    specific_retry_loop env chat sel s = Ok tt s'
    ∧ (∀ c, ledger s' c = ledger s c).
Proof.
  revert s. induction sel as [|idx rest IH]; intros s Hsingle; simpl.
  { by exists s. }
  unfold bind.
  destruct (retry_index_succeeds idx s Hsingle) as (s1 & -> & Hl1).
  destruct (IH s1) as (s2 & -> & Hl2).
  { intros it. rewrite Hl1. apply Hsingle. }
  exists s2. split; [done|]. intros c. by rewrite Hl2, Hl1.
Qed.

(** X7.  When fetches, deliveries, removals and texts work and the ledger
    holds single videos only, the retry of selected items ends without error
    and leaves in the ledger exactly the items whose positions were not
    selected, in their order. *)
Theorem retried_items_leave_the_ledger sel s :
  (∀ it, it ∈ ledger s chat → is_playlist_specific_retry it.1 = false) →
  ∃ s',
    retry_parsed env chat (Some sel) s = Ok tt s'
    ∧ ledger s' chat = drop_selected sel (ledger s chat)
    ∧ last (trace s') = Some (EvSendMessage chat TRetryDone true).
Proof.
  intros Hsingle. unfold retry_parsed, try_except, retry_selected.
  unfold bind at 1.
  destruct (specific_retry_loop_succeeds sel s Hsingle) as (s1 & -> & Hl1).
  unfold bind at 1, modify.
  unfold send_message, bind, tick, emit, modify. simpl. rewrite Htext.
  eexists. split; [done|]. simpl. split.
  - unfold ledger at 1. simpl. by rewrite lookup_insert_eq, Hl1.
  - by rewrite last_snoc.
Qed.

(** The retry-all loop, from position [i] on, when nothing it retries
    fails: it walks to the end of the ledger, one fetch per item. *)
Lemma retry_all_loop_succeeds fuel i s :
  (∀ it, it ∈ ledger s chat → is_playlist_retry_all it.1 = false) →
  length (ledger s chat) - i < fuel →
  ∃ s',
    retry_all_loop env fuel chat i s = Some (Ok tt s')
    ∧ (∀ c, ledger s' c = ledger s c)
    ∧ trace_grows s s'
    ∧ fetched (new_events s s') = fst <$> drop i (ledger s chat).
Proof.
  revert i s. induction fuel as [|fuel IH]; intros i s Hsingle Hfuel; [lia|].
  simpl. destruct (ledger s chat !! i) as [[url f]|] eqn:E.
  - pose proof (Hsingle (url, f) (list_elem_of_lookup_2 _ _ _ E)) as Hs.
    simpl in Hs. rewrite Hs. simpl.
    pose proof (steps_download_video trace_grows env chat url f 3 s) as Hg1.
    destruct (download_video_succeeds env chat Hworks url f 3 s)
      as (s1 & E1 & Hl1 & Hf1 & _); [lia|].
    rewrite E1 in Hg1 |- *. simpl in Hg1.
    pose proof (lookup_lt_Some _ _ _ E) as Hlt.
    destruct (IH (S i) s1) as (s2 & -> & Hl2 & Hg2 & Hf2).
    { intros it. rewrite Hl1. apply Hsingle. }
    { rewrite Hl1. lia. }
    exists s2. split; [done|]. split; [|split].
    + intros c. by rewrite Hl2, Hl1.
    + by etrans.
    + rewrite (new_events_trans s s1 s2) by done.
      rewrite fetched_app, Hf1, Hf2, Hl1.
      by rewrite (drop_S _ _ _ E).
  - apply lookup_ge_None in E. exists s. split; [done|]. split; [done|].
    split; [done|].
    rewrite drop_ge by done. unfold new_events. by rewrite drop_all.
Qed.

(** X8.  When fetches, deliveries, removals and texts work and the ledger
    holds single videos only, "Tentar Todos" comes to an end as soon as the
    fuel exceeds the length of the ledger: the items of the ledger were
    fetched once each, in their order, and the ledger is then empty. *)
Theorem retry_all_ends_with_an_empty_ledger fuel message s :
  chat_id message = chat →
  text message = "Tentar Todos" →
  (∀ it, it ∈ ledger s chat → is_playlist_retry_all it.1 = false) →
  length (ledger s chat) < fuel →
  ∃ s',
    process_retry_selection env fuel message s = Some (Ok tt s')
    ∧ failed_downloads s' !! chat = Some []
    ∧ fetched (new_events s s') = fst <$> ledger s chat.
Proof.
  intros Hc Ht Hsingle Hfuel.
  rewrite process_retry_selection_retry_all by done. rewrite Hc.
  destruct (retry_all_loop_succeeds fuel 0 s Hsingle) as (s1 & -> & Hl & _ & Hf);
    [lia|].
  eexists. split; [done|]. simpl. rewrite lookup_insert_eq. split; [done|].
  exact Hf.
Qed.

End RetriesSucceed.

Lemma retried_items_leave_the_ledger_witness :
  ∃ s',
    retry_parsed world_videos 7 (Some [1%Z])
      (state_with_ledger 7 [(url_ok, "MP4"); (url_gone, "MP3"); (url_ok, "MP3")])
    = Ok tt s'
    ∧ ledger s' 7 = [(url_ok, "MP4"); (url_ok, "MP3")].
Proof.
  destruct (retried_items_leave_the_ledger world_videos 7 (world_videos_works 7)
              (fun now => eq_refl) [1%Z]
              (state_with_ledger 7
                 [(url_ok, "MP4"); (url_gone, "MP3"); (url_ok, "MP3")]))
    as (s' & E & Hl & _).
  - intros it Hin. vm_compute in Hin.
    repeat (apply elem_of_cons in Hin as [->|Hin]; [reflexivity|]).
    by apply elem_of_nil in Hin.
  - exists s'. split; [exact E|]. rewrite Hl. reflexivity.
Defined.

Lemma retry_all_ends_with_an_empty_ledger_witness :
  ∃ s',
    process_retry_selection world_videos 3 (message_from 7 "Tentar Todos")
      (state_with_ledger 7 [(url_ok, "MP4"); (url_gone, "MP3")])
    = Some (Ok tt s')
    ∧ failed_downloads s' !! 7%Z = Some []
    ∧ fetched (trace s') = [url_ok; url_gone].
Proof.
  destruct (retry_all_ends_with_an_empty_ledger world_videos 7
              (world_videos_works 7) 3 (message_from 7 "Tentar Todos")
              (state_with_ledger 7 [(url_ok, "MP4"); (url_gone, "MP3")]))
    as (s' & E & Hl & Hf).
  - reflexivity.
  - reflexivity.
  - intros it Hin. vm_compute in Hin.
    repeat (apply elem_of_cons in Hin as [->|Hin]; [reflexivity|]).
    by apply elem_of_nil in Hin.
  - change (2 < 3). lia.
  - exists s'. split; [exact E|]. split; [exact Hl|]. exact Hf.
Defined.

(** ** The removal of the selected positions *)

Lemma elem_of_zip_seq {A} (l : list A) k i x :
  (i, x) ∈ zip (seq k (length l)) l ↔ (k ≤ i)%nat ∧ l !! (i - k)%nat = Some x.
Proof.
  revert k. induction l as [|y l IH]; intros k; simpl.
  { split; [by intros H%elem_of_nil|by intros [_ ?]]. }
  rewrite elem_of_cons, IH. split.
  - intros [[= -> ->]|[Hle Hl]].
    + split; [lia|]. by rewrite Nat.sub_diag.
    + split; [lia|]. by replace (i - k)%nat with (S (i - S k)) by lia.
  - intros [Hle Hl]. destruct (decide (i = k)) as [->|Hne].
    + left. rewrite Nat.sub_diag in Hl. by injection Hl as ->.
    + right. split; [lia|].
      by replace (i - k)%nat with (S (i - S k)) in Hl by lia.
Qed.

(** X9.  The removal keeps exactly the items at positions that were not
    selected, in the order they had. *)
Theorem drop_selected_keeps_the_unselected sel (l : list FailedItem) :
  drop_selected sel l `sublist_of` l
  ∧ ∀ it, it ∈ drop_selected sel l
          ↔ ∃ i : nat, l !! i = Some it ∧ Z.of_nat i ∉ sel.
Proof.
  unfold drop_selected. split.
  - rewrite <- (snd_zip (seq 0 (length l)) l) at 3 by (by rewrite length_seq).
    apply fmap_sublist, sublist_filter.
  - intros it. rewrite list_elem_of_fmap. split.
    + intros ([i x] & -> & Hin). apply list_elem_of_filter in Hin as [Hsel Hin].
      apply elem_of_zip_seq in Hin as [_ Hl]. rewrite Nat.sub_0_r in Hl.
      by exists i.
    + intros (i & Hl & Hsel). exists (i, it). split; [done|].
      apply list_elem_of_filter. split; [done|].
      apply elem_of_zip_seq. split; [lia|]. by rewrite Nat.sub_0_r.
Qed.

(** X10.  Only the set of selected positions that fall inside the list
    matters to the removal: two selections that agree on the positions of
    the list remove the same items, whatever their order, their repetitions
    and their out-of-range entries. *)
Theorem drop_selected_depends_on_positions_only sel1 sel2 (l : list FailedItem) :
  (∀ i : nat, (i < length l)%nat → Z.of_nat i ∈ sel1 ↔ Z.of_nat i ∈ sel2) →
  drop_selected sel1 l = drop_selected sel2 l.
Proof.
  intros Hagree. unfold drop_selected. f_equal.
  apply filter_ext_elem. intros [i it] Hin. simpl.
  apply elem_of_zip_seq in Hin as [_ Hl]. rewrite Nat.sub_0_r in Hl.
  apply lookup_lt_Some in Hl. by rewrite (Hagree i Hl).
Qed.

Lemma drop_selected_depends_on_positions_only_witness :
  drop_selected [1; 0; 1; 7; -2]%Z [(url_ok, "MP4"); (url_gone, "MP3"); (url_ok, "MP3")]
  = drop_selected [0; 1]%Z [(url_ok, "MP4"); (url_gone, "MP3"); (url_ok, "MP3")].
Proof.
  apply drop_selected_depends_on_positions_only.
  intros i Hi. simpl in Hi.
  destruct i as [|[|[|i]]]; [| | |lia];
    rewrite !elem_of_cons, !elem_of_nil; simpl; split; intros H;
    repeat (destruct H as [H|H]; try discriminate); tauto.
Defined.

(** ** Batches *)

Lemma fetch_artifact_fetch_fails env url format_choice s :
  youtube_download env (clock s) url = None →
  fetch_artifact env url format_choice s
  = Raise (with_left_file (download_left env (clock s) url)
             (set_trace (trace s ++ [EvYouTube url]) (set_clock (S (clock s)) s))).
Proof.
  intros H. unfold fetch_artifact, youtube_fetch, bind, tick, emit, modify.
  simpl. rewrite H. by destruct (download_left env (clock s) url).
Qed.

Section AllItemsFail.

Context (env : Env) (Hfail : ∀ now url, youtube_download env now url = None).

Lemma playlist_attempts_all_fail video_url format_choice n remaining dl failed s :
  0 < remaining ≤ n →
  ∃ s',
    playlist_attempts env video_url format_choice n remaining dl failed s
    = Ok (dl, failed ++ [(video_url, format_choice)]) s'
    ∧ fetches (trace s') = fetches (trace s) + remaining.
Proof.
  revert failed s.
  induction remaining as [|remaining IH]; intros failed s [Hpos Hle]; [lia|].
  rewrite playlist_attempts_step, fetch_artifact_fetch_fails by apply Hfail.
  set (s2 := set_trace _ _).
  assert (fetches (trace s2) = fetches (trace s) + 1) as Hf2.
  { subst s2. simpl. rewrite trace_with_left_file. simpl. rewrite !fetches_app.
    change (fetches [EvYouTube video_url]) with 1.
    change (fetches [EvLog _]) with 0. lia. }
  clearbody s2.
  destruct (decide (remaining = 0)) as [->|Hne].
  - replace (n - 1 =? n - 1)%nat with true by (symmetry; apply Nat.eqb_refl).
    simpl. exists s2. split; [done|lia].
  - replace (n - S remaining =? n - 1)%nat with false
      by (symmetry; apply Nat.eqb_neq; lia).
    destruct (IH failed s2) as (s3 & -> & Hf3); [lia|].
    exists s3. split; [done|lia].
Qed.

Lemma playlist_loop_all_fail video_urls format_choice n dl failed s :
  0 < n →
  ∃ s',
    playlist_loop env video_urls format_choice n dl failed s
    = Ok (dl, failed ++ ((fun u => (u, format_choice)) <$> video_urls)) s'
    ∧ fetches (trace s') = fetches (trace s) + n * length video_urls.
Proof.
  intros Hn. revert failed s.
  induction video_urls as [|u rest IH]; intros failed s; simpl.
  { exists s. rewrite app_nil_r. split; [done|lia]. }
  unfold bind.
  destruct (playlist_attempts_all_fail u format_choice n n dl failed s)
    as (s1 & -> & Hf1); [lia|].
  simpl. destruct (IH (failed ++ [(u, format_choice)]) s1) as (s2 & -> & Hf2).
  exists s2. rewrite <- app_assoc. split; [done|lia].
Qed.

End AllItemsFail.

(** What the two places that add to a ledger do when the notice can be
    sent, whether or not the file can be written. *)
Lemma tracked_items_are_recorded env chat t items s :
  reliable_text env chat →
  ∃ s',
    (send_message env chat t ;; ensure_ledger chat ;;
     ledger_extend chat items ;; save_failed_list env chat) s = Ok tt s'
    ∧ ledger s' chat = ledger s chat ++ items.
Proof.
  intros Htext. unfold bind.
  destruct (run_quiet (send_message env chat t) s) as ([] & s1 & -> & Hl1 & _);
    [by apply never_raises_send_message|apply steps_send_message; apply _
    |apply steps_send_message; apply _|].
  destruct (run_quiet (ensure_ledger chat) s1) as ([] & s2 & -> & Hl2 & _);
    [done|apply steps_ensure_ledger; apply _|apply steps_ensure_ledger; apply _|].
  pose proof (ledger_extend_spec chat items s2) as Hl3.
  destruct (ledger_extend chat items s2) as [[] s3|s3] eqn:E3; [|done].
  simpl in Hl3.
  destruct (run_quiet (save_failed_list env chat) s3) as ([] & s4 & -> & Hl4 & _);
    [by apply never_raises_save_failed_list|apply steps_save_failed_list; apply _
    |apply steps_save_failed_list; apply _|].
  exists s4. split; [done|]. by rewrite Hl4, Hl3, Hl2, Hl1.
Qed.

Lemma track_failed_videos_recorded env chat failed_videos s :
  reliable_text env chat →
  ∃ s',
    track_failed_videos env chat failed_videos s = Ok tt s'
    ∧ ledger s' chat = ledger s chat ++ failed_videos.
Proof. apply tracked_items_are_recorded. Qed.

(** X11.  A playlist of which no item can be fetched: every item is tried
    [max_retries] times, nothing is delivered, and the items are appended to
    the requester's ledger in the order of the playlist, each with the
    format asked for. *)
Theorem batch_without_success_records_every_item
    env chat url format_choice n video_urls s :
  playlist_video_urls env (clock s) url = Some video_urls →
  (∀ now u, youtube_download env now u = None) →
  reliable_text env chat →
  0 < n →
  ∃ s',
    download_playlist env chat url format_choice n s = Ok tt s'
    ∧ ledger s' chat
      = ledger s chat ++ ((fun u => (u, format_choice)) <$> video_urls)
    ∧ delivered chat (new_events s s') = false
    ∧ fetches (new_events s s') = n * length video_urls.
Proof.
  intros Hres Hfail Htext Hn.
  pose proof (steps_download_playlist trace_grows env chat url format_choice n s)
    as Hg.
  apply new_events_fetches in Hg.
  assert (∃ s', download_playlist env chat url format_choice n s = Ok tt s'
                ∧ ledger s' chat
                  = ledger s chat ++ ((fun u => (u, format_choice)) <$> video_urls)
                ∧ fetches (trace s') = fetches (trace s) + n * length video_urls
                ∧ no_delivery chat s s')
    as (s' & E & Hl & Hf & ev & Hev & Hnd).
  { unfold download_playlist, try_except. unfold bind at 1.
    unfold resolve_playlist, bind at 1, tick. unfold bind at 1, emit, modify.
    simpl. rewrite Hres. simpl. unfold bind at 1.
    set (s1 := set_trace _ _).
    assert (no_delivery chat s s1) as Hd1 by (by exists [EvPlaylist url]).
    assert (fetches (trace s1) = fetches (trace s)) as Hf1.
    { subst s1. simpl. rewrite fetches_app.
      change (fetches [EvPlaylist url]) with 0. lia. }
    assert (ledger s1 chat = ledger s chat) as Hl1 by done.
    clearbody s1.
    pose proof (steps_playlist_loop (no_delivery chat) env video_urls
                  format_choice n [] [] s1) as Hd2.
    pose proof (steps_playlist_loop same_ledgers env video_urls
                  format_choice n [] [] s1) as Hl2.
    destruct (playlist_loop_all_fail env Hfail video_urls format_choice n [] []
                s1 Hn) as (s2 & E2 & Hf2).
    rewrite E2 in Hd2, Hl2 |- *. simpl in Hd2, Hl2 |- *.
    specialize (Hl2 chat). unfold bind at 1. simpl.
    destruct video_urls as [|u rest]; simpl.
    - exists s2. rewrite app_nil_r. split; [done|].
      split; [by rewrite Hl2, Hl1|]. simpl in Hf2.
      split; [lia|by etrans].
    - match goal with
      | |- context [track_failed_videos env chat ?items s2] =>
          pose proof (steps_track_failed_videos (no_delivery chat) env chat
                        items s2) as Hd3;
          pose proof (steps_track_failed_videos same_fetches env chat
                        items s2) as Hf3;
          destruct (track_failed_videos_recorded env chat items s2 Htext)
            as (s3 & E3 & Hl3)
      end.
      rewrite E3 in Hd3, Hf3 |- *. exists s3. split; [done|].
      split; [by rewrite Hl3, Hl2, Hl1|].
      unfold same_fetches in Hf3. simpl in Hd3, Hf3, Hf2.
      split; [lia|]. etrans; [exact Hd1|]. by etrans. }
  rewrite E in Hg. simpl in Hg.
  exists s'. split; [done|]. split; [done|].
  rewrite (new_events_app _ _ _ Hev) in Hg |- *. split; [done|lia].
Qed.

Lemma batch_without_success_records_every_item_witness :
  ∃ s',
    download_playlist
      (world_with_playlist [url_gone; url_ok] (fun _ _ => None)
         (fun _ _ _ => true))
      7 url_playlist "MP3" 3 empty_state = Ok tt s'
    ∧ ledger s' 7 = [(url_gone, "MP3"); (url_ok, "MP3")].
Proof.
  destruct (batch_without_success_records_every_item
              (world_with_playlist [url_gone; url_ok] (fun _ _ => None)
                 (fun _ _ _ => true))
              7 url_playlist "MP3" 3 [url_gone; url_ok] empty_state)
    as (s' & E & Hl & _).
  - reflexivity.
  - reflexivity.
  - intros now. reflexivity.
  - lia.
  - by exists s'.
Defined.

Lemma never_raises_convert_to_mp3 env file_path :
  never_raises (convert_to_mp3 env file_path).
Proof.
  apply never_raises_try_except. nr_split; intros s; reflexivity.
Qed.

Lemma fetch_artifact_fetched env url format_choice s :
  is_Some (youtube_download env (clock s) url) →
  ∃ path s', fetch_artifact env url format_choice s = Ok path s'.
Proof.
  intros [p Hp]. unfold fetch_artifact, bind at 1.
  unfold youtube_fetch, bind, tick, emit, modify, create_file, modify. simpl.
  rewrite Hp. simpl. destruct (format_choice =? "MP4"); [by eexists _, _|].
  apply never_raises_Ok, never_raises_convert_to_mp3.
Qed.

(** Once a file has been gathered, or when some item of the playlist can
    always be fetched, the loop ends with at least one file. *)
Lemma playlist_loop_gathers_a_file env video_urls format_choice n dl failed s u :
  0 < n →
  (∀ now, is_Some (youtube_download env now u)) →
  dl ≠ [] ∨ u ∈ video_urls →
  ∃ dl' failed' s',
    playlist_loop env video_urls format_choice n dl failed s
    = Ok (dl', failed') s' ∧ dl' ≠ [].
Proof.
  intros Hn Hu. revert dl failed s.
  induction video_urls as [|v rest IH]; intros dl failed s Hsome; simpl.
  { destruct Hsome as [Hdl|Hin]; [by exists dl, failed, s|].
    by apply elem_of_nil in Hin. }
  unfold bind.
  assert (∃ dl1 failed1 s1,
            playlist_attempts env v format_choice n n dl failed s
            = Ok (dl1, failed1) s1 ∧ (dl1 ≠ [] ∨ u ∈ rest))
    as (dl1 & failed1 & s1 & -> & Hsome1).
  { destruct (decide (v = u)) as [->|Hne].
    - destruct n as [|n]; [lia|]. rewrite playlist_attempts_step.
      destruct (fetch_artifact_fetched env u format_choice s (Hu _))
        as (p & s1 & ->).
      eexists _, _, _. split; [done|]. left. by destruct dl.
    - destruct (playlist_attempts_outcome env v format_choice n n dl failed s)
        as (dl1 & failed1 & s1 & ev & -> & Hacc & _); [lia|].
      exists dl1, failed1, s1. split; [done|].
      destruct Hsome as [Hdl|Hin].
      + left. destruct Hacc as [(p & -> & _)|[-> _]]; [by destruct dl|done].
      + right. by apply elem_of_cons in Hin as [->|Hin]. }
  simpl. by apply IH.
Qed.

Lemma steps_write_zip env zip_path members :
  steps same_ledgers (write_zip env zip_path members).
Proof.
  unfold write_zip. steps_split;
    first [apply steps_tick; apply _
          |apply steps_create_file; apply _
          |apply steps_emit; [apply _|done|done]].
Qed.

(** When no document gets through, the archive step raises before the
    clean-up, and the ledgers are as before. *)
Lemma archive_step_raises env chat zip_path members (rest : M unit) s :
  (∀ now path, send_document_ok env now chat path = false) →
  ∃ s',
    (write_zip env zip_path members ;; send_document env chat zip_path ;; rest) s
    = Raise s'
    ∧ same_ledgers s s'.
Proof.
  intros Hdoc. unfold bind at 1.
  pose proof (steps_write_zip env zip_path members s) as Hl1.
  destruct (write_zip env zip_path members s) as [[] s1|s1]; simpl in Hl1;
    [|by exists s1].
  unfold bind at 1.
  pose proof (steps_send_document same_ledgers env chat zip_path s1) as Hl2.
  assert (raised (send_document env chat zip_path s1) = true) as Hr.
  { unfold send_document, bind, get, tick, emit, modify. simpl.
    destruct (bool_decide _); [|done]. simpl. by rewrite Hdoc. }
  destruct (send_document env chat zip_path s1) as [[] s2|s2]; [done|].
  exists s2. split; [done|]. simpl in Hl2. by etrans.
Qed.

(** X12.  When some item of a playlist was fetched and the archive cannot
    be delivered, the whole batch ends in the general error notice and the
    ledger stays as it was: the items of that batch that failed are not
    recorded. *)
Theorem undelivered_archive_loses_the_failed_items
    env chat url format_choice n video_urls u s :
  playlist_video_urls env (clock s) url = Some video_urls →
  u ∈ video_urls →
  (∀ now, is_Some (youtube_download env now u)) →
  (∀ now path, send_document_ok env now chat path = false) →
  reliable_text env chat →
  0 < n →
  ∃ s',
    download_playlist env chat url format_choice n s = Ok tt s'
    ∧ (∀ c, ledger s' c = ledger s c)
    ∧ last (trace s') = Some (EvSendMessage chat TErrPlaylist true).
Proof.
  intros Hres Hin Hu Hdoc Htext Hn.
  unfold download_playlist, try_except. unfold bind at 1.
  unfold resolve_playlist, bind at 1, tick. unfold bind at 1, emit, modify.
  simpl. rewrite Hres. simpl. unfold bind at 1.
  set (s1 := set_trace _ _).
  assert (same_ledgers s s1) as Hl1 by done. clearbody s1.
  pose proof (steps_playlist_loop same_ledgers env video_urls format_choice n
                [] [] s1) as Hl2.
  destruct (playlist_loop_gathers_a_file env video_urls format_choice n [] [] s1
              u Hn Hu (or_intror Hin)) as (dl & failed & s2 & E2 & Hdl).
  rewrite E2 in Hl2 |- *. simpl in Hl2 |- *.
  destruct dl as [|p dl]; [done|]. unfold bind at 1.
  match goal with
  | |- context [(write_zip env ?zp ?ms ;; send_document env chat ?zp ;; ?rest) s2] =>
      destruct (archive_step_raises env chat zp ms rest s2 Hdoc)
        as (s3 & -> & Hl3)
  end.
  unfold bind, logging_error, emit, modify, send_message, bind, tick, emit,
    modify. simpl. rewrite Htext.
  eexists. split; [done|]. simpl. split; [|by rewrite last_snoc].
  intros c.
  change (ledger (set_trace _ _) c) with (ledger s3 c).
  by rewrite Hl3, Hl2, Hl1.
Qed.

Lemma undelivered_archive_loses_the_failed_items_witness :
  ∃ s',
    download_playlist
      (world_with_playlist [url_ok; url_gone] fetch_unless_gone
         (fun _ _ _ => false))
      7 url_playlist "MP4" 3 empty_state = Ok tt s'
    ∧ ledger s' 7 = []
    ∧ fetches (trace s') = 4.
Proof.
  destruct (undelivered_archive_loses_the_failed_items
              (world_with_playlist [url_ok; url_gone] fetch_unless_gone
                 (fun _ _ _ => false))
              7 url_playlist "MP4" 3 [url_ok; url_gone] url_ok empty_state)
    as (s' & E & Hl & _).
  - reflexivity.
  - left.
  - intros now. by eexists.
  - reflexivity.
  - intros now. reflexivity.
  - lia.
  - exists s'. split; [exact E|]. split; [by rewrite Hl|].
    vm_compute in E. injection E as <-. vm_compute. reflexivity.
Defined.

(** ** Notices, parse errors and the dialogues *)

Lemma send_message_sent env chat t s :
  reliable_text env chat →
  send_message env chat t s
  = Ok tt (set_trace (trace s ++ [EvSendMessage chat t true])
             (set_clock (S (clock s)) s)).
Proof.
  intros Htext. unfold send_message, bind, tick, emit, modify. simpl.
  by rewrite Htext.
Qed.

(** X13.  When the ledger file cannot be written, a failed download is
    still recorded in memory: the item is appended, the write error is
    logged and not raised.  The files of the other requesters are as before;
    the requester's own file is as before when it could not be opened, and
    otherwise no longer holds what it held: it holds what the write that
    broke off has left. *)
Theorem unwritable_file_keeps_the_item_in_memory
    env chat url format_choice n s :
  reliable_text env chat →
  (∀ now, json_dump_ok env now chat = false) →
  ∃ s',
    track_failed_video env chat url format_choice n s = Ok tt s'
    ∧ ledger s' chat = ledger s chat ++ [(url, format_choice)]
    ∧ (∀ c, c ≠ chat → failed_lists s' !! c = failed_lists s !! c)
    ∧ failed_lists s' !! chat
      = match json_dump_left env (S (clock s)) chat with
        | Some text => Some text
        | None => failed_lists s !! chat
        end
    ∧ new_events s s'
      = [EvSendMessage chat (TFailedAfter n) true; EvLog LogSaveFailedList].
Proof.
  intros Htext Hdump. unfold track_failed_video. unfold bind at 1.
  rewrite send_message_sent by done.
  set (s1 := set_trace _ _).
  unfold bind at 1.
  assert (∃ s2, ensure_ledger chat s1 = Ok tt s2
                ∧ ledger s2 chat = ledger s chat
                ∧ failed_lists s2 = failed_lists s ∧ trace s2 = trace s1
                ∧ clock s2 = clock s1) as (s2 & -> & Hl2 & Hd2 & Ht2 & Hc2).
  { unfold ensure_ledger, modify.
    destruct (failed_downloads s1 !! chat) eqn:E; eexists; (split; [done|]).
    - done.
    - split; [|done]. unfold ledger. simpl. rewrite lookup_insert_eq.
      change (failed_downloads s1) with (failed_downloads s) in E.
      by rewrite E. }
  unfold bind at 1, ledger_extend, modify.
  unfold save_failed_list, try_except, bind, tick, logging_error, emit, modify.
  simpl. rewrite Hdump, Hc2. change (clock s1) with (S (clock s)).
  destruct (json_dump_left env (S (clock s)) chat) as [text|]; simpl;
    (eexists; split; [done|]); simpl; (split; [|split; [|split]]).
  - unfold ledger at 1. simpl. by rewrite lookup_insert_eq, Hl2.
  - intros c Hc. by rewrite lookup_insert_ne, Hd2.
  - by rewrite lookup_insert_eq.
  - apply new_events_app. simpl. rewrite Ht2. subst s1. simpl.
    by rewrite <- app_assoc.
  - unfold ledger at 1. simpl. by rewrite lookup_insert_eq, Hl2.
  - intros c Hc. by rewrite Hd2.
  - by rewrite Hd2.
  - apply new_events_app. simpl. rewrite Ht2. subst s1. simpl.
    by rewrite <- app_assoc.
Qed.

Lemma unwritable_file_keeps_the_item_in_memory_witness :
  ∃ s',
    track_failed_video world_disk_full 7 url_gone "MP4" 3
      (state_with_ledger 7 [(url_ok, "MP3")]) = Ok tt s'
    ∧ ledger s' 7 = [(url_ok, "MP3"); (url_gone, "MP4")]
    ∧ failed_lists (state_with_ledger 7 [(url_ok, "MP3")]) !! 7%Z
      = Some (failed_list_to_json [(url_ok, "MP3")])
    ∧ failed_lists s' !! 7%Z = Some JCut.
Proof.
  destruct (unwritable_file_keeps_the_item_in_memory world_disk_full 7 url_gone
              "MP4" 3 (state_with_ledger 7 [(url_ok, "MP3")]))
    as (s' & E & Hl & _ & Hd & _).
  - intros now. reflexivity.
  - intros now. reflexivity.
  - exists s'. split; [exact E|]. split; [by rewrite Hl|].
    split; [reflexivity|]. by rewrite Hd.
Defined.

(** X14.  A selection with a piece that is not a number is refused as a
    whole: the error is logged and reported to the user, nothing is
    retried, and the ledger, the ledger files and the local files are as
    before. *)
Theorem malformed_selection_changes_nothing env message piece s :
  piece ∈ split_comma (text message) →
  py_int env piece = None →
  reliable_text env (chat_id message) →
  ∃ s',
    process_specific_retry env message s = Ok tt s'
    ∧ new_events s s'
      = [EvLog LogSpecificRetry;
         EvSendMessage (chat_id message) TErrSpecificRetry true]
    ∧ failed_downloads s' = failed_downloads s
    ∧ failed_lists s' = failed_lists s
    ∧ files s' = files s.
Proof.
  intros Hin Hbad Htext.
  assert (parse_selection env (text message) = None) as Hparse.
  { unfold parse_selection. apply mapM_None_2, Exists_exists.
    exists piece. split; [done|]. by rewrite Hbad. }
  unfold process_specific_retry, retry_parsed, try_except. rewrite Hparse.
  unfold raise, bind, logging_error, emit, modify. simpl.
  rewrite send_message_sent by done.
  eexists. split; [done|]. simpl. split; [|done].
  apply new_events_app. simpl. by rewrite <- app_assoc.
Qed.

Lemma malformed_selection_changes_nothing_witness :
  ∃ s',
    process_specific_retry world_fine (message_from 7 "1,,2")
      (state_with_ledger 7 [(url_ok, "MP4"); (url_gone, "MP4")]) = Ok tt s'
    ∧ failed_downloads s' !! 7%Z = Some [(url_ok, "MP4"); (url_gone, "MP4")].
Proof.
  destruct (malformed_selection_changes_nothing world_fine
              (message_from 7 "1,,2") ""
              (state_with_ledger 7 [(url_ok, "MP4"); (url_gone, "MP4")]))
    as (s' & E & _ & Hl & _).
  - vm_compute. right. left.
  - reflexivity.
  - intros now. reflexivity.
  - exists s'. split; [exact E|]. by rewrite Hl.
Defined.

Lemma contains_in_empty needle : needle ≠ "" → contains needle "" = false.
Proof. by destruct needle. Qed.

Lemma register_next_step_handler_first chat h s :
  default [] (next_step s !! chat) = [] →
  next_step (state_of (register_next_step_handler chat h s)) !! chat = Some [h].
Proof. intros E. simpl. by rewrite lookup_insert_eq, E. Qed.

(** What the dispatcher does with a message for which exactly one handler
    is pending. *)
Lemma process_new_message_pending env fuel message h s :
  next_step s !! chat_id message = Some [h] →
  process_new_message env fuel message s
  = match run_handler env fuel h message
            (set_next_step (delete (chat_id message) (next_step s)) s) with
    | Some (Ok _ s') => Some (Ok tt s')
    | other => other
    end.
Proof.
  intros E. unfold process_new_message. rewrite E. simpl.
  by destruct (run_handler _ _ _ _ _) as [[[] s'|s']|].
Qed.





(* ================================================================== *)
(** ** The register of users *)

Section Users.

Import UserManager.

Lemma telegram_id_assign r item : telegram_id (assign r item) = telegram_id r.
Proof. by destruct item. Qed.

Lemma total_downloads_assign r item :
  total_downloads (assign r item) = total_downloads r.
Proof. by destruct item. Qed.

Lemma dates_assign r item :
  registration_date (assign r item) = registration_date r
  ∧ last_interaction_date (assign r item) = last_interaction_date r.
Proof. by destruct item. Qed.

Lemma foldl_assign_keeps r items :
  telegram_id (foldl assign r items) = telegram_id r
  ∧ total_downloads (foldl assign r items) = total_downloads r
  ∧ registration_date (foldl assign r items) = registration_date r
  ∧ last_interaction_date (foldl assign r items) = last_interaction_date r.
Proof.
  revert r. induction items as [|item items IH]; intros r; [done|].
  simpl. destruct (IH (assign r item)) as (-> & -> & -> & ->).
  rewrite telegram_id_assign, total_downloads_assign.
  by destruct (dates_assign r item) as [-> ->].
Qed.

(** An [UPDATE] that keeps the key changes the rows of its user in place and
    no row of anybody else. *)
Lemma update_where_others id set rows :
  (∀ r, telegram_id (set r) = telegram_id r) →
  filter (λ r, telegram_id r ≠ id) (update_where id set rows)
  = filter (λ r, telegram_id r ≠ id) rows.
Proof.
  intros Hkey. unfold update_where.
  induction rows as [|r rows IH]; [done|].
  rewrite fmap_cons, !filter_cons, IH.
  case_bool_decide as Hr.
  - rewrite Hkey. by rewrite !decide_False by (intros Hne; by apply Hne).
  - done.
Qed.

Lemma update_where_same id set rows :
  (∀ r, telegram_id (set r) = telegram_id r) →
  filter (λ r, telegram_id r = id) (update_where id set rows)
  = set <$> filter (λ r, telegram_id r = id) rows.
Proof.
  intros Hkey. unfold update_where.
  induction rows as [|r rows IH]; [done|].
  rewrite fmap_cons, !filter_cons, IH.
  case_bool_decide as Hr.
  - rewrite Hkey. by rewrite !decide_True by done.
  - by rewrite !decide_False by done.
Qed.

Lemma update_where_keys id set rows :
  (∀ r, telegram_id (set r) = telegram_id r) →
  telegram_id <$> update_where id set rows = telegram_id <$> rows.
Proof.
  intros Hkey. unfold update_where.
  induction rows as [|r rows IH]; [done|].
  rewrite !fmap_cons, IH. f_equal.
  case_bool_decide; [apply Hkey|done].
Qed.

Lemma update_where_nobody id set rows :
  filter (λ r, telegram_id r = id) rows = [] →
  update_where id set rows = rows.
Proof.
  unfold update_where.
  induction rows as [|r rows IH]; [done|].
  rewrite filter_cons, fmap_cons.
  destruct (decide (telegram_id r = id)) as [Hr|Hr]; [done|].
  intros Hrows. rewrite IH by done.
  by rewrite bool_decide_eq_false_2.
Qed.

Lemma insert_or_replace_same user now rows :
  filter (λ r, telegram_id r = User.id user) (insert_or_replace user now rows)
  = [inserted_row user now].
Proof.
  unfold insert_or_replace. rewrite filter_app.
  rewrite (filter_cons _ (inserted_row user now)).
  rewrite decide_True by done. rewrite filter_nil.
  replace (filter _ (filter _ rows)) with (@nil Row); [done|].
  symmetry. induction rows as [|r rows IH]; [done|].
  rewrite (filter_cons (λ r, telegram_id r ≠ User.id user)).
  destruct (decide (telegram_id r ≠ User.id user)) as [Hr|Hr]; [|done].
  rewrite filter_cons. by rewrite decide_False.
Qed.

Lemma insert_or_replace_others user now rows :
  filter (λ r, telegram_id r ≠ User.id user) (insert_or_replace user now rows)
  = filter (λ r, telegram_id r ≠ User.id user) rows.
Proof.
  unfold insert_or_replace. rewrite filter_app.
  rewrite (filter_cons _ (inserted_row user now)).
  rewrite decide_False by (intros Hne; by apply Hne).
  rewrite filter_nil, app_nil_r.
  induction rows as [|r rows IH]; [done|].
  rewrite (filter_cons (λ r, telegram_id r ≠ User.id user)).
  destruct (decide (telegram_id r ≠ User.id user)) as [Hr|Hr]; [|done].
  rewrite filter_cons. rewrite decide_True by done. by rewrite IH.
Qed.

(** What a save that returns [True] has done. *)
Lemma save_user_contact_saved env user extra_data s s' :
  save_user_contact env user extra_data s = (true, s') →
  ∃ u rows items,
    user = Some u
    ∧ users s = Some rows
    ∧ sqlite_ok env (clock s) = true
    ∧ trace s' = trace s
    ∧ clock s' = S (clock s)
    ∧ rows_of (User.id u) s'
      = [foldl assign (inserted_row u (isoformat_now env (clock s))) items]
    ∧ items = filter is_update_field (default [] extra_data)
    ∧ rows_of_others (User.id u) s' = rows_of_others (User.id u) s.
Proof.
  unfold save_user_contact, rows_of, rows_of_others, table.
  cbn [tick fst snd users clock].
  destruct (users s) as [rows|] eqn:Hrows; [|done].
  destruct user as [u|]; [|done].
  destruct (sqlite_ok env (clock s)) eqn:Hok; [|done].
  intros [= <-].
  exists u, rows, (filter is_update_field (default [] extra_data)).
  split_and!; try done.
  - destruct extra_data as [[|item items]|];
      cbn -[filter insert_or_replace update_where inserted_row foldl];
      try apply insert_or_replace_same.
    destruct (filter is_update_field (item :: items)) as [|f fs].
    + apply insert_or_replace_same.
    + rewrite update_where_same by (intros r; apply foldl_assign_keeps).
      by rewrite insert_or_replace_same.
  - destruct extra_data as [[|item items]|];
      cbn -[filter insert_or_replace update_where inserted_row foldl];
      try apply insert_or_replace_others.
    destruct (filter is_update_field (item :: items)) as [|f fs].
    + apply insert_or_replace_others.
    + rewrite update_where_others by (intros r; apply foldl_assign_keeps).
      apply insert_or_replace_others.
Qed.

(** The rows a query for marketing users can name. *)
Lemma elem_of_get_marketing_users env min_downloads id s :
  id ∈ (get_marketing_users env min_downloads s).1 →
  ∃ r, r ∈ rows_of id s
       ∧ consent_marketing r = true
       ∧ (min_downloads ≤ total_downloads r)%Z.
Proof.
  unfold get_marketing_users, rows_of, table. simpl.
  destruct (users s) as [rows|]; simpl; [|by intros ?%elem_of_nil].
  destruct (sqlite_ok env (clock s)); simpl; [|by intros ?%elem_of_nil].
  unfold select_marketing.
  intros (r & -> & (Hr & Hin)%list_elem_of_filter)%list_elem_of_fmap.
  exists r. split; [|done]. by apply list_elem_of_filter.
Qed.

Lemma get_marketing_users_elem_of env min_downloads s r :
  sqlite_ok env (clock s) = true →
  r ∈ table s →
  consent_marketing r = true →
  (min_downloads ≤ total_downloads r)%Z →
  telegram_id r ∈ (get_marketing_users env min_downloads s).1.
Proof.
  unfold get_marketing_users, table. simpl.
  intros -> Hin Hc Ht.
  destruct (users s) as [rows|]; simpl in *; [|by apply elem_of_nil in Hin].
  unfold select_marketing. apply list_elem_of_fmap.
  exists r. split; [done|]. by apply list_elem_of_filter.
Qed.

Lemma send_message_users env chat t s :
  users (send_message env chat t s).2 = users s.
Proof. done. Qed.

Lemma handle_contact_shared env message u c s :
  contact message = Some c →
  from_user message = Some u →
  ∃ s1,
    save_user_contact env (Some u)
      (Some [PhoneNumber (Some (Contact.phone_number c)); ConsentMarketing true]) s
    = (true, s1) ∧ users (handle_contact env message s) = users s1
    ∨ (save_user_contact env (Some u)
         (Some [PhoneNumber (Some (Contact.phone_number c)); ConsentMarketing true]) s).1
      = false.
Proof.
  intros Hc Hu. unfold handle_contact. rewrite Hc, Hu.
  destruct (save_user_contact env (Some u) _ s) as [[|] s1] eqn:Hs.
  - exists s1. left. split; [done|].
    simpl. by destruct (send_message_ok env (clock s1) (chat_id message)).
  - exists s. by right.
Qed.

Lemma increment_downloads_counted env id s rows :
  users s = Some rows →
  sqlite_ok env (clock s) = true →
  ∃ now,
    rows_of id (increment_downloads env id s)
    = count_download now <$> rows_of id s
    ∧ is_Some (users (increment_downloads env id s)).
Proof.
  intros Hrows Hok. exists (isoformat_now env (clock s)).
  unfold increment_downloads, rows_of, table. simpl.
  rewrite Hrows, Hok. simpl. split; [|by eexists].
  by apply update_where_same.
Qed.

Lemma downloads_counted env k id s rows r :
  (∀ now, sqlite_ok env now = true) →
  users s = Some rows →
  rows_of id s = [r] →
  (total_downloads r + Z.of_nat k ≤ 2 ^ 63)%Z →
  ∃ r',
    rows_of id (downloads env k id s) = [r']
    ∧ consent_marketing r' = consent_marketing r
    ∧ total_downloads r' = (total_downloads r + Z.of_nat k)%Z.
Proof.
  intros Hok. revert s rows r.
  induction k as [|k IH]; intros s rows r Hrows Hr Hk.
  - exists r. simpl. split_and!; [done|done|lia].
  - simpl.
    destruct (increment_downloads_counted env id s rows Hrows (Hok _))
      as (now & Hc & [rows' Hrows']).
    rewrite Hr in Hc. simpl in Hc.
    assert (total_downloads (count_download now r) = (total_downloads r + 1)%Z)
      as Hone.
    { simpl. unfold plus_one. rewrite bool_decide_eq_true_2; [done|lia]. }
    destruct (IH _ rows' _ Hrows' Hc) as (r' & Hr' & Hcons & Htot).
    { rewrite Hone. lia. }
    exists r'. split_and!; [done|done|].
    rewrite Htot, Hone. lia.
Qed.

Lemma downloads_clock_users env k id s :
  is_Some (users s) → is_Some (users (downloads env k id s)).
Proof.
  revert s. induction k as [|k IH]; intros s Hs; [done|].
  simpl. apply IH. unfold increment_downloads. simpl.
  destruct Hs as [rows ->].
  destruct (sqlite_ok env (clock s)); simpl; by eexists.
Qed.

(** The sends of the loop: one per user, whatever becomes of them. *)
Lemma send_to_each_sent env message target_users s :
  ∃ events,
    trace (send_to_each env message target_users s) = trace s ++ events
    ∧ recipients events = target_users
    ∧ users (send_to_each env message target_users s) = users s.
Proof.
  revert s. induction target_users as [|id ids IH]; intros s.
  - exists []. by rewrite app_nil_r.
  - assert (∃ s1 sent,
              send_to_each env message (id :: ids) s
              = send_to_each env message ids s1
              ∧ trace s1 = trace s ++ sent
              ∧ recipients sent = [id]
              ∧ users s1 = users s) as (s1 & sent & -> & Ht & Hr & Hu).
    { unfold send_to_each. simpl.
      destruct (send_message_ok env (clock s) id).
      - eexists _, [EvSendMessage id (TMarketing message) true].
        by split; [reflexivity|].
      - eexists _, [EvSendMessage id (TMarketing message) false;
                    EvLog (LogSendMarketingMessage id)].
        split; [reflexivity|]. simpl. by rewrite <- app_assoc. }
    destruct (IH s1) as (events & -> & Hrs & ->).
    exists (sent ++ events). rewrite Ht, <- app_assoc.
    split_and!; [done| |done].
    unfold recipients in *. by rewrite omap_app, Hr, Hrs.
Qed.

Lemma events_since_of_trace s s' events :
  trace s' = trace s ++ events → events_since s s' = events.
Proof. intros E. unfold events_since. rewrite E. by rewrite drop_app_length. Qed.

(** X17.  A save that returns [True] leaves the user with exactly one row,
    whose download count is zero and whose two dates are the time of the
    call, whatever the table held for them before and whatever [extra_data]
    says; the rows of the other users are as they were. *)
Theorem save_starts_the_record_anew env user extra_data s s' :
  save_user_contact env (Some user) extra_data s = (true, s') →
  ∃ r,
    rows_of (User.id user) s' = [r]
    ∧ total_downloads r = 0%Z
    ∧ registration_date r = isoformat_now env (clock s)
    ∧ last_interaction_date r = isoformat_now env (clock s)
    ∧ rows_of_others (User.id user) s' = rows_of_others (User.id user) s.
Proof.
  intros (u & rows & items & [= <-] & _ & _ & _ & _ & Hr & _ & Ho)
    %save_user_contact_saved.
  eexists. split; [exact Hr|].
  by destruct (foldl_assign_keeps
                 (inserted_row user (isoformat_now env (clock s))) items)
    as (_ & -> & -> & ->).
Qed.

Lemma save_starts_the_record_anew_witness :
  ∃ r,
    rows_of 7 (save_user_contact database_works (Some ana) None two_users).2 = [r]
    ∧ total_downloads ana_known = 12%Z
    ∧ total_downloads r = 0%Z
    ∧ rows_of_others 7 (save_user_contact database_works (Some ana) None two_users).2
      = [rui_known].
Proof.
  destruct (save_starts_the_record_anew database_works ana None two_users
              (save_user_contact database_works (Some ana) None two_users).2)
    as (r & Hr & Ht & _ & _ & Ho); [reflexivity|].
  exists r. split_and!; [exact Hr|reflexivity|exact Ht|].
  exact (eq_trans Ho eq_refl).
Defined.

(** X18.  After a save without [extra_data] that returns [True], the one the
    start command makes, no query for marketing users names the user,
    whatever the threshold and whatever consent, telephone number and
    downloads the table held for them before: the row has no telephone
    number, no consent and no download. *)
Theorem plain_save_withdraws_the_consent env user s s' :
  save_user_contact env (Some user) None s = (true, s') →
  (∀ min_downloads,
     User.id user ∉ (get_marketing_users env min_downloads s').1)
  ∧ ∀ r, r ∈ rows_of (User.id user) s' →
         consent_marketing r = false ∧ phone_number r = None
         ∧ total_downloads r = 0%Z.
Proof.
  intros (u & rows & items & [= <-] & _ & _ & _ & _ & Hr & -> & _)
    %save_user_contact_saved.
  simpl in Hr.
  assert (∀ r, r ∈ rows_of (User.id user) s' →
               consent_marketing r = false ∧ phone_number r = None
               ∧ total_downloads r = 0%Z) as Hrow.
  { intros r. rewrite Hr. by intros ->%list_elem_of_singleton. }
  split; [|done].
  intros min_downloads (r & Hin & Hc & _)%elem_of_get_marketing_users.
  destruct (Hrow r Hin) as (Hc' & _). congruence.
Qed.

Lemma plain_save_withdraws_the_consent_witness :
  (get_marketing_users database_works 1 two_users).1 = [7%Z; 8%Z]
  ∧ (7%Z ∉ (get_marketing_users database_works 1
              (save_user_contact database_works (Some ana) None two_users).2).1).
Proof.
  split; [reflexivity|].
  apply (plain_save_withdraws_the_consent database_works ana two_users).
  reflexivity.
Defined.

(** X19.  When the database works, a user who shares a contact and then has
    [k] downloads counted is named by the query for marketing users exactly
    when the threshold is at most [k]: the downloads counted before the
    contact was shared are gone, and with the default threshold of one the
    user is named only after a further download. *)
Theorem shared_contact_counts_from_zero env message user c rows k s :
  (∀ now, sqlite_ok env now = true) →
  users s = Some rows →
  contact message = Some c →
  from_user message = Some user →
  (Z.of_nat k < 2 ^ 63)%Z →
  ∀ min_downloads,
    User.id user
    ∈ (get_marketing_users env min_downloads
         (downloads env k (User.id user) (handle_contact env message s))).1
    ↔ (min_downloads ≤ Z.of_nat k)%Z.
Proof.
  intros Hok Hrows Hc Hu Hk min_downloads.
  destruct (handle_contact_shared env message user c s Hc Hu)
    as (s1 & [[Hsave Husers]|Hfail]).
  2:{ unfold save_user_contact in Hfail. simpl in Hfail.
      by rewrite Hrows, Hok in Hfail. }
  destruct (save_user_contact_saved _ _ _ _ _ Hsave)
    as (u & rows0 & items & [= <-] & _ & _ & _ & _ & Hr & -> & _).
  simpl in Hr.
  assert (is_Some (users (handle_contact env message s))) as [rows1 Hrows1].
  { rewrite Husers. unfold rows_of, table in Hr.
    destruct (users s1); [by eexists|done]. }
  assert (rows_of (User.id user) (handle_contact env message s)
          = rows_of (User.id user) s1) as Hsame.
  { unfold rows_of, table. by rewrite Husers. }
  rewrite Hr in Hsame.
  destruct (downloads_counted env k (User.id user) _ rows1 _ Hok Hrows1 Hsame)
    as (r' & Hr' & Hcons & Htot); [simpl; lia|].
  simpl in Hcons, Htot.
  split.
  - intros (r & Hin & _ & Hmin)%elem_of_get_marketing_users.
    rewrite Hr' in Hin. apply list_elem_of_singleton in Hin as ->. lia.
  - intros Hmin.
    assert (r' ∈ rows_of (User.id user)
                   (downloads env k (User.id user) (handle_contact env message s)))
      as Hin by (rewrite Hr'; apply list_elem_of_here).
    apply list_elem_of_filter in Hin as [Hid Hin].
    assert (min_downloads ≤ total_downloads r')%Z as Hle by lia.
    pose proof (get_marketing_users_elem_of env min_downloads _ r'
                  (Hok _) Hin Hcons Hle) as Hnamed.
    by rewrite Hid in Hnamed.
Qed.

Lemma shared_contact_counts_from_zero_witness :
  total_downloads ana_known = 12%Z
  ∧ (7%Z ∉ (get_marketing_users database_works 1
              (handle_contact database_works shares_contact two_users)).1)
  ∧ (7%Z ∈ (get_marketing_users database_works 1
              (downloads database_works 1 7
                 (handle_contact database_works shares_contact two_users))).1).
Proof.
  split; [reflexivity|]. split.
  - intros Hin.
    apply (shared_contact_counts_from_zero database_works shares_contact ana
             {| Contact.phone_number := "+5511999990000" |}
             [ana_known; rui_known] 0 two_users) in Hin;
      [lia|intros now; reflexivity|reflexivity|reflexivity|reflexivity|simpl; lia].
  - apply (shared_contact_counts_from_zero database_works shares_contact ana
             {| Contact.phone_number := "+5511999990000" |}
             [ana_known; rui_known] 1 two_users);
      [intros now; reflexivity|reflexivity|reflexivity|reflexivity|simpl; lia|lia].
Defined.

(** X20.  [increment_downloads] adds and removes no row and changes no row
    of another user; for a user the table does not hold, the download is
    not counted anywhere: the table is left exactly as it was. *)
Theorem download_of_unknown_user_is_not_counted env user_id s :
  (telegram_id <$> table (increment_downloads env user_id s)
   = telegram_id <$> table s)
  ∧ rows_of_others user_id (increment_downloads env user_id s)
    = rows_of_others user_id s
  ∧ (rows_of user_id s = [] →
     users (increment_downloads env user_id s) = users s).
Proof.
  unfold increment_downloads, rows_of_others, rows_of, table. simpl.
  destruct (users s) as [rows|] eqn:Hrows; [|done].
  destruct (sqlite_ok env (clock s)); simpl; rewrite ?Hrows; [|done].
  split_and!.
  - by apply update_where_keys.
  - by apply update_where_others.
  - intros Hnone. by rewrite update_where_nobody.
Qed.

(** X21.  [send_marketing_message] tries every target once, in the order of
    the list, whether the sends before it got through or not, and leaves the
    table alone.  An empty list of targets is taken as no list: the message
    then goes to every user the query for marketing users returns. *)
Theorem marketing_message_is_tried_for_every_target env message target_users s :
  recipients (events_since s (send_marketing_message env message target_users s))
  = match target_users with
    | Some (id :: ids) => id :: ids
    | _ => (get_marketing_users env 1 s).1
    end
  ∧ users (send_marketing_message env message target_users s) = users s.
Proof.
  assert (∀ s0,
            recipients
              (events_since s0
                 (let '(ids, s1) := get_marketing_users env 1 s0 in
                  send_to_each env message ids s1))
            = (get_marketing_users env 1 s0).1
            ∧ users (let '(ids, s1) := get_marketing_users env 1 s0 in
                     send_to_each env message ids s1) = users s0) as Hall.
  { intros s0.
    destruct (get_marketing_users env 1 s0) as [ids s1] eqn:Hq.
    destruct (send_to_each_sent env message ids s1) as (events & Ht & Hr & Hu).
    assert (∃ logged, trace s1 = trace s0 ++ logged ∧ recipients logged = []
                      ∧ users s1 = users s0) as (logged & Hl & Hrl & Hul).
    { unfold get_marketing_users in Hq. simpl in Hq.
      destruct (users s0) as [rows|] eqn:Hrows; simpl in Hq.
      - destruct (sqlite_ok env (clock s0)); injection Hq as <- <-.
        + exists []. by rewrite app_nil_r.
        + by exists [EvLog LogGetMarketingUsers].
      - injection Hq as <- <-. by exists [EvLog LogGetMarketingUsers]. }
    rewrite Hl, <- app_assoc in Ht.
    rewrite (events_since_of_trace _ _ _ Ht). simpl.
    unfold recipients in *. rewrite omap_app, Hrl, Hr. split; [done|congruence]. }
  unfold send_marketing_message.
  destruct target_users as [[|id ids]|]; [apply Hall| |apply Hall].
  destruct (send_to_each_sent env message (id :: ids) s) as (events & Ht & Hr & Hu).
  by rewrite (events_since_of_trace _ _ _ Ht).
Qed.


Lemma handle_contact_declined env message s :
  contact message = None →
  text message = Some "Não, obrigado" →
  ∃ saved s1,
    save_user_contact env (from_user message) (Some [ConsentMarketing false]) s
    = (saved, s1)
    ∧ users (handle_contact env message s) = users s1.
Proof.
  intros Hc Ht. unfold handle_contact. rewrite Hc, Ht.
  rewrite bool_decide_eq_true_2 by done.
  destruct (save_user_contact env (from_user message) _ s) as [saved s1].
  exists saved, s1. split; [done|]. simpl.
  by destruct (send_message_ok env (clock s1) (chat_id message)).
Qed.

(** X22.  When the database works, the answer that declines to share a
    contact takes the user off every list of marketing users; it also
    starts their record anew: the telephone number and the downloads the
    table held for them are gone. *)
Theorem declining_withdraws_the_consent env message user rows s :
  contact message = None →
  text message = Some "Não, obrigado" →
  from_user message = Some user →
  users s = Some rows →
  sqlite_ok env (clock s) = true →
  (∀ min_downloads,
     User.id user
     ∉ (get_marketing_users env min_downloads (handle_contact env message s)).1)
  ∧ ∀ r, r ∈ rows_of (User.id user) (handle_contact env message s) →
         consent_marketing r = false ∧ phone_number r = None
         ∧ total_downloads r = 0%Z.
Proof.
  intros Hc Ht Hu Hrows Hok.
  destruct (handle_contact_declined env message s Hc Ht)
    as (saved & s1 & Hsave & Husers).
  rewrite Hu in Hsave.
  assert (saved = true) as ->.
  { unfold save_user_contact in Hsave. simpl in Hsave.
    rewrite Hrows, Hok in Hsave. by injection Hsave as <- _. }
  destruct (save_user_contact_saved _ _ _ _ _ Hsave)
    as (u & rows0 & items & [= <-] & _ & _ & _ & _ & Hr & -> & _).
  simpl in Hr.
  assert (∀ r, r ∈ rows_of (User.id user) (handle_contact env message s) →
               consent_marketing r = false ∧ phone_number r = None
               ∧ total_downloads r = 0%Z) as Hrow.
  { intros r. unfold rows_of, table. rewrite Husers.
    fold (table s1). fold (rows_of (User.id user) s1). rewrite Hr.
    by intros ->%list_elem_of_singleton. }
  split; [|done].
  intros min_downloads (r & Hin & Hcons & _)%elem_of_get_marketing_users.
  destruct (Hrow r Hin) as (Hcons' & _). congruence.
Qed.

Lemma declining_withdraws_the_consent_witness :
  (get_marketing_users database_works 1 two_users).1 = [7%Z; 8%Z]
  ∧ (7%Z ∉ (get_marketing_users database_works 1
              (handle_contact database_works declines two_users)).1).
Proof.
  split; [reflexivity|].
  destruct (declining_withdraws_the_consent database_works declines ana
              [ana_known; rui_known] two_users) as [Hoff _];
    [reflexivity|reflexivity|reflexivity|reflexivity|reflexivity|].
  apply Hoff.
Defined.

(** X23.  When the database fails, the answer that declines to share a
    contact changes nothing in the table, so that a consent given before
    stays; the user is nevertheless sent the confirmation that the refusal
    is respected. *)
Theorem unsaved_decline_is_still_confirmed env message s :
  contact message = None →
  text message = Some "Não, obrigado" →
  sqlite_ok env (clock s) = false →
  users (handle_contact env message s) = users s
  ∧ ∃ delivered,
      EvSendMessage (chat_id message) TNoProblem delivered
      ∈ events_since s (handle_contact env message s).
Proof.
  intros Hc Ht Hdown.
  unfold handle_contact. rewrite Hc, Ht.
  rewrite bool_decide_eq_true_2 by done.
  assert (save_user_contact env (from_user message)
            (Some [ConsentMarketing false]) s
          = (false, logging_error LogSaveUserContact (tick s).2)) as ->.
  { unfold save_user_contact. simpl. rewrite Hdown.
    destruct (users s); [|done]. by destruct (from_user message). }
  simpl. unfold events_since. simpl.
  destruct (send_message_ok env (S (clock s)) (chat_id message)) eqn:Hsent;
    simpl; (split; [done|]); eexists;
    rewrite <- ?app_assoc, drop_app_length; simpl;
    apply list_elem_of_further, list_elem_of_here.
Qed.

Lemma unsaved_decline_is_still_confirmed_witness :
  users (handle_contact database_down declines two_users)
  = Some [ana_known; rui_known]
  ∧ ∃ delivered,
      EvSendMessage 7 TNoProblem delivered
      ∈ events_since two_users (handle_contact database_down declines two_users).
Proof.
  destruct (unsaved_decline_is_still_confirmed database_down declines two_users)
    as [Hu Hsent]; [reflexivity|reflexivity|reflexivity|].
  split; [|exact Hsent].
  rewrite Hu. reflexivity.
Defined.

End Users.

(* ================================================================== *)
(** ** Files that cannot be removed *)

Lemma deliveries_app chat tr1 tr2 :
  deliveries chat (tr1 ++ tr2) = deliveries chat tr1 + deliveries chat tr2.
Proof. unfold deliveries. by rewrite filter_app, length_app. Qed.

Global Instance same_deliveries_tolerant chat : Tolerant (same_deliveries chat).
Proof.
  split; unfold same_deliveries.
  - by intros s.
  - intros s1 s2 s3 H1 H2. by rewrite H2.
  - done.
  - done.
  - done.
  - intros s e _ Hd. simpl. rewrite deliveries_app.
    destruct e; try discriminate;
      match goal with
      | |- context [deliveries chat [?e]] => change (deliveries chat [e]) with 0
      end; lia.
  - done.
Qed.

Lemma deliveries_delivery chat path :
  deliveries chat [EvSendDocument chat path true] = 1.
Proof.
  unfold deliveries. rewrite filter_cons, decide_True; [done|].
  simpl. by rewrite bool_decide_eq_true_2.
Qed.

Global Instance same_deliveries_fetch chat : ToleratesFetch (same_deliveries chat).
Proof.
  intros s url. unfold same_deliveries. simpl. rewrite deliveries_app.
  change (deliveries chat [EvYouTube url]) with 0. lia.
Qed.

Global Instance same_deliveries_extend chat :
  ToleratesExtend (same_deliveries chat).
Proof. by intros s c items. Qed.

Section LockedFiles.

Context (env : Env) (chat : Z) (url format_choice : string).
Context (Hfetch : ∀ now, is_Some (youtube_download env now url)).
Context (Hdoc : ∀ now path, send_document_ok env now chat path = true).
Context (Hlocked : ∀ now path, remove_ok env now path = false).
Context (Htext : reliable_text env chat).

(** The fetch, with or without extraction, returns the video file, which is
    there: the extraction cannot remove it. *)
Lemma fetch_artifact_keeps_the_video s :
  ∃ path s',
    fetch_artifact env url format_choice s = Ok path s' ∧ path ∈ files s'.
Proof.
  unfold fetch_artifact, bind at 1.
  unfold youtube_fetch, bind, tick, emit, modify, create_file, modify. simpl.
  destruct (Hfetch (clock s)) as [p Hp]. rewrite Hp. simpl.
  destruct (format_choice =? "MP4").
  { eexists _, _. split; [done|]. simpl.
    by apply elem_of_union_l, elem_of_singleton. }
  unfold convert_to_mp3, try_except, bind, tick, emit, modify, create_file,
    os_remove, bind, get, tick, emit, modify, logging_error, emit, modify. simpl.
  rewrite (bool_decide_eq_true_2 (p ∈ {[p]} ∪ files s))
    by (by apply elem_of_union_l, elem_of_singleton).
  destruct (write_audiofile env (S (clock s)) p); simpl.
  - rewrite bool_decide_eq_true_2
      by (by apply elem_of_union_r, elem_of_union_l, elem_of_singleton).
    simpl. rewrite Hlocked. simpl. eexists _, _. split; [done|]. simpl.
    by apply elem_of_union_r, elem_of_union_l, elem_of_singleton.
  - destruct (audiofile_left env (S (clock s)) p); simpl;
      eexists _, _; (split; [done|]); simpl.
    + by apply elem_of_union_r, elem_of_union_l, elem_of_singleton.
    + by apply elem_of_union_l, elem_of_singleton.
Qed.

(** Every attempt delivers the video and then fails on its removal. *)
Lemma video_attempt_fails_after_the_delivery s :
  ∃ s',
    video_attempt env chat url format_choice s = Raise s'
    ∧ deliveries chat (trace s') = deliveries chat (trace s) + 1.
Proof.
  unfold video_attempt, bind at 1.
  pose proof (steps_fetch_artifact (same_deliveries chat) env url format_choice s)
    as Hd.
  destruct (fetch_artifact_keeps_the_video s) as (p & s1 & E & Hin).
  rewrite E in Hd |- *. simpl in Hd. unfold same_deliveries in Hd.
  unfold send_document, os_remove, bind, get, tick, emit, modify. simpl.
  rewrite bool_decide_eq_true_2 by done. simpl. rewrite Hdoc. simpl.
  rewrite bool_decide_eq_true_2 by done. simpl. rewrite Hlocked.
  eexists. split; [done|]. simpl.
  by rewrite deliveries_app, Hd, deliveries_delivery.
Qed.

Lemma video_attempts_deliver_every_time n remaining s :
  0 < remaining ≤ n →
  ∃ s',
    video_attempts env chat url format_choice n remaining s = Ok tt s'
    ∧ ledger s' chat = ledger s chat ++ [(url, format_choice)]
    ∧ fetches (trace s') = fetches (trace s) + remaining
    ∧ deliveries chat (trace s') = deliveries chat (trace s) + remaining.
Proof.
  revert s. induction remaining as [|remaining IH]; intros s [Hpos Hle]; [lia|].
  rewrite video_attempts_step.
  pose proof (video_attempt_fetches env chat url format_choice s) as Hf.
  pose proof (steps_video_attempt same_ledgers env chat url format_choice s chat)
    as Hl.
  destruct (video_attempt_fails_after_the_delivery s) as (s1 & E & Hd).
  rewrite E in Hf, Hl |- *. simpl in Hf, Hl.
  set (s2 := set_trace _ s1).
  assert (fetches (trace s2) = fetches (trace s) + 1) as Hf2.
  { subst s2. simpl. rewrite fetches_app. change (fetches [EvLog _]) with 0. lia. }
  assert (deliveries chat (trace s2) = deliveries chat (trace s) + 1) as Hd2.
  { subst s2. simpl. rewrite deliveries_app.
    change (deliveries chat [EvLog _]) with 0. lia. }
  assert (ledger s2 chat = ledger s chat) as Hl2 by done.
  clearbody s2. clear s1 E Hf Hl Hd.
  destruct (decide (remaining = 0)) as [->|Hne].
  - replace (n - 1 =? n - 1)%nat with true by (symmetry; apply Nat.eqb_refl).
    pose proof (steps_track_failed_video (same_deliveries chat) env chat url
                  format_choice n s2) as Hd3.
    destruct (track_failed_video_spec env chat Htext url format_choice n s2)
      as (s3 & E & Hl3 & Hf3).
    rewrite E in Hd3 |- *. simpl in Hd3 |- *.
    unfold same_deliveries in Hd3. unfold same_fetches in Hf3.
    exists s3. split; [done|]. split; [by rewrite Hl3, Hl2|]. split; lia.
  - replace (n - S remaining =? n - 1)%nat with false
      by (symmetry; apply Nat.eqb_neq; lia).
    simpl. destruct (IH s2) as (s3 & -> & Hl3 & Hf3 & Hd3); [lia|].
    exists s3. split; [done|]. split; [by rewrite Hl3, Hl2|]. split; lia.
Qed.

(** X24.  When the delivered file cannot be removed, no attempt of a
    single-video download runs to its end although each of them delivers
    the video: the video is fetched and delivered once per attempt, and the
    item is then recorded as failed. *)
Theorem failed_removal_delivers_at_every_attempt n s :
  0 < n →
  ∃ s',
    download_video env chat url format_choice n s = Ok tt s'
    ∧ ledger s' chat = ledger s chat ++ [(url, format_choice)]
    ∧ fetches (new_events s s') = n
    ∧ deliveries chat (new_events s s') = n.
Proof.
  intros Hn. unfold download_video.
  pose proof (steps_video_attempts trace_grows env chat url format_choice n n s)
    as Hg.
  destruct (video_attempts_deliver_every_time n n s)
    as (s' & E & Hl & Hf & Hd); [lia|].
  rewrite E in Hg. simpl in Hg. destruct Hg as [ev Hev].
  exists s'. split; [done|]. split; [done|].
  rewrite (new_events_app _ _ _ Hev).
  rewrite Hev, fetches_app in Hf. rewrite Hev, deliveries_app in Hd.
  split; lia.
Qed.

End LockedFiles.

Lemma failed_removal_delivers_at_every_attempt_witness :
  ∃ s',
    download_video world_locked 7 url_ok "MP4" 3 empty_state = Ok tt s'
    ∧ ledger s' 7 = [(url_ok, "MP4")]
    ∧ deliveries 7 (trace s') = 3.
Proof.
  destruct (failed_removal_delivers_at_every_attempt world_locked 7 url_ok "MP4"
              (fun now => ex_intro _ _ eq_refl) (fun now path => eq_refl)
              (fun now path => eq_refl) (fun now => eq_refl) 3 empty_state)
    as (s' & E & Hl & _ & Hd); [lia|].
  exists s'. split; [exact E|]. split; [exact Hl|]. exact Hd.
Defined.
